(** * Altified worker: edge orchestrator and client translation engine

    A shallow embedding of [src/index.js], and the properties of it that
    the specification states.

    The worker has two halves.  The edge half ([fetch],
    [handleTranslatedRequest], [handleDefaultLanguagePage] and the five
    string injectors) is modelled on strings and response records, with
    the templates of the injected fragments taken over character by
    character.  The client half, the script that [injectAutoTranslation]
    puts into the page, is modelled on a DOM tree with node identities, a
    translation cache and the set of nodes already translated.

    Conventions.  A JavaScript string is the [string] of the bytes of
    its UTF-8 encoding: the comparisons, searches, replacements and splits
    of the code have ASCII patterns and read the same on the encoding, and
    [trim] strips the encodings of the white space characters.  The [Map]
    of translations is a [gmap string string]; the [WeakSet] of DOM nodes
    is a [gset] of node identities; layout coordinates are rationals.  A
    network call is an input of the model: the function that performs it
    is given the answer and reports what it sent.  A pass of the engine
    runs in three steps, between which other passes may run: it extracts
    and posts, its answer is stored, its apply phase writes.
    [translateCandidates] is the pass that runs alone, the three steps in
    a row.

    The two loaders of the worker ([getProjectConfig],
    [getLanguageNames]) are functions of what the cache and the API
    answer; the two scripts that run in the page besides the engine (the
    language detection and the handler of the switcher) are functions of
    the location, the navigator and the session storage.

    Part I holds the definitions, module by module; Part II the
    properties that the specification states; Part III further properties
    of the code. *)

From Stdlib Require Import String Ascii List ZArith QArith Lia Bool Permutation.
From stdpp Require Import base gmap sets list strings.

Set Warnings "-register-all".
Local Open Scope nat_scope.

(* ===================================================================== *)
(** * Part I: definitions                                                 *)
(* ===================================================================== *)

(** ** JavaScript string primitives *)

Module Str.

(** The double quote, written by code so that literals stay readable. *)
Definition dq : string := String (ascii_of_nat 34) "".

(** The number of bytes of [s]: the offsets of [replace] are counted in
    it. *)
Definition length (s : string) : nat := String.length s.

(** A string is truthy when it is not empty. *)
Definition truthy (s : string) : bool :=
  match s with
  | EmptyString => false
  | String _ _ => true
  end.

(** [s === t] *)
Definition eqb (s t : string) : bool := String.eqb s t.

(** [s.startsWith(p)] *)
Fixpoint startsWith (s p : string) : bool :=
  match p, s with
  | EmptyString, _ => true
  | String _ _, EmptyString => false
  | String a p', String b s' => Ascii.eqb a b && startsWith s' p'
  end.

(** [s.includes(p)] *)
Fixpoint includes (s p : string) : bool :=
  startsWith s p ||
  match s with
  | EmptyString => false
  | String _ s' => includes s' p
  end.

(** [s.indexOf(p)], [None] for -1. *)
Fixpoint indexOf (s p : string) : option nat :=
  if startsWith s p then Some 0
  else match s with
       | EmptyString => None
       | String _ s' => option_map S (indexOf s' p)
       end.

(** [s.substring(0, n)] and [s.substring(n)] *)
Fixpoint take (n : nat) (s : string) : string :=
  match n, s with
  | S n', String c s' => String c (take n' s')
  | _, _ => EmptyString
  end.

Fixpoint drop (n : nat) (s : string) : string :=
  match n, s with
  | S n', String _ s' => drop n' s'
  | _, _ => s
  end.

(** White space as [String.prototype.trim] strips it: the code points of
    [WhiteSpace] and [LineTerminator].  In UTF-8 they are one, two or
    three bytes long.  One byte: TAB, LF, VT, FF, CR and SPACE. *)
Definition isWhiteSpace (c : ascii) : bool :=
  match nat_of_ascii c with
  | 9 | 10 | 11 | 12 | 13 | 32 => true
  | _ => false
  end.

(** Two bytes: U+00A0, the no-break space ([C2 A0]). *)
Definition isWhiteSpace2 (c1 c2 : ascii) : bool :=
  (nat_of_ascii c1 =? 194) && (nat_of_ascii c2 =? 160).

(** Three bytes: U+1680 ([E1 9A 80]), U+2000 to U+200A ([E2 80 80] to
    [E2 80 8A]), the separators U+2028 and U+2029 ([E2 80 A8],
    [E2 80 A9]), U+202F ([E2 80 AF]), U+205F ([E2 81 9F]), U+3000
    ([E3 80 80]) and U+FEFF ([EF BB BF]). *)
Definition isWhiteSpace3 (c1 c2 c3 : ascii) : bool :=
  let n1 := nat_of_ascii c1 in
  let n2 := nat_of_ascii c2 in
  let n3 := nat_of_ascii c3 in
  (n1 =? 225) && (n2 =? 154) && (n3 =? 128)
  || (n1 =? 226) && (n2 =? 128)
     && ((128 <=? n3) && (n3 <=? 138) || (n3 =? 168) || (n3 =? 169) || (n3 =? 175))
  || (n1 =? 226) && (n2 =? 129) && (n3 =? 159)
  || (n1 =? 227) && (n2 =? 128) && (n3 =? 128)
  || (n1 =? 239) && (n2 =? 187) && (n3 =? 191).

(** The number of bytes of the white space character that [s] starts
    with, 0 when it starts with none. *)
Definition whiteSpaceAt (s : string) : nat :=
  match s with
  | String c1 r1 =>
      if isWhiteSpace c1 then 1
      else match r1 with
           | String c2 r2 =>
               if isWhiteSpace2 c1 c2 then 2
               else match r2 with
                    | String c3 _ => if isWhiteSpace3 c1 c2 c3 then 3 else 0
                    | EmptyString => 0
                    end
           | EmptyString => 0
           end
  | EmptyString => 0
  end.

Fixpoint trimStart (s : string) : string :=
  match s with
  | EmptyString => EmptyString
  | String _ r1 =>
      match whiteSpaceAt s with
      | 0 => s
      | 1 => trimStart r1
      | 2 => match r1 with
             | String _ r2 => trimStart r2
             | EmptyString => s
             end
      | _ => match r1 with
             | String _ (String _ r3) => trimStart r3
             | _ => s
             end
      end
  end.

(** The longest suffix made of white space goes: a text is made of
    white space when [trimStart] leaves nothing of it. *)
Fixpoint trimEnd (s : string) : string :=
  match s with
  | EmptyString => EmptyString
  | String c s' => if truthy (trimStart s) then String c (trimEnd s') else EmptyString
  end.

(** [s.trim()] *)
Definition trim (s : string) : string := trimEnd (trimStart s).

(** [code.toUpperCase()] as it reads on a text of ASCII characters: the
    letters [a] to [z] change. *)
Definition upperChar (c : ascii) : ascii :=
  let n := nat_of_ascii c in
  if (97 <=? n) && (n <=? 122) then ascii_of_nat (n - 32) else c.

Fixpoint toUpperCase (s : string) : string :=
  match s with
  | EmptyString => EmptyString
  | String c s' => String (upperChar c) (toUpperCase s')
  end.

(** The expansion of a replacement string ([GetSubstitution]) when the
    pattern of [replace] is a string: there are no captures, so only
    [$$], [$&], [$`] and [$'] are special. *)
Fixpoint getSubstitution (matched before after repl : string) : string :=
  match repl with
  | EmptyString => EmptyString
  | String c r =>
      if Ascii.eqb c "$" then
        match r with
        | String d r' =>
            if Ascii.eqb d "$" then String "$" (getSubstitution matched before after r')
            else if Ascii.eqb d "&" then matched +:+ getSubstitution matched before after r'
            else if Ascii.eqb d "`" then before +:+ getSubstitution matched before after r'
            else if Ascii.eqb d "'" then after +:+ getSubstitution matched before after r'
            else String c (getSubstitution matched before after r)
        | EmptyString => String c EmptyString
        end
      else String c (getSubstitution matched before after r)
  end.

(** [s.replace(pat, repl)] with a string pattern: the first occurrence
    only, the replacement expanded by [getSubstitution]. *)
Definition replace (s pat repl : string) : string :=
  match indexOf s pat with
  | None => s
  | Some i =>
      let before := take i s in
      let after := drop (i + length pat) s in
      before +:+ getSubstitution pat before after repl +:+ after
  end.

(** The match of [/<head[^>]*>/] anchored at the start of [s]: the matched
    text and what follows it.  [[^>]*] is greedy and can only stop at the
    first [>]; when there is none the match fails at this position. *)
Fixpoint upToGt (s : string) : option (string * string) :=
  match s with
  | EmptyString => None
  | String c s' =>
      if Ascii.eqb c ">" then Some (EmptyString, s')
      else match upToGt s' with
           | Some (m, rest) => Some (String c m, rest)
           | None => None
           end
  end.

Definition matchHeadOpen (s : string) : option (string * string) :=
  if startsWith s "<head" then
    match upToGt (drop 5 s) with
    | Some (m, rest) => Some ("<head" +:+ m +:+ ">", rest)
    | None => None
    end
  else None.

(** [s.replace(/<head[^>]*>/, f)] with a function as replacement: the
    leftmost match is replaced by [f match]. *)
Fixpoint replaceHeadOpen (s : string) (f : string -> string) : string :=
  match matchHeadOpen s with
  | Some (m, rest) => f m +:+ rest
  | None =>
      match s with
      | EmptyString => EmptyString
      | String c s' => String c (replaceHeadOpen s' f)
      end
  end.

(** The character [c] occurs in [s]. *)
Fixpoint mentions (c : ascii) (s : string) : bool :=
  match s with
  | EmptyString => false
  | String d s' => Ascii.eqb d c || mentions c s'
  end.

(** [s.split(sep)] for a one character separator. *)
Fixpoint split (sep : ascii) (s : string) : list string :=
  match s with
  | EmptyString => [EmptyString]
  | String c s' =>
      if Ascii.eqb c sep then EmptyString :: split sep s'
      else match split sep s' with
           | w :: ws => String c w :: ws
           | [] => [String c EmptyString]
           end
  end.

(** [parts.join(sep)] *)
Fixpoint join (sep : string) (parts : list string) : string :=
  match parts with
  | [] => EmptyString
  | [w] => w
  | w :: ws => w +:+ sep +:+ join sep ws
  end.

End Str.

(** ** The document object model seen by the client engine *)

Module Dom.

(** A DOM subtree.  Every node carries an identity: it is what a
    JavaScript reference to the node denotes, and what the [WeakSet]
    [translatedNodes] stores.  [tagName] is what the DOM gives: upper
    case for an HTML element of an HTML document, as written for an
    element of an SVG or MathML fragment and in an XML document. *)
Inductive Node : Type :=
| Text (id : nat) (nodeValue : string)
| Comment (id : nat) (data : string)
| Element (id : nat) (tagName : string)
          (attributes : list (string * string)) (childNodes : list Node).

Definition nodeId (n : Node) : nat :=
  match n with
  | Text id _ | Comment id _ | Element id _ _ _ => id
  end.

(** [node.nodeType === Node.ELEMENT_NODE] *)
Definition isElement (n : Node) : bool :=
  match n with
  | Element _ _ _ _ => true
  | _ => false
  end.

(** [el.getAttribute(name)], [None] for [null]. *)
Fixpoint getAttribute (name : string) (attrs : list (string * string))
  : option string :=
  match attrs with
  | [] => None
  | (k, v) :: rest => if Str.eqb k name then Some v else getAttribute name rest
  end.

(** [el.setAttribute(name, v)] on the attribute list. *)
Fixpoint setAttribute (name v : string) (attrs : list (string * string))
  : list (string * string) :=
  match attrs with
  | [] => [(name, v)]
  | (k, w) :: rest =>
      if Str.eqb k name then (k, v) :: rest
      else (k, w) :: setAttribute name v rest
  end.

Definition hasAttribute (name : string) (attrs : list (string * string)) : bool :=
  match getAttribute name attrs with
  | Some _ => true
  | None => false
  end.

(** The element matches the selector [[translate="no"]]. *)
Definition translateNo (attrs : list (string * string)) : bool :=
  match getAttribute "translate" attrs with
  | Some v => Str.eqb v "no"
  | None => false
  end.

(** What the engine reads of [node.parentElement]: its identity, its
    [tagName], and whether [parent.closest('[translate="no"]')] finds an
    element (the parent itself or one of its ancestors). *)
Record ParentRef : Type := mkParent {
  p_id : nat;
  p_tagName : string;
  p_closestNo : bool
}.

(** A reference to a text node together with what is read through it at
    the time it is collected. *)
Record TextRef : Type := mkTextRef {
  t_id : nat;
  t_nodeValue : string;
  t_parentElement : option ParentRef
}.

(** A reference to an element. *)
Record ElemRef : Type := mkElemRef {
  e_id : nat;
  e_tagName : string;
  e_attributes : list (string * string)
}.

(** The sequence of nodes a [TreeWalker] with [NodeFilter.SHOW_TEXT]
    created on [root] yields through [nextNode]: the text nodes below
    [root], in document order.  [above] tells whether an ancestor of
    [root] matches [[translate="no"]]. *)
Fixpoint treeWalkerText (above : bool) (root : Node) : list TextRef :=
  match root with
  | Element id tag attrs children =>
      let no := above || translateNo attrs in
      let parent := mkParent id tag no in
      flat_map (fun c =>
                  match c with
                  | Text tid v => [mkTextRef tid v (Some parent)]
                  | Comment _ _ => []
                  | Element _ _ _ _ => treeWalkerText no c
                  end) children
  | _ => []
  end.

(** The elements below [root] (not [root] itself), in document order:
    the candidates of [root.querySelectorAll]. *)
Fixpoint descendantElements (root : Node) : list ElemRef :=
  match root with
  | Element _ _ _ children =>
      flat_map (fun c =>
                  match c with
                  | Element id tag attrs _ =>
                      mkElemRef id tag attrs :: descendantElements c
                  | _ => []
                  end) children
  | _ => []
  end.

(** [root.querySelectorAll('[alt], [title], [placeholder], [aria-label]')] *)
Definition matchesTranslatableAttr (el : ElemRef) : bool :=
  hasAttribute "alt" (e_attributes el)
  || hasAttribute "title" (e_attributes el)
  || hasAttribute "placeholder" (e_attributes el)
  || hasAttribute "aria-label" (e_attributes el).

Definition querySelectorAllTranslatable (root : Node) : list ElemRef :=
  List.filter matchesTranslatableAttr (descendantElements root).

(** A type selector matches by local name.  [tagName] gives the local
    name in upper case for an HTML element of an HTML document, and as it
    is written otherwise: for an element of an SVG or MathML fragment,
    and in an XML document. *)
Definition hasLocalName (upper lower tagName : string) : bool :=
  Str.eqb tagName upper || Str.eqb tagName lower.

(** [root.querySelector('meta[key="value"]')] *)
Definition matchesMeta (key value : string) (el : ElemRef) : bool :=
  hasLocalName "META" "meta" (e_tagName el)
  && match getAttribute key (e_attributes el) with
     | Some v => Str.eqb v value
     | None => false
     end.

Definition querySelectorMeta (key value : string) (root : Node) : option ElemRef :=
  List.find (matchesMeta key value) (descendantElements root).

(** The type selector [a] matches the anchors of HTML, whose [tagName]
    reads [A] in an HTML document, and those of an SVG fragment, whose
    [tagName] reads [a]. *)
Definition isAnchor (tagName : string) : bool := hasLocalName "A" "a" tagName.

(** [root.querySelectorAll('a[href]')] *)
Definition querySelectorAllLinks (root : Node) : list ElemRef :=
  List.filter (fun el => isAnchor (e_tagName el)
                         && hasAttribute "href" (e_attributes el))
              (descendantElements root).

(** [node.nodeValue = v] for the text node [target]. *)
Fixpoint setNodeValue (target : nat) (v : string) (n : Node) : Node :=
  match n with
  | Text id old => if Nat.eqb id target then Text id v else Text id old
  | Comment id d => Comment id d
  | Element id tag attrs children =>
      Element id tag attrs (map (setNodeValue target v) children)
  end.

(** [el.setAttribute(name, v)] for the element [target]. *)
Fixpoint setElementAttribute (target : nat) (name v : string) (n : Node) : Node :=
  match n with
  | Text id old => Text id old
  | Comment id d => Comment id d
  | Element id tag attrs children =>
      Element id tag
              (if Nat.eqb id target then setAttribute name v attrs else attrs)
              (map (setElementAttribute target name v) children)
  end.

(** Identities of all nodes of a subtree, in document order. *)
Fixpoint nodeIds (n : Node) : list nat :=
  match n with
  | Text id _ => [id]
  | Comment id _ => [id]
  | Element id _ _ children => id :: flat_map nodeIds children
  end.

(** Node identities are pairwise distinct. *)
Definition wellFormed (n : Node) : Prop := NoDup (nodeIds n).

End Dom.

(** ** The client translation engine *)

Module Engine.
Import Dom.

(** *** Script-scoped state: [translationCache] and [translatedNodes] *)

Record State : Type := mkState {
  translationCache : gmap string string;
  translatedNodes : gset nat
}.

Definition initialState : State := mkState ∅ ∅.

(** *** The translation collaborator *)

(** One entry of the [translations] array of the response; a field is
    [None] when it is missing or [null]. *)
Record Translation : Type := mkTranslation {
  original : option string;
  translated : option string
}.

(** What [res.json()] gives: a parse failure, or an object whose
    [translations] field is an array ([None] when it is missing). *)
Inductive Payload : Type :=
| MalformedJson
| Json (translations : option (list (option Translation))).

(** What [fetch] gives to [translateTexts]. *)
Inductive Reply : Type :=
| NetworkError
| Response (status : nat) (payload : Payload).

(** [res.ok] *)
Definition ok (status : nat) : bool := (200 <=? status) && (status <=? 299).

(** The collaborator answers a batch of texts. *)
Definition Collaborator : Type := list string -> Reply.

(** *** [translateTexts] *)

(** [t => !translationCache.has(t) || translationCache.get(t) === t] *)
Definition needsTranslation (cache : gmap string string) (t : string) : bool :=
  match cache !! t with
  | None => true
  | Some v => Str.eqb v t
  end.

Definition toTranslate (cache : gmap string string) (texts : list string)
  : list string :=
  List.filter (needsTranslation cache) texts.

(** [if (t?.original && t?.translated) translationCache.set(...)] *)
Definition storeTranslation (cache : gmap string string)
           (t : option Translation) : gmap string string :=
  match t with
  | Some (mkTranslation (Some o) (Some tr)) =>
      if Str.truthy o && Str.truthy tr then <[o := tr]> cache else cache
  | _ => cache
  end.

(** The cache after the response has been handled.  A failed request,
    a status that is not OK and a body that does not parse all end in the
    [catch] block, which leaves the cache as it is. *)
Definition mergeReply (cache : gmap string string) (r : Reply)
  : gmap string string :=
  match r with
  | NetworkError => cache
  | Response status payload =>
      if ok status then
        match payload with
        | Json (Some translations) => fold_left storeTranslation translations cache
        | Json None => cache
        | MalformedJson => cache
        end
      else cache
  end.

(** [translateTexts(texts)]: the new cache and the [texts] array of the
    body that was posted, [None] when no request was made. *)
Definition translateTexts (server : Collaborator)
           (cache : gmap string string) (texts : list string)
  : gmap string string * option (list string) :=
  let batch := toTranslate cache texts in
  match batch with
  | [] => (cache, None)
  | _ => (mergeReply cache (server batch), Some batch)
  end.

(** *** Extraction *)

Definition blockedTags : list string :=
  ["SCRIPT"; "STYLE"; "NOSCRIPT"; "IFRAME"; "CODE"; "PRE"].

(** [tags.includes(tagName)] *)
Definition tagIn (tags : list string) (tagName : string) : bool :=
  existsb (Str.eqb tagName) tags.

Definition marked (nodes : gset nat) (id : nat) : bool :=
  bool_decide (id ∈ nodes).

(** The body of the loop of [collectTextNodes]: [true] when the node is
    pushed.  [isHead] is [root === document.head]. *)
Definition keepTextNode (isHead : bool) (translatedNodes : gset nat)
           (node : TextRef) : bool :=
  if marked translatedNodes (t_id node) then false
  else
    let text := Str.trim (t_nodeValue node) in
    match t_parentElement node with
    | None => false
    | Some parent =>
        if negb (Str.truthy text) then false
        else if p_closestNo parent then false
        else if tagIn blockedTags (p_tagName parent) then false
        else if isHead then tagIn ["TITLE"] (p_tagName parent)
        else true
    end.

Definition collectTextNodes (isHead above : bool) (translatedNodes : gset nat)
           (root : Node) : list TextRef :=
  List.filter (keepTextNode isHead translatedNodes) (treeWalkerText above root).

(** An entry of the array built by [collectAttributeNodes]. *)
Record AttrRef : Type := mkAttrRef {
  element : ElemRef;
  attribute : string;
  text : string
}.

Definition translatableAttrs : list string :=
  ["alt"; "title"; "placeholder"; "aria-label"].

(** [if (val && val.trim() && !translatedNodes.has(el)) attrs.push(...)] *)
Definition attrCandidate (translatedNodes : gset nat) (el : ElemRef)
           (attr : string) : list AttrRef :=
  match getAttribute attr (e_attributes el) with
  | Some val =>
      if Str.truthy val && Str.truthy (Str.trim val)
         && negb (marked translatedNodes (e_id el))
      then [mkAttrRef el attr (Str.trim val)]
      else []
  | None => []
  end.

(** The [meta] elements of the head whose [content] is translated, in
    the order of the source. *)
Definition metaSelectors : list (string * string) :=
  [ ("name", "title"); ("name", "description"); ("name", "keywords");
    ("property", "og:title"); ("property", "og:description");
    ("name", "twitter:title"); ("name", "twitter:description") ].

Definition metaCandidate (translatedNodes : gset nat) (root : Node)
           (sel : string * string) : list AttrRef :=
  match querySelectorMeta (fst sel) (snd sel) root with
  | Some el => attrCandidate translatedNodes el "content"
  | None => []
  end.

Definition collectAttributeNodes (isHead : bool) (translatedNodes : gset nat)
           (root : Node) : list AttrRef :=
  flat_map (fun el => flat_map (attrCandidate translatedNodes el) translatableAttrs)
           (querySelectorAllTranslatable root)
  ++ (if isHead then flat_map (metaCandidate translatedNodes root) metaSelectors
      else []).

(** *** The apply phase *)

(** The array [texts] of a pass: text nodes first, then attributes. *)
Definition textsOf (textNodes : list TextRef) (attrNodes : list AttrRef)
  : list string :=
  map (fun n => Str.trim (t_nodeValue n)) textNodes ++ map text attrNodes.

(** [translated && translated !== source], with [translated] the result
    of [translationCache.get(source)] and [source] the entry [texts[i]]. *)
Definition translationFor (cache : gmap string string)
           (source : option string) : option string :=
  match source with
  | None => None
  | Some src =>
      match cache !! src with
      | Some tr => if Str.truthy tr && negb (Str.eqb tr src) then Some tr else None
      | None => None
      end
  end.

(** One step of [textNodes.forEach((node, i) => ...)]. *)
Definition applyTextNode (cache : gmap string string) (texts : list string)
           (acc : Node * gset nat) (entry : nat * TextRef) : Node * gset nat :=
  let '(i, node) := entry in
  match translationFor cache (texts !! i) with
  | Some tr => (setNodeValue (t_id node) tr (fst acc), {[t_id node]} ∪ snd acc)
  | None => acc
  end.

(** One step of [attrNodes.forEach((a, i) => ...)]; [offset] is
    [textNodes.length]. *)
Definition applyAttrNode (cache : gmap string string) (texts : list string)
           (offset : nat) (acc : Node * gset nat) (entry : nat * AttrRef)
  : Node * gset nat :=
  let '(i, a) := entry in
  match translationFor cache (texts !! (offset + i)) with
  | Some tr =>
      (setElementAttribute (e_id (element a)) (attribute a) tr (fst acc),
       {[e_id (element a)]} ∪ snd acc)
  | None => acc
  end.

(** [arr.forEach((x, i) => ...)] pairs every entry with its index. *)
Definition indexed {A : Type} (l : list A) : list (nat * A) :=
  combine (seq 0 (List.length l)) l.

Definition applyTranslations (cache : gmap string string) (texts : list string)
           (textNodes : list TextRef) (attrNodes : list AttrRef)
           (acc : Node * gset nat) : Node * gset nat :=
  fold_left (applyAttrNode cache texts (List.length textNodes))
            (indexed attrNodes)
            (fold_left (applyTextNode cache texts) (indexed textNodes) acc).

(** The outcome of a pass: the subtree and the state after it, and the
    batch that was posted, if any. *)
Record Outcome : Type := mkOutcome {
  o_root : Node;
  o_state : State;
  o_posted : option (list string)
}.

(** What every pass does once it has its candidates: build [texts],
    return when it is empty, call [translateTexts], apply. *)
Definition translateCandidates (server : Collaborator) (st : State) (root : Node)
           (textNodes : list TextRef) (attrNodes : list AttrRef) : Outcome :=
  let texts := textsOf textNodes attrNodes in
  match texts with
  | [] => mkOutcome root st None
  | _ =>
      let '(cache, posted) := translateTexts server (translationCache st) texts in
      let '(root', nodes') :=
        applyTranslations cache texts textNodes attrNodes
                          (root, translatedNodes st) in
      mkOutcome root' (mkState cache nodes') posted
  end.

(** *** A pass between its awaits *)

(** A pass that has begun: its candidates, the array [texts], and the
    batch that [translateTexts] posted, [None] when it posted nothing.
    The pass is suspended at [await] and other passes may run until its
    answer arrives, and again until its apply phase runs. *)
Record Pending : Type := mkPending {
  p_textNodes : list TextRef;
  p_attrNodes : list AttrRef;
  p_texts : list string;
  p_batch : option (list string)
}.

(** The pass up to its [fetch]: [texts] is built and filtered against
    the cache as it is then. *)
Definition beginPass (cache : gmap string string)
           (textNodes : list TextRef) (attrNodes : list AttrRef) : Pending :=
  let texts := textsOf textNodes attrNodes in
  mkPending textNodes attrNodes texts
            (match toTranslate cache texts with
             | [] => None
             | batch => Some batch
             end).

(** The answer arrives: its translations go into the cache as it is
    then. *)
Definition receiveReply (server : Collaborator) (p : Pending)
           (cache : gmap string string) : gmap string string :=
  match p_batch p with
  | Some batch => mergeReply cache (server batch)
  | None => cache
  end.

(** The apply phase: it reads the cache, and writes to the document and
    to the marker set, as they are when it runs. *)
Definition finishPass (p : Pending) (root : Node) (st : State) : Node * State :=
  let '(root', nodes') :=
    applyTranslations (translationCache st) (p_texts p)
                      (p_textNodes p) (p_attrNodes p)
                      (root, translatedNodes st) in
  (root', mkState (translationCache st) nodes').

(** [translateContent(root)] *)
Definition translateContent (server : Collaborator) (isHead above : bool)
           (st : State) (root : Node) : Outcome :=
  let textNodes := collectTextNodes isHead above (translatedNodes st) root in
  let attrNodes := collectAttributeNodes isHead (translatedNodes st) root in
  translateCandidates server st root textNodes attrNodes.

(** *** Visibility partition *)

(** The layout at the time a pass starts: [window.innerHeight] and the
    [top] of [getBoundingClientRect()] of every element. *)
Record Layout : Type := mkLayout {
  innerHeight : Q;
  rectTop : nat -> Q
}.

Definition Qltb (x y : Q) : bool :=
  (Qnum x * Zpos (Qden y) <? Qnum y * Zpos (Qden x))%Z.

Definition Qgeb (x y : Q) : bool :=
  (Qnum y * Zpos (Qden x) <=? Qnum x * Zpos (Qden y))%Z.

Definition foldLine (ly : Layout) : Q := (innerHeight ly + 200)%Q.

(** [rect.top < viewportHeight + 200] *)
Definition aboveFold (ly : Layout) (el : nat) : bool :=
  Qltb (rectTop ly el) (foldLine ly).

(** [rect.top >= viewportHeight + 200] *)
Definition belowFold (ly : Layout) (el : nat) : bool :=
  Qgeb (rectTop ly el) (foldLine ly).

Definition visibleText (ly : Layout) (node : TextRef) : bool :=
  match t_parentElement node with
  | None => false
  | Some parent => aboveFold ly (p_id parent)
  end.

Definition belowFoldText (ly : Layout) (node : TextRef) : bool :=
  match t_parentElement node with
  | None => false
  | Some parent => belowFold ly (p_id parent)
  end.

(** The candidates of [translateVisibleContent(root)] *)
Definition visibleTextNodes (ly : Layout) (above : bool) (nodes : gset nat)
           (root : Node) : list TextRef :=
  List.filter (visibleText ly) (collectTextNodes false above nodes root).

Definition visibleAttrNodes (ly : Layout) (nodes : gset nat) (root : Node)
  : list AttrRef :=
  List.filter (fun a => aboveFold ly (e_id (element a)))
              (collectAttributeNodes false nodes root).

(** The candidates of [translateBelowFoldContent(root)] *)
Definition belowFoldTextNodes (ly : Layout) (above : bool) (nodes : gset nat)
           (root : Node) : list TextRef :=
  List.filter (belowFoldText ly) (collectTextNodes false above nodes root).

Definition belowFoldAttrNodes (ly : Layout) (nodes : gset nat) (root : Node)
  : list AttrRef :=
  List.filter (fun a => belowFold ly (e_id (element a)))
              (collectAttributeNodes false nodes root).

(** [translateVisibleContent(root)]; [root] is [document.body]. *)
Definition translateVisibleContent (server : Collaborator) (ly : Layout)
           (above : bool) (st : State) (root : Node) : Outcome :=
  translateCandidates server st root
    (visibleTextNodes ly above (translatedNodes st) root)
    (visibleAttrNodes ly (translatedNodes st) root).

(** [translateBelowFoldContent(root)] *)
Definition translateBelowFoldContent (server : Collaborator) (ly : Layout)
           (above : bool) (st : State) (root : Node) : Outcome :=
  translateCandidates server st root
    (belowFoldTextNodes ly above (translatedNodes st) root)
    (belowFoldAttrNodes ly (translatedNodes st) root).

(** *** Link rewriting *)

(** The decision taken for one [href] by the callback of
    [links.forEach]: [Some newHref] when [setAttribute] is called,
    [None] when the link is left alone.  [lang] is the language the
    script was generated for. *)
Definition newHref (lang href : string) : option string :=
  let langPrefix := "/" +:+ lang in
  if negb (Str.truthy href) then None
  else if Str.startsWith href "http://" || Str.startsWith href "https://" then None
  else if Str.startsWith href "#" then None
  else if Str.startsWith href "mailto:" || Str.startsWith href "tel:" then None
  else if negb (Str.startsWith href (langPrefix +:+ "/"))
          && negb (Str.eqb href langPrefix)
  then
    if Str.eqb href "/" then Some langPrefix
    else if Str.startsWith href "/" then Some (langPrefix +:+ href)
    else if Str.startsWith href "./" then Some (langPrefix +:+ "/" +:+ Str.drop 2 href)
    else Some (langPrefix +:+ "/" +:+ href)
  else None.

(** The value of the [href] attribute after the callback has run. *)
Definition rewriteHref (lang href : string) : string :=
  match newHref lang href with
  | Some h => h
  | None => href
  end.

(** The callback applied to one link of the tree [doc]. *)
Definition rewriteLink (lang : string) (doc : Node) (link : ElemRef) : Node :=
  match getAttribute "href" (e_attributes link) with
  | Some href =>
      match newHref lang href with
      | Some h => setElementAttribute (e_id link) "href" h doc
      | None => doc
      end
  | None => doc
  end.

(** [rewriteInternalLinks()], and the same loop at the end of the body
    of [translateNewNodes]: every [a[href]] below [root]. *)
Definition rewriteInternalLinks (lang : string) (root : Node) : Node :=
  fold_left (rewriteLink lang) (querySelectorAllLinks root) root.

(** *** Incremental translation *)

(** A node of [mutation.addedNodes] where it sits in the document:
    [a_above] tells whether one of its ancestors matches
    [[translate="no"]]. *)
Record Added : Type := mkAdded {
  a_above : bool;
  a_node : Node
}.

(** [node.closest('[translate="no"]')] finds an element. *)
Definition closestNo (a : Added) : bool :=
  a_above a ||
  match a_node a with
  | Element _ _ attrs _ => translateNo attrs
  | _ => false
  end.

(** The array [newNodes] built by the callback of the observer from the
    list of mutation records, each given by its [addedNodes]. *)
Definition enqueue (nodes : gset nat) (a : Added) : list Added :=
  if isElement (a_node a) then
    if negb (marked nodes (nodeId (a_node a))) && negb (closestNo a)
    then [a] else []
  else [].

Definition newNodes (nodes : gset nat) (mutations : list (list Added))
  : list Added :=
  flat_map (fun addedNodes => flat_map (enqueue nodes) addedNodes) mutations.

(** What [translateNewNodes] leaves behind: the subtrees after the
    passes, the state, and the batches posted, in order. *)
Record Incremental : Type := mkIncremental {
  i_nodes : list Node;
  i_state : State;
  i_posted : list (list string)
}.

(** One iteration of the loop of [translateNewNodes].  When [texts] is
    empty the iteration ends at [continue], before the links are
    rewritten.  The queued subtrees are taken to be disjoint: each is
    handed to its iteration as it was observed. *)
Definition translateNewNode (server : Collaborator) (lang : string)
           (st : State) (a : Added) : Outcome :=
  let node := a_node a in
  let textNodes := collectTextNodes false (a_above a) (translatedNodes st) node in
  let attrNodes := collectAttributeNodes false (translatedNodes st) node in
  match textsOf textNodes attrNodes with
  | [] => mkOutcome node st None
  | _ =>
      let out := translateCandidates server st node textNodes attrNodes in
      mkOutcome (rewriteInternalLinks lang (o_root out)) (o_state out) (o_posted out)
  end.

Fixpoint translateNewNodes (server : Collaborator) (lang : string)
         (st : State) (nodes : list Added) : Incremental :=
  match nodes with
  | [] => mkIncremental [] st []
  | a :: rest =>
      let out := translateNewNode server lang st a in
      let r := translateNewNodes server lang (o_state out) rest in
      mkIncremental (o_root out :: i_nodes r) (i_state r)
                    (match o_posted out with
                     | Some b => b :: i_posted r
                     | None => i_posted r
                     end)
  end.

(** The callback of the [MutationObserver]: [None] when
    [translateNewNodes] is not called. *)
Definition observerCallback (server : Collaborator) (lang : string)
           (st : State) (mutations : list (list Added)) : option Incremental :=
  match newNodes (translatedNodes st) mutations with
  | [] => None
  | queue => Some (translateNewNodes server lang st queue)
  end.

End Engine.

(** ** The edge orchestrator *)

Module Edge.

(** [CONFIG.ALTIFIED_API] *)
Definition ALTIFIED_API : string := "https://api.altified.com".

(** The UTF-8 bytes of the globe that labels the first option of the
    switcher. *)
Definition globe : string :=
  String (ascii_of_nat 240) (String (ascii_of_nat 159)
    (String (ascii_of_nat 140) (String (ascii_of_nat 144) ""))).

(** *** Configuration *)

(** The object returned by the plan-status endpoint; a field is [None]
    when it is missing. *)
Record ProjectConfig : Type := mkConfig {
  default_language : option string;
  target_languages : option (list string)
}.

(** [projectConfig.default_language || 'en'] *)
Definition defaultLangOf (cfg : ProjectConfig) : string :=
  match default_language cfg with
  | Some l => if Str.truthy l then l else "en"
  | None => "en"
  end.

(** [projectConfig.target_languages || []] *)
Definition targetLangsOf (cfg : ProjectConfig) : list string :=
  match target_languages cfg with
  | Some ls => ls
  | None => []
  end.

(** *** [JSON.stringify] of an array of strings *)

Definition hexDigit (n : nat) : ascii :=
  if n <? 10 then ascii_of_nat (48 + n) else ascii_of_nat (87 + n).

Definition jsonChar (c : ascii) : string :=
  let n := nat_of_ascii c in
  if Ascii.eqb c (ascii_of_nat 34) then "\" +:+ Str.dq
  else if Ascii.eqb c "\" then "\\"
  else if n =? 8 then "\b"
  else if n =? 9 then "\t"
  else if n =? 10 then "\n"
  else if n =? 12 then "\f"
  else if n =? 13 then "\r"
  else if n <? 32 then
    "\u00" +:+ String (hexDigit (n / 16)) (String (hexDigit (n mod 16)) "")
  else String c "".

Fixpoint jsonEscape (s : string) : string :=
  match s with
  | EmptyString => EmptyString
  | String c s' => jsonChar c +:+ jsonEscape s'
  end.

Definition jsonString (s : string) : string :=
  Str.dq +:+ jsonEscape s +:+ Str.dq.

Definition jsonArray (l : list string) : string :=
  "[" +:+ Str.join "," (map jsonString l) +:+ "]".

(** *** The injected fragments *)

(** The template of [injectAutoLanguageDetection]. *)
Definition autoDetectScript (targetLangs defaultLang : string) : string :=
  "
<script id=" +:+ Str.dq +:+ "__ALTIFIED_AUTO_LANG_DETECT__" +:+ Str.dq +:+ ">
(function() {
  // Check if we've already done language detection this session
  if (sessionStorage.getItem('altified_lang_detected')) {
    return;
  }

  // Get browser language (e.g., " +:+ Str.dq +:+ "en-US" +:+ Str.dq +:+ " -> " +:+ Str.dq +:+ "en" +:+ Str.dq +:+ ", " +:+ Str.dq +:+ "fr-FR" +:+ Str.dq +:+ " -> " +:+ Str.dq +:+ "fr" +:+ Str.dq +:+ ")
  var browserLang = navigator.language || navigator.userLanguage;
  var langCode = browserLang.split('-')[0].toLowerCase();

  // Available target languages
  var targetLanguages = " +:+ targetLangs +:+ ";
  var defaultLanguage = '" +:+ defaultLang +:+ "';

  // Mark as detected to avoid loops
  sessionStorage.setItem('altified_lang_detected', 'true');

  // If browser language matches a target language (and it's not the default)
  if (targetLanguages.includes(langCode) && langCode !== defaultLanguage) {
    var currentPath = window.location.pathname;
    var newPath = '/' + langCode + currentPath;
    
    // Navigate to the language-specific path
    window.location.href = newPath + window.location.search + window.location.hash;
  }
  // Otherwise, stay on default language (do nothing)
})();
</script>
".

(** The template of [injectAutoTranslation], cut at its interpolations:
    the style that blurs the page and the client engine. *)
Definition engineText0 : string :=
  "
<style id=" +:+ Str.dq +:+ "__ALTIFIED_BLUR__" +:+ Str.dq +:+ ">
  html {
    filter: blur(8px);
    opacity: 0.6;
    transition: filter 0.3s ease-out, opacity 0.3s ease-out;
  }
  
  html.altified-translated {
    filter: none;
    opacity: 1;
  }
</style>

<script id=" +:+ Str.dq +:+ "__ALTIFIED_AUTO_TRANSLATE__" +:+ Str.dq +:+ ">
(function() {
  window.__ALTIFIED_LANG__ = '".

Definition engineText1 : string :=
  "';
  window.__ALTIFIED_API_KEY__ = '".

Definition engineText2 : string :=
  "';
  
  const translationCache = new Map();
  const translatedNodes = new WeakSet();
  let isTranslating = false;
  
  // Initialize
  if (document.readyState === 'loading') {
    document.addEventListener('DOMContentLoaded', init);
  } else {
    init();
  }
  
  function init() {
    rewriteInternalLinks();
    translateAllContent();
    startObserver();
  }
  
  function removeBlur() {
    document.documentElement.classList.add('altified-translated');
    // Remove blur style after transition completes
    setTimeout(function() {
      var blurStyle = document.getElementById('__ALTIFIED_BLUR__');
      if (blurStyle) blurStyle.remove();
    }, 300);
  }
  
  // Parallel translation: head and visible body at the same time (FASTEST)
  async function translateAllContent() {
    if (isTranslating) return;
    isTranslating = true;
    
    try {
      // Translate head and visible body content in PARALLEL
      await Promise.all([
        translateContent(document.head),
        translateVisibleContent(document.body)
      ]);
      
      // Remove blur after both are done
      removeBlur();
      
      // Translate remaining below-the-fold content in background
      await translateBelowFoldContent(document.body);
      
    } catch (error) {
      // Remove blur even on error
      removeBlur();
    }
    
    isTranslating = false;
  }
  
  // Translate only visible (above-the-fold) content
  async function translateVisibleContent(root) {
    const viewportHeight = window.innerHeight;
    const textNodes = collectTextNodes(root).filter(node => {
      const parent = node.parentElement;
      if (!parent) return false;
      
      const rect = parent.getBoundingClientRect();
      // Include elements that are visible or within 200px below viewport
      return rect.top < viewportHeight + 200;
    });
    
    const attrNodes = collectAttributeNodes(root).filter(a => {
      const rect = a.element.getBoundingClientRect();
      return rect.top < viewportHeight + 200;
    });
    
    const texts = [
      ...textNodes.map(n => n.nodeValue.trim()),
      ...attrNodes.map(a => a.text)
    ];
    
    if (texts.length === 0) return;
    
    await translateTexts(texts);
    
    // Apply translations
    textNodes.forEach((node, i) => {
      const translated = translationCache.get(texts[i]);
      if (translated && translated !== texts[i]) {
        node.nodeValue = translated;
        translatedNodes.add(node);
      }
    });
    
    attrNodes.forEach((a, i) => {
      const translated = translationCache.get(texts[textNodes.length + i]);
      if (translated && translated !== texts[textNodes.length + i]) {
        a.element.setAttribute(a.attribute, translated);
        translatedNodes.add(a.element);
      }
    });
  }
  
  // Translate content below the fold
  async function translateBelowFoldContent(root) {
    const viewportHeight = window.innerHeight;
    const textNodes = collectTextNodes(root).filter(node => {
      const parent = node.parentElement;
      if (!parent) return false;
      
      const rect = parent.getBoundingClientRect();
      // Only elements below viewport + 200px buffer
      return rect.top >= viewportHeight + 200;
    });
    
    const attrNodes = collectAttributeNodes(root).filter(a => {
      const rect = a.element.getBoundingClientRect();
      return rect.top >= viewportHeight + 200;
    });
    
    const texts = [
      ...textNodes.map(n => n.nodeValue.trim()),
      ...attrNodes.map(a => a.text)
    ];
    
    if (texts.length === 0) return;
    
    await translateTexts(texts);
    
    // Apply translations
    textNodes.forEach((node, i) => {
      const translated = translationCache.get(texts[i]);
      if (translated && translated !== texts[i]) {
        node.nodeValue = translated;
        translatedNodes.add(node);
      }
    });
    
    attrNodes.forEach((a, i) => {
      const translated = translationCache.get(texts[textNodes.length + i]);
      if (translated && translated !== texts[textNodes.length + i]) {
        a.element.setAttribute(a.attribute, translated);
        translatedNodes.add(a.element);
      }
    });
  }
  
  // Rewrite internal links to include language prefix
  function rewriteInternalLinks() {
    var links = document.querySelectorAll('a[href]');
    var langPrefix = '/".

Definition engineText3 : string :=
  "';
    
    links.forEach(function(link) {
      var href = link.getAttribute('href');
      
      // Only rewrite relative internal links
      if (!href) return;
      if (href.startsWith('http://') || href.startsWith('https://')) return;
      if (href.startsWith('#')) return;
      if (href.startsWith('mailto:') || href.startsWith('tel:')) return;
      
      // If link doesn't already have language prefix, add it
      if (!href.startsWith(langPrefix + '/') && href !== langPrefix) {
        var newHref;
        if (href === '/') {
          newHref = langPrefix;
        } else if (href.startsWith('/')) {
          newHref = langPrefix + href;
        } else {
          // Handle relative paths (e.g., " +:+ Str.dq +:+ "about" +:+ Str.dq +:+ " or " +:+ Str.dq +:+ "./about" +:+ Str.dq +:+ ")
          if (href.startsWith('./')) {
            newHref = langPrefix + '/' + href.substring(2);
          } else {
            newHref = langPrefix + '/' + href;
          }
        }
        link.setAttribute('href', newHref);
      }
    });
  }
  
  async function translateContent(root) {
    const textNodes = collectTextNodes(root);
    const attrNodes = collectAttributeNodes(root);
    const texts = [
      ...textNodes.map(n => n.nodeValue.trim()),
      ...attrNodes.map(a => a.text)
    ];
    
    if (texts.length === 0) {
      return;
    }
    
    await translateTexts(texts);
    
    // Apply translations to text nodes
    textNodes.forEach((node, i) => {
      const translated = translationCache.get(texts[i]);
      if (translated && translated !== texts[i]) {
        node.nodeValue = translated;
        translatedNodes.add(node);
      }
    });
    
    // Apply translations to attributes
    attrNodes.forEach((a, i) => {
      const translated = translationCache.get(texts[textNodes.length + i]);
      if (translated && translated !== texts[textNodes.length + i]) {
        a.element.setAttribute(a.attribute, translated);
        translatedNodes.add(a.element);
      }
    });
  }
  
  function collectTextNodes(root) {
    const nodes = [];
    const walker = document.createTreeWalker(root, NodeFilter.SHOW_TEXT, null);
    let node;
    
    while ((node = walker.nextNode())) {
      if (translatedNodes.has(node)) continue;
      
      const text = node.nodeValue.trim();
      const parent = node.parentElement;
      
      if (!text || !parent) continue;
      if (parent.closest('[translate=" +:+ Str.dq +:+ "no" +:+ Str.dq +:+ "]')) continue;
      
      const tagName = parent.tagName;
      if (['SCRIPT', 'STYLE', 'NOSCRIPT', 'IFRAME', 'CODE', 'PRE'].includes(tagName)) {
        continue;
      }
      
      // For <head>, also translate <title>
      if (root === document.head) {
        if (['TITLE'].includes(tagName)) {
          nodes.push(node);
        }
      } else {
        nodes.push(node);
      }
    }
    
    return nodes;
  }
  
  function collectAttributeNodes(root) {
    const attrs = [];
    
    // Standard attributes to translate
    const elements = root.querySelectorAll('[alt], [title], [placeholder], [aria-label]');
    
    elements.forEach(el => {
      ['alt', 'title', 'placeholder', 'aria-label'].forEach(attr => {
        const val = el.getAttribute(attr);
        if (val && val.trim() && !translatedNodes.has(el)) {
          attrs.push({ element: el, attribute: attr, text: val.trim() });
        }
      });
    });
    
    // FIXED: For <head>, translate ALL relevant meta tags (except site_name and author)
    if (root === document.head) {
      // Meta title
      const metaTitle = root.querySelector('meta[name=" +:+ Str.dq +:+ "title" +:+ Str.dq +:+ "]');
      if (metaTitle) {
        const content = metaTitle.getAttribute('content');
        if (content && content.trim() && !translatedNodes.has(metaTitle)) {
          attrs.push({ element: metaTitle, attribute: 'content', text: content.trim() });
        }
      }
      
      // Meta description
      const metaDesc = root.querySelector('meta[name=" +:+ Str.dq +:+ "description" +:+ Str.dq +:+ "]');
      if (metaDesc) {
        const content = metaDesc.getAttribute('content');
        if (content && content.trim() && !translatedNodes.has(metaDesc)) {
          attrs.push({ element: metaDesc, attribute: 'content', text: content.trim() });
        }
      }
      
      // Meta keywords
      const metaKeywords = root.querySelector('meta[name=" +:+ Str.dq +:+ "keywords" +:+ Str.dq +:+ "]');
      if (metaKeywords) {
        const content = metaKeywords.getAttribute('content');
        if (content && content.trim() && !translatedNodes.has(metaKeywords)) {
          attrs.push({ element: metaKeywords, attribute: 'content', text: content.trim() });
        }
      }
      
      // Open Graph title
      const ogTitle = root.querySelector('meta[property=" +:+ Str.dq +:+ "og:title" +:+ Str.dq +:+ "]');
      if (ogTitle) {
        const content = ogTitle.getAttribute('content');
        if (content && content.trim() && !translatedNodes.has(ogTitle)) {
          attrs.push({ element: ogTitle, attribute: 'content', text: content.trim() });
        }
      }
      
      // Open Graph description
      const ogDesc = root.querySelector('meta[property=" +:+ Str.dq +:+ "og:description" +:+ Str.dq +:+ "]');
      if (ogDesc) {
        const content = ogDesc.getAttribute('content');
        if (content && content.trim() && !translatedNodes.has(ogDesc)) {
          attrs.push({ element: ogDesc, attribute: 'content', text: content.trim() });
        }
      }
      
      // ADDED: Twitter Card title
      const twitterTitle = root.querySelector('meta[name=" +:+ Str.dq +:+ "twitter:title" +:+ Str.dq +:+ "]');
      if (twitterTitle) {
        const content = twitterTitle.getAttribute('content');
        if (content && content.trim() && !translatedNodes.has(twitterTitle)) {
          attrs.push({ element: twitterTitle, attribute: 'content', text: content.trim() });
        }
      }
      
      // ADDED: Twitter Card description
      const twitterDesc = root.querySelector('meta[name=" +:+ Str.dq +:+ "twitter:description" +:+ Str.dq +:+ "]');
      if (twitterDesc) {
        const content = twitterDesc.getAttribute('content');
        if (content && content.trim() && !translatedNodes.has(twitterDesc)) {
          attrs.push({ element: twitterDesc, attribute: 'content', text: content.trim() });
        }
      }
      
      // EXCLUDED: og:site_name and author are NOT translated (as requested)
      // These meta tags will remain in the original language
    }
    
    return attrs;
  }
  
  async function translateTexts(texts) {
    const toTranslate = texts.filter(t => !translationCache.has(t) || translationCache.get(t) === t);
    
    if (toTranslate.length === 0) return;
    
    try {
      const res = await fetch('".

Definition engineText4 : string :=
  "/translate/', {
        method: 'POST',
        headers: { 'Content-Type': 'application/json' },
        body: JSON.stringify({
          project_api_key: '".

Definition engineText5 : string :=
  "',
          language: '".

Definition engineText6 : string :=
  "',
          texts: toTranslate
        })
      });
      
      if (!res.ok) throw new Error('HTTP ' + res.status);
      
      const data = await res.json();
      
      if (data?.translations) {
        data.translations.forEach(t => {
          if (t?.original && t?.translated) {
            translationCache.set(t.original, t.translated);
          }
        });
      }
      
      return data;
    } catch (err) {
      return null;
    }
  }
  
  function startObserver() {
    const observer = new MutationObserver((mutations) => {
      const newNodes = [];
      
      // Collect only newly added nodes
      mutations.forEach(mutation => {
        mutation.addedNodes.forEach(node => {
          // Only process element nodes (not text nodes or comments)
          if (node.nodeType === Node.ELEMENT_NODE) {
            // Skip if this node or its parent was already translated
            if (!translatedNodes.has(node) && !node.closest('[translate=" +:+ Str.dq +:+ "no" +:+ Str.dq +:+ "]')) {
              newNodes.push(node);
            }
          }
        });
      });
      
      // If we have new nodes, translate only those
      if (newNodes.length > 0) {
        translateNewNodes(newNodes);
      }
    });
    
    observer.observe(document.body, {
      childList: true,
      subtree: true
    });
  }
  
  // Translate only newly added nodes
  async function translateNewNodes(nodes) {
    for (const node of nodes) {
      // Collect text nodes and attributes from this new node only
      const textNodes = collectTextNodes(node);
      const attrNodes = collectAttributeNodes(node);
      
      const texts = [
        ...textNodes.map(n => n.nodeValue.trim()),
        ...attrNodes.map(a => a.text)
      ];
      
      if (texts.length === 0) continue;
      
      await translateTexts(texts);
      
      // Apply translations to text nodes
      textNodes.forEach((textNode, i) => {
        const translated = translationCache.get(texts[i]);
        if (translated && translated !== texts[i]) {
          textNode.nodeValue = translated;
          translatedNodes.add(textNode);
        }
      });
      
      // Apply translations to attributes
      attrNodes.forEach((a, i) => {
        const translated = translationCache.get(texts[textNodes.length + i]);
        if (translated && translated !== texts[textNodes.length + i]) {
          a.element.setAttribute(a.attribute, translated);
          translatedNodes.add(a.element);
        }
      });
      
      // Rewrite links in the new node
      const links = node.querySelectorAll ? node.querySelectorAll('a[href]') : [];
      links.forEach(function(link) {
        var href = link.getAttribute('href');
        var langPrefix = '/".

Definition engineText7 : string :=
  "';
        
        if (!href) return;
        if (href.startsWith('http://') || href.startsWith('https://')) return;
        if (href.startsWith('#')) return;
        if (href.startsWith('mailto:') || href.startsWith('tel:')) return;
        
        if (!href.startsWith(langPrefix + '/') && href !== langPrefix) {
          var newHref;
          if (href === '/') {
            newHref = langPrefix;
          } else if (href.startsWith('/')) {
            newHref = langPrefix + href;
          } else {
            if (href.startsWith('./')) {
              newHref = langPrefix + '/' + href.substring(2);
            } else {
              newHref = langPrefix + '/' + href;
            }
          }
          link.setAttribute('href', newHref);
        }
      });
    }
  }
  
})();
</script>
".

Definition autoTranslateScript (lang apiKey : string) : string :=
  engineText0 +:+ lang +:+ engineText1 +:+ apiKey +:+ engineText2 +:+ lang +:+ engineText3 +:+ ALTIFIED_API +:+ engineText4 +:+ apiKey +:+ engineText5 +:+ lang +:+ engineText6 +:+ lang +:+ engineText7.

(** The template of [injectLanguageContext]. *)
Definition contextScript (lang : string) : string :=
  "
<script id=" +:+ Str.dq +:+ "__ALTIFIED_CONTEXT__" +:+ Str.dq +:+ ">
  window.__ALTIFIED_LANG__ = '" +:+ lang +:+ "';
  document.documentElement.lang = '" +:+ lang +:+ "';
</script>
".

(** One [link] of [addHreflangLinks] for a target language, as appended
    to [tags] by the loop. *)
Definition targetLink (origin pathname lang : string) : string :=
  "
<link rel=" +:+ Str.dq +:+ "alternate" +:+ Str.dq +:+ " hreflang=" +:+ Str.dq +:+ lang +:+ Str.dq +:+ " href=" +:+ Str.dq +:+ origin +:+ "/" +:+ lang +:+ pathname +:+ Str.dq +:+ " />".

(** The variable [tags] of [addHreflangLinks] after the loop and the
    last append. *)
Definition hreflangTags (origin pathname defaultLang : string)
           (targetLangs : list string) : string :=
  fold_left (fun tags lang => tags +:+ targetLink origin pathname lang)
            targetLangs
            ("
<link rel=" +:+ Str.dq +:+ "alternate" +:+ Str.dq +:+ " hreflang=" +:+ Str.dq +:+ defaultLang +:+ Str.dq +:+ " href=" +:+ Str.dq +:+ origin +:+ pathname +:+ Str.dq +:+ " />
")
  +:+ "
<link rel=" +:+ Str.dq +:+ "alternate" +:+ Str.dq +:+ " hreflang=" +:+ Str.dq +:+ "x-default" +:+ Str.dq +:+ " href=" +:+ Str.dq +:+ origin +:+ pathname +:+ Str.dq +:+ " />
".

(** [languageNames] is a plain object, the literal that
    [getLanguageNames] fills or what [json()] parsed: the map holds its
    own properties, and a key that is not among them reads what the
    object inherits from [Object.prototype].  These are the names of the
    inherited properties, each with the text that the template prints
    for its value as V8, the engine of the worker, writes it: a native
    function, and for [__proto__] the prototype itself. *)
Definition nativeFunction (name : string) : string :=
  "function " +:+ name +:+ "() { [native code] }".

Definition objectPrototype : list (string * string) :=
  [ ("constructor", nativeFunction "Object");
    ("__defineGetter__", nativeFunction "__defineGetter__");
    ("__defineSetter__", nativeFunction "__defineSetter__");
    ("hasOwnProperty", nativeFunction "hasOwnProperty");
    ("__lookupGetter__", nativeFunction "__lookupGetter__");
    ("__lookupSetter__", nativeFunction "__lookupSetter__");
    ("isPrototypeOf", nativeFunction "isPrototypeOf");
    ("propertyIsEnumerable", nativeFunction "propertyIsEnumerable");
    ("toString", nativeFunction "toString");
    ("valueOf", nativeFunction "valueOf");
    ("__proto__", "[object Object]");
    ("toLocaleString", nativeFunction "toLocaleString") ].

(** The text printed for the inherited property [code], if there is one:
    all these values are truthy. *)
Definition inherited (code : string) : option string :=
  Dom.getAttribute code objectPrototype.

(** [languageNames[code] || code.toUpperCase()] *)
Definition getLanguageName (languageNames : gmap string string)
           (code : string) : string :=
  match languageNames !! code with
  | Some name => if Str.truthy name then name else Str.toUpperCase code
  | None =>
      match inherited code with
      | Some text => text
      | None => Str.toUpperCase code
      end
  end.

Definition optionTag (languageNames : gmap string string) (code : string)
  : string :=
  "<option value=" +:+ Str.dq +:+ code +:+ Str.dq +:+ ">" +:+ getLanguageName languageNames code +:+ "</option>".

(** The string [languageOptions] of [injectLanguageSwitcher]. *)
Definition languageOptionsOf (languageNames : gmap string string)
           (defaultLang : string) (targetLangs : list string) : string :=
  Str.join "" (optionTag languageNames defaultLang
               :: map (optionTag languageNames) targetLangs).

(** The template of [injectLanguageSwitcher], in three parts: the
    style and the opening of the container, the [select] element, and the
    closing of the container with the script. *)
Definition switcherOpen : string :=
"
<style>
.altified-lang-switcher { 
  position: fixed; 
  bottom: 20px; 
  right: 20px; 
  z-index: 999999; 
  background: #fff; 
  border: 1px solid #e5e7eb; 
  border-radius: 8px; 
  padding: 8px 12px; 
  font-family: system-ui, sans-serif; 
  box-shadow: 0 6px 16px rgba(0,0,0,.12);
}
.altified-lang-switcher select { 
  border: none; 
  outline: none; 
  background: transparent; 
  font-size: 14px; 
  cursor: pointer;
  padding: 4px;
}
</style>

<div class=" +:+ Str.dq +:+ "altified-lang-switcher" +:+ Str.dq +:+ ">
  ".

Definition switcherSelect (languageOptions : string) : string :=
"<select id=" +:+ Str.dq +:+ "altified-lang-select" +:+ Str.dq +:+ ">
    <option value=" +:+ Str.dq +:+ Str.dq +:+ ">" +:+ globe +:+ " Language</option>
    " +:+ languageOptions +:+ "
  </select>".

Definition switcherClose (defaultLang : string) : string :=
"
</div>

<script>
(function () {
  var select = document.getElementById('altified-lang-select');
  if (!select) return;

  var defaultLang = '" +:+ defaultLang +:+ "';
  var match = window.location.pathname.match(/^\/([a-z]{2})(\/|$)/);
  var currentLang = match ? match[1] : defaultLang;
  select.value = currentLang;

  select.addEventListener('change', function () {
    var newLang = this.value;
    if (!newLang || newLang === currentLang) return;

    var currentPath = window.location.pathname;
    var cleanPath = currentPath.replace(/^\/[a-z]{2}(\/|$)/, '/');
    if (!cleanPath.startsWith('/')) cleanPath = '/' + cleanPath;
    
    var newPath = newLang === defaultLang ? cleanPath : '/' + newLang + cleanPath;
    
    window.location.href = newPath + window.location.search + window.location.hash;
  });
})();
</script>
".

Definition switcherMarkup (languageOptions defaultLang : string) : string :=
switcherOpen +:+ switcherSelect languageOptions +:+ switcherClose defaultLang.

(** *** The injectors *)

Definition injectAutoLanguageDetection (html : string) (cfg : ProjectConfig)
  : string :=
  if Str.includes html "__ALTIFIED_AUTO_LANG_DETECT__" then html
  else
    let script := autoDetectScript (jsonArray (targetLangsOf cfg))
                                   (defaultLangOf cfg) in
    Str.replaceHeadOpen html (fun m => m +:+ script).

Definition injectAutoTranslation (html lang apiKey : string) : string :=
  if Str.includes html "__ALTIFIED_AUTO_TRANSLATE__" then html
  else
    Str.replace html "</head>" (autoTranslateScript lang apiKey +:+ "
</head>").

Definition injectLanguageContext (html lang : string) : string :=
  if Str.includes html "__ALTIFIED_CONTEXT__" then html
  else Str.replaceHeadOpen html (fun m => m +:+ contextScript lang).

Definition addHreflangLinks (html pathname : string) (cfg : ProjectConfig)
           (domain : string) : string :=
  if Str.includes html "hreflang=" then html
  else
    let origin := domain in
    let tags := hreflangTags origin pathname (defaultLangOf cfg)
                             (targetLangsOf cfg) in
    Str.replace html "</head>" (tags +:+ "
</head>").

Definition injectLanguageSwitcher (html : string) (cfg : ProjectConfig)
           (languageNames : gmap string string) : string :=
  if Str.includes html "altified-lang-switcher" then html
  else
    let defaultLang := defaultLangOf cfg in
    let languageOptions :=
      languageOptionsOf languageNames defaultLang (targetLangsOf cfg) in
    Str.replace html "</body>" (switcherMarkup languageOptions defaultLang +:+ "
</body>").

(** *** Requests and responses *)

(** A request URL: [url.origin], [url.pathname] and [url.search]. *)
Record Url : Type := mkUrl {
  u_origin : string;
  u_pathname : string;
  u_search : string
}.

(** A response.  Header names are lower case, as the [Headers] class
    normalises them.  [content] is the text of the body: a body is
    identified with the text that [response.text()] decodes from it and
    that [new Response(text)] encodes again. *)
Record Response : Type := mkResponse {
  status : nat;
  statusText : string;
  headers : list (string * string);
  content : string
}.

(** [response.ok] *)
Definition ok (r : Response) : bool :=
  (200 <=? status r) && (status r <=? 299).

(** The null body statuses of the Fetch standard. *)
Definition nullBodyStatus (status : nat) : bool :=
  existsb (Nat.eqb status) [101; 103; 204; 205; 304].

(** [response.body], [None] for [null]: a response with a null body
    status has no body. *)
Definition bodyOf (r : Response) : option string :=
  if nullBodyStatus (status r) then None else Some (content r).

(** [await response.text()]: the empty text when there is no body. *)
Definition body (r : Response) : string :=
  match bodyOf r with
  | Some text => text
  | None => ""
  end.

(** [new Response(body, { status, statusText, headers })], [None] when
    the constructor throws: a [RangeError] for a status outside 200 to
    599, a [TypeError] for a body that is not [null] together with a null
    body status.  A text, even the empty one, is a body that is not
    [null]. *)
Definition newResponse (b : option string) (status : nat) (statusText : string)
           (headers : list (string * string)) : option Response :=
  if (200 <=? status) && (status <=? 599) then
    match b with
    | Some text =>
        if nullBodyStatus status then None
        else Some (mkResponse status statusText headers text)
    | None => Some (mkResponse status statusText headers "")
    end
  else None.

(** [headers.get(name)] *)
Definition getHeader (name : string) (hs : list (string * string))
  : option string := Dom.getAttribute name hs.

(** [headers.set(name, value)] *)
Definition setHeader (name value : string) (hs : list (string * string))
  : list (string * string) := Dom.setAttribute name value hs.

(** [response.headers.get('Content-Type') || ''] *)
Definition contentTypeOf (r : Response) : string :=
  match getHeader "content-type" (headers r) with
  | Some v => v
  | None => ""
  end.

(** The result of awaiting a [fetch], and of awaiting the handler: the
    promise is rejected, or it resolves with a response. *)
Inductive Fetched : Type :=
| Rejected
| Resolved (r : Response).

(** What [cache.match] gives when it does not resolve to [undefined]:
    the promise is rejected, or it resolves with the response found. *)
Inductive Lookup : Type :=
| LookupRejected
| Found (cached : Response).

(** What surrounds one invocation of the worker: its bindings, and the
    answers of its collaborators.  [projectConfig] and [languageNames]
    are what [getProjectConfig] and [getLanguageNames] resolve to;
    [pageCache] is [caches.default.match] on the key made of the URL and
    the language, [None] when it resolves to [undefined]; [origin]
    answers a [fetch] of a URL.  [DOMAIN] is the text the template prints
    for [env.DOMAIN]. *)
Record Env : Type := mkEnv {
  ALTIFIED_API_KEY : option string;
  DOMAIN : string;
  projectConfig : option ProjectConfig;
  languageNames : gmap string string;
  pageCache : Url -> string -> option Lookup;
  origin : Url -> Fetched
}.

(** What an invocation does: the response it returns, the URLs it
    fetched from the origin in order, and the entry it gave to
    [cache.put] through [ctx.waitUntil]. *)
Record Served : Type := mkServed {
  response : Fetched;
  fetched : list Url;
  stored : option (Url * string * Response)
}.

(** [return fetch(request)] *)
Definition passthrough (env : Env) (request : Url) (before : list Url) : Served :=
  mkServed (origin env request) (before ++ [request]) None.

(** [handleTranslatedRequest].  The page cache is read in front of the
    [try] block: when [cache.match] rejects, or the copy of the entry
    cannot be constructed, the promise of the handler is rejected.  Inside
    the block, a rejected [fetch] and a constructor that throws end in
    the [catch] block, which fetches the request as it came. *)
Definition handleTranslatedRequest (env : Env) (request : Url)
           (lang originalPath : string) (cfg : ProjectConfig) : Served :=
  match pageCache env request lang with
  | Some LookupRejected => mkServed Rejected [] None
  | Some (Found cached) =>
      match newResponse (bodyOf cached) (status cached) (statusText cached)
                        (headers cached) with
      | Some copy => mkServed (Resolved copy) [] None
      | None => mkServed Rejected [] None
      end
  | None =>
      let originUrl :=
        mkUrl (u_origin request)
              (if Str.truthy originalPath then originalPath else "/")
              (u_search request) in
      match origin env originUrl with
      | Rejected => passthrough env request [originUrl]
      | Resolved response =>
          if negb (ok response) then mkServed (Resolved response) [originUrl] None
          else if negb (Str.includes (contentTypeOf response) "html")
          then mkServed (Resolved response) [originUrl] None
          else
            let apiKey := match ALTIFIED_API_KEY env with
                          | Some k => k
                          | None => "undefined"
                          end in
            let html := body response in
            let html := injectAutoTranslation html lang apiKey in
            let html := injectLanguageContext html lang in
            let html := addHreflangLinks html (u_pathname originUrl) cfg (DOMAIN env) in
            let html := injectLanguageSwitcher html cfg (languageNames env) in
            match newResponse (Some html) (status response) (statusText response)
                              (headers response) with
            | None => passthrough env request [originUrl]
            | Some created =>
                let finalResponse :=
                  mkResponse (status created) (statusText created)
                             (setHeader "cache-control" "public, max-age=3600"
                                (setHeader "content-language" lang (headers created)))
                             (content created) in
                mkServed (Resolved finalResponse) [originUrl]
                         (Some (request, lang, finalResponse))
            end
      end
  end.

(** [handleDefaultLanguagePage]; its [catch] block fetches the request a
    second time. *)
Definition handleDefaultLanguagePage (env : Env) (request : Url)
           (cfg : ProjectConfig) : Served :=
  match origin env request with
  | Rejected => passthrough env request [request]
  | Resolved response =>
      if negb (Str.includes (contentTypeOf response) "html")
      then mkServed (Resolved response) [request] None
      else
        let html := body response in
        let html := injectAutoLanguageDetection html cfg in
        let html := injectLanguageSwitcher html cfg (languageNames env) in
        match newResponse (Some html) (status response) (statusText response)
                          (headers response) with
        | None => passthrough env request [request]
        | Some created => mkServed (Resolved created) [request] None
        end
  end.

(** [url.pathname.split('/').filter(Boolean)] *)
Definition pathParts (pathname : string) : list string :=
  List.filter Str.truthy (Str.split "/" pathname).

(** [enabledLanguages.includes(firstSegment)] *)
Definition enabled (targets : list string) (firstSegment : option string) : bool :=
  match firstSegment with
  | Some seg => existsb (Str.eqb seg) targets
  | None => false
  end.

(** The [fetch] handler of the worker. *)
Definition fetch (env : Env) (request : Url) : Served :=
  match ALTIFIED_API_KEY env with
  | None => passthrough env request []
  | Some apiKey =>
      if negb (Str.truthy apiKey) then passthrough env request []
      else
        match projectConfig env with
        | None => passthrough env request []
        | Some cfg =>
            match target_languages cfg with
            | None => passthrough env request []
            | Some enabledLanguages =>
                let parts := pathParts (u_pathname request) in
                let firstSegment := List.head parts in
                if enabled enabledLanguages firstSegment then
                  let lang := match firstSegment with
                              | Some seg => seg
                              | None => ""
                              end in
                  let originalPath := "/" +:+ Str.join "/" (List.tail parts) in
                  handleTranslatedRequest env request lang originalPath cfg
                else handleDefaultLanguagePage env request cfg
            end
        end
  end.

End Edge.

(** ** Sample documents, states and collaborators *)

Module Samples.
Import Dom Engine.

(** [<body><p>Hello</p><p>Hello</p></body>] *)
Definition helloTwice : Node :=
  Element 1 "BODY" []
    [ Element 2 "P" [] [Text 3 "Hello"];
      Element 4 "P" [] [Text 5 "Hello"] ].

(** [<body><p>Hello</p><p>World</p></body>] *)
Definition helloWorld : Node :=
  Element 1 "BODY" []
    [ Element 2 "P" [] [Text 3 "Hello"];
      Element 4 "P" [] [Text 5 "World"] ].

(** [<body><img alt="Hello" title="World"></body>] *)
Definition imageTwoAttributes : Node :=
  Element 1 "BODY" []
    [ Element 2 "IMG" [("alt", "Hello"); ("title", "World")] [] ].

(** The no-break space, U+00A0, as UTF-8 writes it. *)
Definition nbsp : string :=
  String (ascii_of_nat 194) (String (ascii_of_nat 160) "").

(** [<body><p>&nbsp;Hello&nbsp;</p><p>&nbsp;</p>
    <img alt="&nbsp;" title=" World&nbsp;"></body>] *)
Definition paddedGreeting : Node :=
  Element 50 "BODY" []
    [ Element 51 "P" [] [Text 52 (nbsp +:+ "Hello" +:+ nbsp)];
      Element 53 "P" [] [Text 54 nbsp];
      Element 55 "IMG" [("alt", nbsp); ("title", " World" +:+ nbsp)] [] ].

(** [<body><p>&nbsp;Hello</p><p>World</p><img alt="Hello">
    <input placeholder="World"></body>] *)
Definition greetingCard : Node :=
  Element 60 "BODY" []
    [ Element 61 "P" [] [Text 62 (nbsp +:+ "Hello")];
      Element 63 "P" [] [Text 64 "World"];
      Element 65 "IMG" [("alt", "Hello")] [];
      Element 66 "INPUT" [("placeholder", "World")] [] ].

(** The two entries [collectAttributeNodes] makes for the image. *)
Definition imageAlt : AttrRef :=
  mkAttrRef (mkElemRef 2 "IMG" [("alt", "Hello"); ("title", "World")]) "alt" "Hello".

Definition imageTitle : AttrRef :=
  mkAttrRef (mkElemRef 2 "IMG" [("alt", "Hello"); ("title", "World")]) "title" "World".

(** A selection that keeps every candidate. *)
Definition everyText : TextRef -> bool := fun _ => true.
Definition everyAttr : AttrRef -> bool := fun _ => true.

(** A collaborator that cannot be reached. *)
Definition unreachable : Collaborator := fun _ => NetworkError.

(** A collaborator that only knows how to translate "Hello". *)
Definition onlyHello : Collaborator :=
  fun _ => Response 200
             (Json (Some [Some (mkTranslation (Some "Hello") (Some "Bonjour"))])).

(** A cache in which "Hello" is mapped to itself. *)
Definition cacheHelloNoop : gmap string string := {[ "Hello" := "Hello" ]}.

(** A cache in which "Hello" is translated. *)
Definition cacheHelloBonjour : gmap string string := {[ "Hello" := "Bonjour" ]}.

(** A layout with a viewport of 600 pixels in which element 2 is at the
    top of the page and every other element far below. *)
Definition layout600 : Layout :=
  mkLayout 600 (fun el => if Nat.eqb el 2 then 0 else 2000)%Q.

(** [<div><a href="/fr?page=2">2</a></div>], as a script of the home
    page of the French site may insert it. *)
Definition pagerLink : Node :=
  Element 10 "DIV" []
    [ Element 11 "A" [("href", "/fr?page=2")] [Text 12 "2"] ].

(** A batch of mutation records: a text node and an element were added. *)
Definition addedParagraph : Added :=
  mkAdded false (Element 8 "P" [] [Text 9 "Hello"]).

Definition textAndElementAdded : list (list Added) :=
  [ [ mkAdded false (Text 7 "World") ]; [ addedParagraph ] ].


(** The configuration of the scenario: English by default, French and
    German as targets. *)
Definition siteConfig : Edge.ProjectConfig :=
  Edge.mkConfig (Some "en") (Some ["fr"; "de"]).

(** An error page of the origin, served as HTML with status 404. *)
Definition notFoundPage : Edge.Response :=
  Edge.mkResponse 404 "Not Found" [("content-type", "text/html; charset=utf-8")]
    "<html><head><title>Not found</title></head><body><h1>Not found</h1></body></html>".

(** A worker whose origin answers every request with the error page. *)
Definition missingEverywhere : Edge.Env :=
  Edge.mkEnv (Some "key123") "https://example.com" (Some siteConfig) ∅
             (fun _ _ => None) (fun _ => Edge.Resolved notFoundPage).

Definition missingUrl : Edge.Url := Edge.mkUrl "https://example.com" "/missing" "".

Definition missingFrenchUrl : Edge.Url :=
  Edge.mkUrl "https://example.com" "/fr/missing" "".

(** The page of the scenario, and the same page without a head. *)
Definition aboutPage : Edge.Response :=
  Edge.mkResponse 200 "OK" [("content-type", "text/html; charset=utf-8")]
    "<html><head><title>About</title></head><body><p>About us</p></body></html>".

Definition headlessPage : Edge.Response :=
  Edge.mkResponse 200 "OK" [("content-type", "text/html; charset=utf-8")]
    "<html><body><p>About us</p></body></html>".

Definition englishNames : gmap string string :=
  {[ "en" := "English"; "fr" := "French"; "de" := "German" ]}.

(** The worker of the scenario in front of an origin that serves the
    about page, and in front of one that serves it without a head. *)
Definition aboutSite : Edge.Env :=
  Edge.mkEnv (Some "key123") "https://example.com" (Some siteConfig) englishNames
             (fun _ _ => None) (fun _ => Edge.Resolved aboutPage).

Definition headlessSite : Edge.Env :=
  Edge.mkEnv (Some "key123") "https://example.com" (Some siteConfig) englishNames
             (fun _ _ => None) (fun _ => Edge.Resolved headlessPage).

Definition frenchAboutUrl : Edge.Url :=
  Edge.mkUrl "https://example.com" "/fr/about" "".

Definition aboutUrl : Edge.Url := Edge.mkUrl "https://example.com" "/about" "".

End Samples.

(** ** What is observed of a run *)

Module Observed.

(** Number of entries of a list that satisfy a test. *)
Definition countIf {A : Type} (f : A -> bool) (l : list A) : nat :=
  List.length (List.filter f l).

(** The [texts] array of the request body, empty when nothing is sent. *)
Definition postedTexts (posted : option (list string)) : list string :=
  match posted with
  | Some batch => batch
  | None => []
  end.

(** How often a string is listed in a batch. *)
Definition occurrences (t : string) (batch : list string) : nat :=
  countIf (Str.eqb t) batch.

(** Every value of the cache is a non-empty string: what
    [translateTexts] maintains, since it stores truthy values only. *)
Definition cacheSound (cache : gmap string string) : Prop :=
  forall k v, cache !! k = Some v -> Str.truthy v = true.

(** The cache maps [src] to a value different from [src]. *)
Definition translatedTo (cache : gmap string string) (src tr : string) : Prop :=
  cache !! src = Some tr /\ tr <> src.

(** [src] is absent from the cache or mapped to itself. *)
Definition untranslated (cache : gmap string string) (src : string) : Prop :=
  cache !! src = None \/ cache !! src = Some src.

(** The subtree [root] holds an element [id] whose attribute [name] reads
    [value]. *)
Definition attributeIs (root : Dom.Node) (id : nat) (name : string)
           (value : option string) : Prop :=
  exists el, In el (Dom.descendantElements root)
             /\ Dom.e_id el = id
             /\ Dom.getAttribute name (Dom.e_attributes el) = value.

(** A reference to a text node after [node.nodeValue = v] was executed
    for the node [target]. *)
Definition retext (target : nat) (v : string) (r : Dom.TextRef) : Dom.TextRef :=
  if Nat.eqb (Dom.t_id r) target
  then Dom.mkTextRef (Dom.t_id r) v (Dom.t_parentElement r)
  else r.

(** A reference to an element after [el.setAttribute(name, v)] was
    executed for the element [target]. *)
Definition reattr (target : nat) (name v : string) (e : Dom.ElemRef) : Dom.ElemRef :=
  if Nat.eqb (Dom.e_id e) target
  then Dom.mkElemRef (Dom.e_id e) (Dom.e_tagName e)
                     (Dom.setAttribute name v (Dom.e_attributes e))
  else e.

(** The assignments made by the two loops of the apply phase, in order:
    the node and its new value, the element, the attribute and its new
    value. *)
Definition textWrites (cache : gmap string string) (textNodes : list Dom.TextRef)
  : list (nat * string) :=
  flat_map (fun n =>
              match Engine.translationFor cache (Some (Str.trim (Dom.t_nodeValue n))) with
              | Some tr => [(Dom.t_id n, tr)]
              | None => []
              end) textNodes.

Definition attrWrites (cache : gmap string string) (attrNodes : list Engine.AttrRef)
  : list (nat * string * string) :=
  flat_map (fun a =>
              match Engine.translationFor cache (Some (Engine.text a)) with
              | Some tr => [(Dom.e_id (Engine.element a), Engine.attribute a, tr)]
              | None => []
              end) attrNodes.

Definition writeText (acc : Dom.Node * gset nat) (w : nat * string)
  : Dom.Node * gset nat :=
  (Dom.setNodeValue (fst w) (snd w) (fst acc), {[fst w]} ∪ snd acc).

Definition writeAttr (acc : Dom.Node * gset nat) (w : nat * string * string)
  : Dom.Node * gset nat :=
  (Dom.setElementAttribute (fst (fst w)) (snd (fst w)) (snd w) (fst acc),
   {[fst (fst w)]} ∪ snd acc).

(** A reference to an element after a sequence of attribute
    assignments. *)
Definition rewritten (ws : list (nat * string * string)) (e : Dom.ElemRef)
  : Dom.ElemRef :=
  fold_left (fun e w => reattr (fst (fst w)) (snd (fst w)) (snd w) e) ws e.

(** The first and the last character of a text. *)
Definition firstChar (s : string) : option ascii :=
  match s with
  | EmptyString => None
  | String c _ => Some c
  end.

Fixpoint lastChar (s : string) : option ascii :=
  match s with
  | EmptyString => None
  | String c EmptyString => Some c
  | String _ s' => lastChar s'
  end.

(** A text without its last character. *)
Fixpoint withoutLast (s : string) : string :=
  match s with
  | EmptyString => EmptyString
  | String c EmptyString => EmptyString
  | String c s' => String c (withoutLast s')
  end.

(** A text with holes: the pieces of a template joined by the value that
    is printed between them. *)
Fixpoint fill (hole : string) (pieces : list string) : string :=
  match pieces with
  | [] => EmptyString
  | [p] => p
  | p :: rest => p +:+ hole +:+ fill hole rest
  end.

(** The character is there and does not occur in [m]. *)
Definition foreign (m : string) (c : option ascii) : bool :=
  match c with
  | Some c => negb (Str.mentions c m)
  | None => false
  end.

(** A piece of a template that holds no occurrence of [m] and whose ends
    cannot be part of one. *)
Definition fenced (m p : string) : bool :=
  negb (Str.includes p m) && foreign m (firstChar p) && foreign m (lastChar p).

(** The alternate link for German that the scenario expects, for the path
    [/about]. *)
Definition deAlternate (origin : string) : string :=
  "<link rel=" +:+ Str.dq +:+ "alternate" +:+ Str.dq +:+ " hreflang=" +:+ Str.dq +:+ "de" +:+ Str.dq +:+ " href=" +:+ Str.dq +:+ origin +:+ "/de/about" +:+ Str.dq +:+ " />".

(** An HTML text that every injector of the translated-page pipeline
    changes: it closes its head and its body, and holds neither the
    marker of [addHreflangLinks] nor that of [injectLanguageSwitcher]. *)
Definition augmentable (html : string) : bool :=
  Str.includes html "</head>" && Str.includes html "</body>"
  && negb (Str.includes html "hreflang=")
  && negb (Str.includes html "altified-lang-switcher").

(** An API key that the templates print as it is and that holds neither
    marker. *)
Definition inertKey (key : string) : bool :=
  negb (Str.mentions "$" key)
  && negb (Str.includes key "hreflang=")
  && negb (Str.includes key "altified-lang-switcher").

(** A configured origin that the templates print as it is, without a tag
    and without the marker of the switcher. *)
Definition inertDomain (domain : string) : bool :=
  negb (Str.mentions "$" domain) && negb (Str.mentions "<" domain)
  && negb (Str.includes domain "altified-lang-switcher").

(** Display names of the three languages that the template prints as
    they are. *)
Definition inertNames (names : gmap string string) : bool :=
  forallb (fun code => negb (Str.mentions "$" (Edge.getLanguageName names code)))
          ["en"; "fr"; "de"].

(** The line feed that the templates put in front of the closing tag. *)
Definition LF : string := String (ascii_of_nat 10) "".

(** The template of [injectAutoTranslation] for French, cut at the places
    where the API key is printed, with the line feed that follows it in
    the replacement text. *)
Definition enginePieces : list string :=
  [ Edge.engineText0 +:+ "fr" +:+ Edge.engineText1;
    Edge.engineText2 +:+ "fr" +:+ Edge.engineText3 +:+ Edge.ALTIFIED_API
      +:+ Edge.engineText4;
    Edge.engineText5 +:+ "fr" +:+ Edge.engineText6 +:+ "fr" +:+ Edge.engineText7
      +:+ LF ].

(** The text in front of the origin in a link of [addHreflangLinks]. *)
Definition linkOpen (lang : string) : string :=
  LF +:+ "<link rel=" +:+ Str.dq +:+ "alternate" +:+ Str.dq +:+ " hreflang=" +:+ Str.dq +:+ lang +:+ Str.dq +:+ " href=" +:+ Str.dq.

(** The variable [tags] for the scenario, cut at the places where the
    origin is printed, with the line feed that follows it. *)
Definition tagPieces : list string :=
  [ linkOpen "en";
    "/about" +:+ Str.dq +:+ " />" +:+ LF +:+ linkOpen "fr";
    "/fr/about" +:+ Str.dq +:+ " />" +:+ linkOpen "de";
    "/de/about" +:+ Str.dq +:+ " />" +:+ linkOpen "x-default";
    "/about" +:+ Str.dq +:+ " />" +:+ LF +:+ LF ].

End Observed.

(** ** The loaders of the configuration and of the language names *)

Module Config.

(** What a loader sees of [caches.default] under its key:
    [cache.match] rejects, finds nothing, or finds an entry whose body
    [json()] parses ([Hit]) or does not parse. *)
Inductive Cached (A : Type) : Type :=
| MatchRejected
| Miss
| HitMalformed
| Hit (data : A).

Arguments MatchRejected {A}.
Arguments Miss {A}.
Arguments HitMalformed {A}.
Arguments Hit {A} data.

(** What the API answers: [fetch] rejects, or resolves with a status and
    a body, [None] when [response.json()] rejects. *)
Inductive Answer (A : Type) : Type :=
| FetchRejected
| Answered (status : nat) (body : option A).

Arguments FetchRejected {A}.
Arguments Answered {A} status body.

(** What a call of a loader did: the value it returned, whether it
    called the API, and the value it handed to [cache.put] ([None] when
    it did not call it).  A rejection of [cache.put] is caught and
    changes nothing of this. *)
Record Loaded (A B : Type) : Type := mkLoaded {
  value : A;
  requested : bool;
  put : option B
}.

Arguments mkLoaded {A B} value requested put.
Arguments value {A B} _.
Arguments requested {A B} _.
Arguments put {A B} _.

(** [getProjectConfig(apiKey)].  [A] is the type of the JSON values
    other than [null], and [None] stands for [null]: [Hit None] is a
    cached body that reads [null], [Answered status (Some None)] an answer
    whose body parses to [null].  Such a body is handed to [cache.put]
    like any other, as the text [null], and returned. *)
Definition getProjectConfig {A : Type} (cached : Cached (option A))
           (api : Answer (option A)) : Loaded (option A) (option A) :=
  match cached with
  | Hit data => mkLoaded data false None
  | _ =>
      match api with
      | FetchRejected => mkLoaded None true None
      | Answered status body =>
          if negb (Engine.ok status) then mkLoaded None true None
          else match body with
               | None => mkLoaded None true None
               | Some data => mkLoaded data true (Some data)
               end
      end
  end.

(** An entry of [data.languages]; a field is [None] when it is missing
    or not a string. *)
Record Language : Type := mkLanguage {
  code : option string;
  name : option string
}.

(** The body of the answer of the languages endpoint: [null], or a value
    whose [languages] is an array of entries, each [None] for [null]
    ([languages] is [None] when it is missing or not an array). *)
Inductive LanguagesBody : Type :=
| NullBody
| Body (languages : option (list (option Language))).

(** [languageMap[c] = n] on the object literal: an own property is set,
    except for the key [__proto__], for which the assignment reaches the
    setter of [Object.prototype], which ignores a value that is not an
    object. *)
Definition assign (m : gmap string string) (c n : string) : gmap string string :=
  if Str.eqb c "__proto__" then m else <[c := n]> m.

(** The loop [data.languages.forEach(...)] from the map [m] on: [None]
    when reading [lang.code] of a [null] entry throws. *)
Fixpoint languageMapFrom (entries : list (option Language))
         (m : gmap string string) : option (gmap string string) :=
  match entries with
  | [] => Some m
  | None :: _ => None
  | Some lang :: rest =>
      match code lang, name lang with
      | Some c, Some n =>
          if Str.truthy c && Str.truthy n then languageMapFrom rest (assign m c n)
          else languageMapFrom rest m
      | _, _ => languageMapFrom rest m
      end
  end.

(** [getLanguageNames()] *)
Definition getLanguageNames (cached : Cached (gmap string string))
           (api : Answer LanguagesBody)
  : Loaded (gmap string string) (gmap string string) :=
  match cached with
  | Hit data => mkLoaded data false None
  | _ =>
      match api with
      | FetchRejected => mkLoaded ∅ true None
      | Answered status body =>
          if negb (Engine.ok status) then mkLoaded ∅ true None
          else match body with
               | None => mkLoaded ∅ true None
               | Some NullBody => mkLoaded ∅ true None
               | Some (Body None) => mkLoaded ∅ true (Some ∅)
               | Some (Body (Some entries)) =>
                   match languageMapFrom entries ∅ with
                   | Some languageMap => mkLoaded languageMap true (Some languageMap)
                   | None => mkLoaded ∅ true None
                   end
               end
      end
  end.

(** The entry names the language code [c]. *)
Definition lists (c : string) (entry : option Language) : bool :=
  match entry with
  | Some lang =>
      match code lang with
      | Some c' => Str.eqb c' c
      | None => false
      end
  | None => false
  end.

(** No entry is [null]. *)
Definition noNull (entries : list (option Language)) : bool :=
  forallb (fun e => match e with Some _ => true | None => false end) entries.

(** The plan-status endpoint is down, and so is the cache. *)
Definition outage {A : Type} (cached : Cached A) (api : Answer A) : bool :=
  match cached with
  | Hit _ => false
  | _ =>
      match api with
      | FetchRejected => true
      | Answered status body =>
          negb (Engine.ok status)
          || match body with
             | None => true
             | Some _ => false
             end
      end
  end.

End Config.

(** ** The scripts that run in the page *)

Module Client.

(** [s.toLowerCase()] on ASCII letters. *)
Definition lowerChar (c : ascii) : ascii :=
  let n := nat_of_ascii c in
  if (65 <=? n) && (n <=? 90) then ascii_of_nat (n + 32) else c.

Fixpoint toLowerCase (s : string) : string :=
  match s with
  | EmptyString => EmptyString
  | String c s' => String (lowerChar c) (toLowerCase s')
  end.

(** [window.location]: [pathname], [search] and [hash]. *)
Record Location : Type := mkLocation {
  l_pathname : string;
  l_search : string;
  l_hash : string
}.

(** [navigator.language] and [navigator.userLanguage], [None] for
    [undefined]. *)
Record Navigator : Type := mkNavigator {
  n_language : option string;
  n_userLanguage : option string
}.

(** [navigator.language || navigator.userLanguage] *)
Definition browserLangOf (nav : Navigator) : option string :=
  match n_language nav with
  | Some l => if Str.truthy l then Some l else n_userLanguage nav
  | None => n_userLanguage nav
  end.

(** What a run of the detection script did: it threw (at
    [browserLang.split] of [undefined]) before it touched anything, or it
    ran to its end, leaving the item [altified_lang_detected] of the
    session storage as [flag] and assigning [href] to
    [window.location.href] ([None] when it navigates nowhere). *)
Inductive Detection : Type :=
| Threw
| Ran (flag : option string) (href : option string).

(** The script of [injectAutoLanguageDetection].  [targetLanguages] and
    [defaultLanguage] are the values of its two variables, [flag] is
    [sessionStorage.getItem('altified_lang_detected')]. *)
Definition detectLanguage (targetLanguages : list string) (defaultLanguage : string)
           (flag : option string) (nav : Navigator) (loc : Location) : Detection :=
  if match flag with
     | Some v => Str.truthy v
     | None => false
     end
  then Ran flag None
  else
    match browserLangOf nav with
    | None => Threw
    | Some browserLang =>
        let langCode := toLowerCase (hd "" (Str.split "-" browserLang)) in
        if existsb (Str.eqb langCode) targetLanguages
           && negb (Str.eqb langCode defaultLanguage)
        then
          let currentPath := l_pathname loc in
          let newPath := "/" +:+ langCode +:+ currentPath in
          Ran (Some "true") (Some (newPath +:+ l_search loc +:+ l_hash loc))
        else Ran (Some "true") None
    end.

(** [[a-z]] *)
Definition isLower (c : ascii) : bool :=
  let n := nat_of_ascii c in (97 <=? n) && (n <=? 122).

(** The match of [/^\/([a-z]{2})(\/|$)/] on [pathname]: the first
    capture and the text that follows the match. *)
Definition matchLangPrefix (pathname : string) : option (string * string) :=
  match pathname with
  | String s (String a (String b rest)) =>
      if Ascii.eqb s "/" && isLower a && isLower b then
        match rest with
        | EmptyString => Some (String a (String b ""), "")
        | String c rest' =>
            if Ascii.eqb c "/" then Some (String a (String b ""), rest') else None
        end
      else None
  | _ => None
  end.

(** [var currentLang = match ? match[1] : defaultLang], as the script of
    the switcher computes it when it runs. *)
Definition currentLangOf (defaultLang pathname : string) : string :=
  match matchLangPrefix pathname with
  | Some (lang, _) => lang
  | None => defaultLang
  end.

(** [cleanPath] *)
Definition cleanPathOf (currentPath : string) : string :=
  let cleanPath :=
    match matchLangPrefix currentPath with
    | Some (_, rest) => "/" +:+ rest
    | None => currentPath
    end in
  if Str.startsWith cleanPath "/" then cleanPath else "/" +:+ cleanPath.

(** The [change] handler of the [select]: what is assigned to
    [window.location.href], [None] when the handler returns early.
    [newLang] is [this.value]. *)
Definition onChange (defaultLang currentLang : string) (loc : Location)
           (newLang : string) : option string :=
  if negb (Str.truthy newLang) || Str.eqb newLang currentLang then None
  else
    let cleanPath := cleanPathOf (l_pathname loc) in
    let newPath := if Str.eqb newLang defaultLang then cleanPath
                   else "/" +:+ newLang +:+ cleanPath in
    Some (newPath +:+ l_search loc +:+ l_hash loc).

(** A [select] on the page at [loc]: the script has run on this page,
    then the visitor chooses [newLang]. *)
Definition choose (defaultLang : string) (loc : Location) (newLang : string)
  : option string :=
  onChange defaultLang (currentLangOf defaultLang (l_pathname loc)) loc newLang.

(** A language code of two lower-case letters. *)
Definition twoLetters (lang : string) : bool :=
  match lang with
  | String a (String b EmptyString) => isLower a && isLower b
  | _ => false
  end.

End Client.

(** ** Runs of the engine and of the worker *)

Module Runs.
Import Dom Engine Edge.

(** The request of [translateTexts] ends in its [catch] block, or the
    body it received lists no translations: [fetch] rejected, the status
    is not OK, the body does not parse, or [data.translations] is
    missing. *)
Definition failed (r : Reply) : bool :=
  match r with
  | NetworkError => true
  | Engine.Response status payload =>
      negb (Engine.ok status)
      || match payload with
         | MalformedJson | Json None => true
         | Json (Some _) => false
         end
  end.

(** A sequence of calls of [translateTexts], each with the collaborator
    as it answers at that time, starting from the cache [cache]. *)
Definition translateTextsAll (calls : list (Collaborator * list string))
           (cache : gmap string string) : gmap string string :=
  fold_left (fun c call => fst (translateTexts (fst call) c (snd call))) calls cache.

(** The entry of a reply names the source string [k]. *)
Definition names (k : string) (t : option Translation) : bool :=
  match t with
  | Some (mkTranslation (Some o) _) => Str.eqb o k
  | _ => false
  end.

(** [<head><title>Hello</title></head>] and a body that greets as well. *)
Definition helloHead : Node :=
  Element 40 "HEAD" [] [ Element 41 "TITLE" [] [Text 42 "Hello"] ].

Definition helloBody : Node :=
  Element 43 "BODY" [] [ Element 44 "P" [] [Text 45 "Hello"] ].

(** [<div translate="no">Hello<img alt="&nbsp;Hello "></div>] below a
    body, and its image. *)
Definition optedOutImage : Node :=
  Element 20 "BODY" []
    [ Element 21 "DIV" [("translate", "no")]
        [ Text 22 "Hello";
          Element 23 "IMG" [("alt", Samples.nbsp +:+ "Hello ")] [] ] ].

Definition optedOutAlt : ElemRef :=
  mkElemRef 23 "IMG" [("alt", Samples.nbsp +:+ "Hello ")].

(** A collaborator that knows "Hello" and "World". *)
Definition helloAndWorld : Collaborator :=
  fun _ => Engine.Response 200
             (Json (Some [Some (mkTranslation (Some "Hello") (Some "Bonjour"));
                          Some (mkTranslation (Some "World") (Some "Monde"))])).

(** The elements among the nodes that a batch of mutation records
    added. *)
Definition addedElements (mutations : list (list Added)) : list Added :=
  List.filter (fun a => isElement (a_node a)) (concat mutations).

(** The assignments made by the loop of [rewriteInternalLinks], in
    order: the link and the new value of its [href]. *)
Definition linkWrites (lang : string) (links : list ElemRef)
  : list (nat * string * string) :=
  flat_map (fun link =>
              match getAttribute "href" (e_attributes link) with
              | Some href =>
                  match newHref lang href with
                  | Some h => [(e_id link, "href", h)]
                  | None => []
                  end
              | None => []
              end) links.

(** [<nav><a href="/about">About</a><a href="https://x.org/">X</a>
    <svg><a href="/contact"><text>Contact</text></a></svg></nav>] *)
Definition navigation : Node :=
  Element 30 "NAV" []
    [ Element 31 "A" [("href", "/about")] [Text 32 "About"];
      Element 33 "A" [("href", "https://x.org/")] [Text 34 "X"];
      Element 35 "svg" []
        [ Element 36 "a" [("href", "/contact")]
            [ Element 37 "text" [] [Text 38 "Contact"] ] ] ].

(** The French about page as the worker of the scenario serves it. *)
Definition frenchAboutPage : Edge.Response :=
  match response (fetch Samples.aboutSite Samples.frenchAboutUrl) with
  | Resolved r => r
  | Rejected => Samples.aboutPage
  end.

(** An answer without a body that calls itself HTML, and a worker in
    front of an origin that gives it to every request. *)
Definition noContentPage : Edge.Response :=
  mkResponse 204 "No Content" [("content-type", "text/html")] "".

Definition emptySite : Env :=
  mkEnv (Some "key123") "https://example.com" (Some Samples.siteConfig)
        Samples.englishNames (fun _ _ => None) (fun _ => Resolved noContentPage).


(** A text of ASCII characters, as a language code is. *)
Fixpoint isAscii (s : string) : bool :=
  match s with
  | EmptyString => true
  | String c s' => (nat_of_ascii c <? 128) && isAscii s'
  end.

(** A path segment: a non-empty text without a slash. *)
Definition isSegment (s : string) : bool :=
  Str.truthy s && negb (Str.mentions "/" s).

End Runs.

(* ===================================================================== *)
(** * Part II: properties                                                 *)
(* ===================================================================== *)

Import Dom Engine Observed.

#[local] Arguments String.append !_ _.

(** ** Lists *)

Section ListFacts.
Context {A : Type}.

Lemma countIf_filter_true (f g : A -> bool) (l : list A) :
  (forall x, f x = true -> g x = true) ->
  countIf f (List.filter g l) = countIf f l.
Proof.
  intros Hfg. unfold countIf.
  induction l as [|x l IH]; simpl; [reflexivity|].
  destruct (g x) eqn:Hg, (f x) eqn:Hf; simpl; rewrite ?Hf; simpl;
    try (rewrite IH; reflexivity).
  apply Hfg in Hf. congruence.
Qed.

Lemma countIf_filter_false (f g : A -> bool) (l : list A) :
  (forall x, f x = true -> g x = false) ->
  countIf f (List.filter g l) = 0.
Proof.
  intros Hfg. unfold countIf.
  induction l as [|x l IH]; simpl; [reflexivity|].
  destruct (g x) eqn:Hg; simpl; [|exact IH].
  destruct (f x) eqn:Hf; simpl; [|exact IH].
  apply Hfg in Hf. congruence.
Qed.

(** Two tests that exclude each other and together cover a list split
    it. *)
Lemma filter_split (f g : A -> bool) (l : list A) :
  (forall x, In x l -> g x = negb (f x)) ->
  Permutation (List.filter f l ++ List.filter g l) l.
Proof.
  induction l as [|x l IH]; intros Hfg; simpl; [constructor|].
  assert (Hx : g x = negb (f x)) by (apply Hfg; left; reflexivity).
  assert (IH' : Permutation (List.filter f l ++ List.filter g l) l)
    by (apply IH; intros y Hy; apply Hfg; right; exact Hy).
  rewrite Hx. destruct (f x); simpl.
  - constructor. exact IH'.
  - symmetry. apply Permutation_cons_app. symmetry. exact IH'.
Qed.

Lemma filter_disjoint (f g : A -> bool) (l : list A) (x : A) :
  (forall y, In y l -> g y = negb (f y)) ->
  In x (List.filter f l) -> ~ In x (List.filter g l).
Proof.
  intros Hfg Hf Hg.
  apply filter_In in Hf as [Hin Hf]. apply filter_In in Hg as [_ Hg].
  rewrite (Hfg x Hin), Hf in Hg. discriminate.
Qed.

End ListFacts.

(** ** The batch sent by [translateTexts] *)

Lemma str_eqb_eq (s t : string) : Str.eqb s t = true <-> s = t.
Proof. unfold Str.eqb. apply String.eqb_eq. Qed.

Lemma str_eqb_refl (s : string) : Str.eqb s s = true.
Proof. apply str_eqb_eq. reflexivity. Qed.

Lemma str_eqb_neq (s t : string) : Str.eqb s t = false <-> s <> t.
Proof. unfold Str.eqb. apply String.eqb_neq. Qed.

Lemma translateTexts_posted server cache texts :
  postedTexts (snd (translateTexts server cache texts)) = toTranslate cache texts.
Proof.
  unfold translateTexts. destruct (toTranslate cache texts); reflexivity.
Qed.

Lemma needsTranslation_translated (cache : gmap string string) t v :
  cache !! t = Some v -> v <> t -> needsTranslation cache t = false.
Proof.
  intros Hc Hv. unfold needsTranslation. rewrite Hc. apply str_eqb_neq. exact Hv.
Qed.

(** C1, as the code has it.  The batch posted by [translateTexts] lists a
    source string once for every candidate of the pass that carries it when
    the cache holds no translation of it that differs from the string, and
    does not list it otherwise: occurrences in one pass are not merged. *)
Theorem translateTexts_batch_multiplicity
        (server : Collaborator) (cache : gmap string string)
        (texts : list string) (t : string) :
  occurrences t (postedTexts (snd (translateTexts server cache texts)))
  = if needsTranslation cache t then occurrences t texts else 0.
Proof.
  rewrite translateTexts_posted. unfold occurrences, toTranslate.
  destruct (needsTranslation cache t) eqn:Hn.
  - apply countIf_filter_true. intros x Hx.
    apply str_eqb_eq in Hx. subst x. exact Hn.
  - apply countIf_filter_false. intros x Hx.
    apply str_eqb_eq in Hx. subst x. exact Hn.
Qed.

(** C1 fails as stated: the document [<p>Hello</p><p>Hello</p>], translated
    in one pass with an empty cache, posts "Hello" twice. *)
Lemma translateContent_posts_duplicate :
  o_posted (translateContent Samples.unreachable false false initialState
                             Samples.helloTwice)
  = Some ["Hello"; "Hello"]
  /\ occurrences "Hello" ["Hello"; "Hello"] = 2.
Proof. split; vm_compute; reflexivity. Qed.

(** C2, as the code has it.  In every call of [translateTexts], a string
    that the cache maps at that time to a value different from itself is
    left out of the batch; a string of [texts] that is a key of the cache
    but mapped to itself is sent again, like one that is absent, and a
    request is made for it; and nothing is sent that is not in [texts]. *)
Theorem translateTexts_skips_translated
        (server : Collaborator) (cache : gmap string string)
        (texts : list string) (t : string) :
  (forall v, cache !! t = Some v -> v <> t ->
             ~ In t (postedTexts (snd (translateTexts server cache texts))))
  /\ (In t texts -> untranslated cache t ->
      exists batch, snd (translateTexts server cache texts) = Some batch
                    /\ In t batch)
  /\ (In t (postedTexts (snd (translateTexts server cache texts))) ->
      In t texts /\ untranslated cache t).
Proof.
  split; [|split].
  - intros v Hc Hv Hin. rewrite translateTexts_posted in Hin.
    apply filter_In in Hin as [_ Hn].
    rewrite (needsTranslation_translated cache t v Hc Hv) in Hn. discriminate.
  - intros Hin Hun.
    assert (Hb : In t (toTranslate cache texts)).
    { apply filter_In. split; [exact Hin|]. unfold needsTranslation.
      destruct Hun as [-> | ->]; [reflexivity|apply str_eqb_refl]. }
    unfold translateTexts.
    destruct (toTranslate cache texts) as [|b bs]; [destruct Hb|].
    exists (b :: bs). split; [reflexivity|exact Hb].
  - intros Hin. rewrite translateTexts_posted in Hin.
    apply filter_In in Hin as [Hin Hn]. split; [exact Hin|].
    unfold needsTranslation in Hn. unfold untranslated.
    destruct (cache !! t) as [v|]; [|left; reflexivity].
    apply str_eqb_eq in Hn. subst v. right. reflexivity.
Qed.

(** C2 fails as stated: a string that is a key of the cache and mapped to
    itself is sent again. *)
Lemma translateTexts_resends_noop :
  Samples.cacheHelloNoop !! "Hello" = Some "Hello"
  /\ snd (translateTexts Samples.unreachable Samples.cacheHelloNoop ["Hello"])
     = Some ["Hello"].
Proof. split; vm_compute; reflexivity. Qed.

(** ** Extraction and the translated marker *)

Lemma marked_false (nodes : gset nat) id : marked nodes id = false <-> id ∉ nodes.
Proof. unfold marked. apply bool_decide_eq_false. Qed.

Lemma keepTextNode_unmarked isHead nodes r :
  keepTextNode isHead nodes r = true -> t_id r ∉ nodes.
Proof.
  unfold keepTextNode. destruct (marked nodes (t_id r)) eqn:Hm; [discriminate|].
  intros _. apply marked_false. exact Hm.
Qed.

Lemma keepTextNode_parent isHead nodes r :
  keepTextNode isHead nodes r = true -> exists p, t_parentElement r = Some p.
Proof.
  unfold keepTextNode. destruct (marked nodes (t_id r)); [discriminate|].
  destruct (t_parentElement r) as [p|]; [eauto|discriminate].
Qed.

Lemma attrCandidate_inv nodes el attr a :
  In a (attrCandidate nodes el attr) ->
  a = mkAttrRef el attr (text a)
  /\ (e_id el ∉ nodes)
  /\ exists val, getAttribute attr (e_attributes el) = Some val
                 /\ text a = Str.trim val
                 /\ Str.truthy val = true /\ Str.truthy (Str.trim val) = true.
Proof.
  unfold attrCandidate.
  destruct (getAttribute attr (e_attributes el)) as [val|]; [|intros []].
  destruct (Str.truthy val) eqn:Hv; [|intros []].
  destruct (Str.truthy (Str.trim val)) eqn:Ht; [|intros []].
  destruct (marked nodes (e_id el)) eqn:Hm; [intros []|].
  simpl. intros [<-|[]]. simpl.
  split; [reflexivity|]. split; [apply marked_false; exact Hm|].
  exists val. auto.
Qed.

(** Where an entry of [collectAttributeNodes] comes from: an element that
    carries one of the four attributes, or one of the [meta] elements of
    the head. *)
Lemma collectAttributeNodes_inv isHead nodes root a :
  In a (collectAttributeNodes isHead nodes root) ->
  (exists el attr, In el (querySelectorAllTranslatable root)
                   /\ In attr translatableAttrs
                   /\ In a (attrCandidate nodes el attr))
  \/ (isHead = true
      /\ exists sel el, In sel metaSelectors
                        /\ querySelectorMeta (fst sel) (snd sel) root = Some el
                        /\ In a (attrCandidate nodes el "content")).
Proof.
  unfold collectAttributeNodes. intros Hin.
  apply in_app_or in Hin as [Hin|Hin].
  - left. apply in_flat_map in Hin as (el & Hel & Hin).
    apply in_flat_map in Hin as (attr & Hattr & Hin). eauto.
  - right. destruct isHead; [|destruct Hin]. split; [reflexivity|].
    apply in_flat_map in Hin as (sel & Hsel & Hin).
    unfold metaCandidate in Hin.
    destruct (querySelectorMeta (fst sel) (snd sel) root) as [el|] eqn:Hq;
      [|destruct Hin].
    eauto.
Qed.

Lemma collectAttributeNodes_standard isHead nodes root el attr a :
  In el (querySelectorAllTranslatable root) -> In attr translatableAttrs ->
  In a (attrCandidate nodes el attr) ->
  In a (collectAttributeNodes isHead nodes root).
Proof.
  intros Hel Hattr Hc. unfold collectAttributeNodes. apply in_or_app. left.
  apply in_flat_map. exists el. split; [exact Hel|].
  apply in_flat_map. exists attr. split; [exact Hattr|exact Hc].
Qed.

Lemma collectAttributeNodes_meta nodes root sel el a :
  In sel metaSelectors -> querySelectorMeta (fst sel) (snd sel) root = Some el ->
  In a (attrCandidate nodes el "content") ->
  In a (collectAttributeNodes true nodes root).
Proof.
  intros Hsel Hq Hc. unfold collectAttributeNodes. apply in_or_app. right.
  apply in_flat_map. exists sel. split; [exact Hsel|].
  unfold metaCandidate. rewrite Hq. exact Hc.
Qed.

Lemma collectAttributeNodes_unmarked isHead nodes root a :
  In a (collectAttributeNodes isHead nodes root) -> e_id (element a) ∉ nodes.
Proof.
  intros Hin. apply collectAttributeNodes_inv in Hin
    as [(el & attr & _ & _ & Hc)|(_ & sel & el & _ & _ & Hc)];
    apply attrCandidate_inv in Hc as (-> & Hm & _); exact Hm.
Qed.

(** C5.  A text node or an element that is in the translated-marker set is
    not among the candidates of any extraction: [collectTextNodes] returns
    no reference to the text node and [collectAttributeNodes] no entry for
    the element, whatever the subtree and whatever else the set holds. *)
Theorem marked_nodes_are_not_extracted
        (isHead above : bool) (nodes : gset nat) (root : Node) (id : nat) :
  id ∈ nodes ->
  (forall r, In r (collectTextNodes isHead above nodes root) -> t_id r <> id)
  /\ (forall a, In a (collectAttributeNodes isHead nodes root) ->
                e_id (element a) <> id).
Proof.
  intros Hid. split.
  - intros r Hr Heq. apply filter_In in Hr as [_ Hk].
    apply keepTextNode_unmarked in Hk. subst id. contradiction.
  - intros a Ha Heq. apply collectAttributeNodes_unmarked in Ha.
    subst id. contradiction.
Qed.

(** The same for the first text node of a sample page. *)
Lemma marked_nodes_are_not_extracted_witness :
  3 ∈ ({[3]} : gset nat)
  /\ (forall r, In r (collectTextNodes false false {[3]} Samples.helloTwice) ->
                t_id r <> 3)
  /\ (forall a, In a (collectAttributeNodes false {[3]} Samples.helloTwice) ->
                e_id (element a) <> 3).
Proof.
  assert (H : 3 ∈ ({[3]} : gset nat)) by (apply elem_of_singleton; reflexivity).
  split; [exact H|].
  exact (marked_nodes_are_not_extracted false false {[3]} Samples.helloTwice 3 H).
Defined.

(** ** The visibility partition *)

Lemma Qgeb_negb_Qltb (x y : Q) : Qgeb x y = negb (Qltb x y).
Proof. unfold Qgeb, Qltb. apply Z.leb_antisym. Qed.

Lemma belowFold_negb_aboveFold ly el : belowFold ly el = negb (aboveFold ly el).
Proof. unfold belowFold, aboveFold. apply Qgeb_negb_Qltb. Qed.

Lemma belowFoldText_negb_visibleText ly above nodes root r :
  In r (collectTextNodes false above nodes root) ->
  belowFoldText ly r = negb (visibleText ly r).
Proof.
  intros Hr. apply filter_In in Hr as [_ Hk].
  apply keepTextNode_parent in Hk as [p Hp].
  unfold belowFoldText, visibleText. rewrite Hp.
  apply belowFold_negb_aboveFold.
Qed.

(** C8.  For one layout and one state of the document, the candidates of
    [translateVisibleContent] and those of [translateBelowFoldContent]
    split the extraction of the subtree: put together they are the
    candidates returned by [collectTextNodes] and [collectAttributeNodes],
    each exactly as often as it was extracted, and no candidate is in both
    parts. *)
Theorem fold_partition_is_complete
        (ly : Layout) (above : bool) (nodes : gset nat) (root : Node) :
  Permutation (visibleTextNodes ly above nodes root
               ++ belowFoldTextNodes ly above nodes root)
              (collectTextNodes false above nodes root)
  /\ Permutation (visibleAttrNodes ly nodes root ++ belowFoldAttrNodes ly nodes root)
                 (collectAttributeNodes false nodes root)
  /\ (forall r, In r (visibleTextNodes ly above nodes root) ->
                ~ In r (belowFoldTextNodes ly above nodes root))
  /\ (forall a, In a (visibleAttrNodes ly nodes root) ->
                ~ In a (belowFoldAttrNodes ly nodes root)).
Proof.
  unfold visibleTextNodes, belowFoldTextNodes, visibleAttrNodes, belowFoldAttrNodes.
  repeat split.
  - apply filter_split. intros r Hr.
    eapply belowFoldText_negb_visibleText; eassumption.
  - apply filter_split. intros a _. apply belowFold_negb_aboveFold.
  - intros r. apply filter_disjoint. intros y Hy.
    eapply belowFoldText_negb_visibleText; eassumption.
  - intros a. apply filter_disjoint. intros y _. apply belowFold_negb_aboveFold.
Qed.

(** The partition of a sample page: the first paragraph is above the
    fold, the second below. *)
Lemma fold_partition_sample :
  map t_id (visibleTextNodes Samples.layout600 false ∅ Samples.helloTwice) = [3]
  /\ map t_id (belowFoldTextNodes Samples.layout600 false ∅ Samples.helloTwice) = [5].
Proof. split; vm_compute; reflexivity. Qed.

(** ** The mutation observer *)

Lemma enqueue_inv nodes a b :
  In b (enqueue nodes a) ->
  b = a /\ isElement (a_node a) = true
  /\ (nodeId (a_node a) ∉ nodes) /\ closestNo a = false.
Proof.
  unfold enqueue. destruct (isElement (a_node a)) eqn:He; [|intros []].
  destruct (marked nodes (nodeId (a_node a))) eqn:Hm; simpl; [intros []|].
  destruct (closestNo a) eqn:Hc; simpl; [intros []|].
  intros [<-|[]]. repeat split; auto. apply marked_false. exact Hm.
Qed.

(** A text node that was added is not queued, wherever it was inserted. *)
Lemma observer_never_queues_text nodes mutations above id value :
  ~ In (mkAdded above (Text id value)) (newNodes nodes mutations).
Proof.
  intros Hin. unfold newNodes in Hin.
  apply in_flat_map in Hin as (addedNodes & _ & Hin).
  apply in_flat_map in Hin as (b & _ & Hin).
  apply enqueue_inv in Hin as (<- & He & _). discriminate.
Qed.

(** What is queued is an element that a record lists. *)
Lemma newNodes_inv nodes mutations a :
  In a (newNodes nodes mutations) ->
  isElement (a_node a) = true
  /\ exists addedNodes, In addedNodes mutations /\ In a addedNodes.
Proof.
  unfold newNodes. intros Hin.
  apply in_flat_map in Hin as (addedNodes & Hm & Hin).
  apply in_flat_map in Hin as (b & Hb & Hin).
  apply enqueue_inv in Hin as (-> & He & _). split; [exact He|eauto].
Qed.

(** A batch of mutations that adds no element starts no pass: nothing is
    extracted, posted, written or rewritten. *)
Lemma observer_ignores_bare_text server lang st mutations :
  (forall addedNodes a, In addedNodes mutations -> In a addedNodes ->
                        isElement (a_node a) = false) ->
  observerCallback server lang st mutations = None.
Proof.
  intros Hall. unfold observerCallback.
  destruct (newNodes (translatedNodes st) mutations) as [|a q] eqn:Hq; [reflexivity|].
  assert (Hin : In a (newNodes (translatedNodes st) mutations))
    by (rewrite Hq; left; reflexivity).
  apply newNodes_inv in Hin as (He & m & Hm & Ha).
  rewrite (Hall m a Hm Ha) in He. discriminate.
Qed.

(** ** Strings *)

Section StringFacts.

Lemma append_assoc (a b c : string) : (a +:+ b) +:+ c = a +:+ b +:+ c.
Proof. induction a as [|x a IH]; simpl; [reflexivity|]. rewrite IH. reflexivity. Qed.

Lemma append_nil_r (a : string) : a +:+ "" = a.
Proof. induction a as [|x a IH]; simpl; [reflexivity|]. rewrite IH. reflexivity. Qed.

Lemma ascii_eqb_eq (a b : ascii) : Ascii.eqb a b = true <-> a = b.
Proof. apply Ascii.eqb_eq. Qed.

Lemma startsWith_nil (s : string) : Str.startsWith s "" = true.
Proof. destruct s; reflexivity. Qed.

Lemma startsWith_iff (s p : string) :
  Str.startsWith s p = true <-> exists r, s = p +:+ r.
Proof.
  revert s. induction p as [|a p IH]; intros s.
  - rewrite startsWith_nil. split; [intros _; exists s; reflexivity|reflexivity].
  - destruct s as [|b s]; simpl.
    + split; [discriminate|intros [r Hr]; discriminate].
    + rewrite andb_true_iff, ascii_eqb_eq, IH. split.
      * intros [-> [r ->]]. exists r. reflexivity.
      * intros [r Hr]. injection Hr as -> ->. split; [reflexivity|eauto].
Qed.

Lemma startsWith_app (p r : string) : Str.startsWith (p +:+ r) p = true.
Proof. apply startsWith_iff. exists r. reflexivity. Qed.

Lemma startsWith_app_same (a s p : string) :
  Str.startsWith (a +:+ s) (a +:+ p) = Str.startsWith s p.
Proof.
  induction a as [|x a IH]; simpl; [reflexivity|].
  rewrite IH. rewrite (proj2 (ascii_eqb_eq x x) eq_refl). reflexivity.
Qed.

Lemma includes_iff (s p : string) :
  Str.includes s p = true <-> exists a b, s = a +:+ p +:+ b.
Proof.
  induction s as [|c s IH]; cbn [Str.includes].
  - rewrite orb_false_r, startsWith_iff. split.
    + intros [r Hr]. exists "", r. exact Hr.
    + intros (a & b & Hab). destruct a; simpl in Hab; [eauto|discriminate].
  - rewrite orb_true_iff, startsWith_iff, IH. split.
    + intros [[r Hr]|(a & b & ->)].
      * exists "", r. exact Hr.
      * exists (String c a), b. reflexivity.
    + intros (a & b & Hab). destruct a as [|x a]; simpl in Hab.
      * left. eauto.
      * right. injection Hab as -> ->. eauto.
Qed.

Lemma includes_middle (a p b : string) : Str.includes (a +:+ p +:+ b) p = true.
Proof. apply includes_iff. eauto. Qed.

Lemma includes_app_l (a b p : string) :
  Str.includes a p = true -> Str.includes (a +:+ b) p = true.
Proof.
  rewrite !includes_iff. intros (u & v & ->). exists u, (v +:+ b).
  rewrite !append_assoc. reflexivity.
Qed.

Lemma includes_app_r (a b p : string) :
  Str.includes b p = true -> Str.includes (a +:+ b) p = true.
Proof.
  rewrite !includes_iff. intros (u & v & ->). exists (a +:+ u), v.
  rewrite !append_assoc. reflexivity.
Qed.

Lemma includes_false_app_l (a b p : string) :
  Str.includes (a +:+ b) p = false -> Str.includes a p = false.
Proof.
  intros H. destruct (Str.includes a p) eqn:Ha; [|reflexivity].
  rewrite (includes_app_l a b p Ha) in H. discriminate.
Qed.

Lemma includes_false_app_r (a b p : string) :
  Str.includes (a +:+ b) p = false -> Str.includes b p = false.
Proof.
  intros H. destruct (Str.includes b p) eqn:Hb; [|reflexivity].
  rewrite (includes_app_r a b p Hb) in H. discriminate.
Qed.

(** [indexOf] finds an occurrence exactly when there is one. *)
Lemma drop_length_app (p r : string) : Str.drop (Str.length p) (p +:+ r) = r.
Proof. induction p as [|a p IH]; simpl; [destruct r; reflexivity|exact IH]. Qed.

Lemma indexOf_Some (s p : string) (i : nat) :
  Str.indexOf s p = Some i ->
  s = Str.take i s +:+ p +:+ Str.drop (i + Str.length p) s.
Proof.
  revert i. induction s as [|c s IH]; intros i; cbn [Str.indexOf].
  - destruct (Str.startsWith "" p) eqn:Hp; [|discriminate].
    intros [= <-]. apply startsWith_iff in Hp as [r Hr].
    destruct p; [reflexivity|discriminate].
  - destruct (Str.startsWith (String c s) p) eqn:Hp.
    + intros [= <-]. apply startsWith_iff in Hp as [r Hr].
      rewrite Hr. cbn [Str.take Nat.add]. rewrite drop_length_app.
      destruct (p +:+ r); reflexivity.
    + destruct (Str.indexOf s p) as [j|] eqn:Hj; [|discriminate].
      simpl. intros [= <-]. simpl. f_equal. apply IH. reflexivity.
Qed.

Lemma indexOf_None (s p : string) :
  Str.indexOf s p = None <-> Str.includes s p = false.
Proof.
  induction s as [|c s IH]; cbn [Str.indexOf Str.includes].
  - destruct (Str.startsWith "" p); simpl; split; congruence.
  - destruct (Str.startsWith (String c s) p); simpl; [split; congruence|].
    rewrite <- IH. destruct (Str.indexOf s p); simpl; split; congruence.
Qed.

Lemma replace_absent (s p r : string) :
  Str.includes s p = false -> Str.replace s p r = s.
Proof.
  intros H. apply indexOf_None in H. unfold Str.replace. rewrite H. reflexivity.
Qed.

(** The shape of the result of [replace] when the pattern occurs. *)
Lemma replace_present (s p r : string) :
  Str.includes s p = true ->
  exists a b, s = a +:+ p +:+ b
              /\ Str.replace s p r = a +:+ Str.getSubstitution p a b r +:+ b.
Proof.
  intros H. unfold Str.replace.
  destruct (Str.indexOf s p) as [i|] eqn:Hi.
  - exists (Str.take i s), (Str.drop (i + Str.length p) s).
    split; [apply indexOf_Some; exact Hi|reflexivity].
  - apply indexOf_None in Hi. congruence.
Qed.

Lemma mentions_app (c : ascii) (a b : string) :
  Str.mentions c (a +:+ b) = Str.mentions c a || Str.mentions c b.
Proof.
  induction a as [|x a IH]; simpl; [reflexivity|].
  rewrite IH, orb_assoc. reflexivity.
Qed.

(** A stretch of the replacement text without [$] is copied as it is. *)
Lemma getSubstitution_plain_prefix (m a b q r : string) :
  Str.mentions "$" q = false ->
  Str.getSubstitution m a b (q +:+ r) = q +:+ Str.getSubstitution m a b r.
Proof.
  induction q as [|c q IH]; intros Hq; [reflexivity|].
  simpl in Hq. apply orb_false_iff in Hq as [Hc Hq].
  change (String c q +:+ r) with (String c (q +:+ r)).
  cbn [Str.getSubstitution]. rewrite Hc. rewrite (IH Hq). reflexivity.
Qed.

Lemma getSubstitution_plain (m a b r : string) :
  Str.mentions "$" r = false -> Str.getSubstitution m a b r = r.
Proof.
  intros Hr. rewrite <- (append_nil_r r) at 1.
  rewrite getSubstitution_plain_prefix by exact Hr.
  simpl. apply append_nil_r.
Qed.

Lemma upToGt_Some (s m rest : string) :
  Str.upToGt s = Some (m, rest) -> s = m +:+ ">" +:+ rest.
Proof.
  revert m. induction s as [|c s IH]; intros m; simpl; [discriminate|].
  destruct (Ascii.eqb c ">") eqn:Hc.
  - intros [= <- <-]. apply ascii_eqb_eq in Hc. subst c. reflexivity.
  - destruct (Str.upToGt s) as [[m' rest']|]; [|discriminate].
    intros [= <- <-]. simpl. f_equal. apply IH. reflexivity.
Qed.

Lemma matchHeadOpen_Some (s m rest : string) :
  Str.matchHeadOpen s = Some (m, rest) ->
  s = m +:+ rest /\ exists m', m = m' +:+ ">".
Proof.
  unfold Str.matchHeadOpen.
  destruct (Str.startsWith s "<head") eqn:Hs; [|discriminate].
  apply startsWith_iff in Hs as [r ->]. simpl.
  destruct (Str.upToGt r) as [[m' rest']|] eqn:Hr; [|discriminate].
  intros [= <- <-]. apply upToGt_Some in Hr. subst r.
  split.
  - simpl. rewrite append_assoc. reflexivity.
  - exists ("<head" +:+ m'). reflexivity.
Qed.

(** The shape of the result of a replacement of the opening tag of the
    head: nothing changes, or the text made by the callback takes the
    place of the match. *)
Lemma replaceHeadOpen_cases (s : string) (f : string -> string) :
  Str.replaceHeadOpen s f = s
  \/ exists pre m' rest,
      s = pre +:+ (m' +:+ ">") +:+ rest
      /\ Str.replaceHeadOpen s f = pre +:+ f (m' +:+ ">") +:+ rest.
Proof.
  induction s as [|c s IH].
  - simpl. left. reflexivity.
  - cbn [Str.replaceHeadOpen].
    destruct (Str.matchHeadOpen (String c s)) as [[m rest]|] eqn:Hm.
    + right. apply matchHeadOpen_Some in Hm as [Hs [m' ->]].
      exists "", m', rest. split; [exact Hs|reflexivity].
    + destruct IH as [IH|(pre & m' & rest & Hs & IH)].
      * left. rewrite IH. reflexivity.
      * right. exists (String c pre), m', rest. rewrite IH, Hs at 1.
        split; reflexivity.
Qed.

End StringFacts.

(** ** Link rewriting *)

(** The links the callback leaves alone on purpose. *)
Lemma newHref_external (lang href : string) :
  Str.startsWith href "http://" = true \/ Str.startsWith href "https://" = true
  \/ Str.startsWith href "#" = true
  \/ Str.startsWith href "mailto:" = true \/ Str.startsWith href "tel:" = true ->
  newHref lang href = None.
Proof.
  intros H. unfold newHref.
  destruct (Str.truthy href); [|reflexivity]. cbn [negb].
  destruct (Str.startsWith href "http://"); [reflexivity|].
  destruct (Str.startsWith href "https://"); [reflexivity|].
  destruct (Str.startsWith href "#"); [reflexivity|].
  destruct (Str.startsWith href "mailto:"); [reflexivity|].
  destruct (Str.startsWith href "tel:"); [reflexivity|].
  destruct H as [H|[H|[H|[H|H]]]]; discriminate.
Qed.

Lemma rewriteHref_external (lang href : string) :
  Str.startsWith href "http://" = true \/ Str.startsWith href "https://" = true
  \/ Str.startsWith href "#" = true
  \/ Str.startsWith href "mailto:" = true \/ Str.startsWith href "tel:" = true ->
  rewriteHref lang href = href.
Proof. intros H. unfold rewriteHref. rewrite (newHref_external lang href H). reflexivity. Qed.

(** Whatever the callback writes starts with the locale prefix. *)
Lemma newHref_Some (lang href h : string) :
  newHref lang href = Some h ->
  h = "/" +:+ lang \/ exists r, h = ("/" +:+ lang) +:+ "/" +:+ r.
Proof.
  unfold newHref.
  destruct (negb (Str.truthy href)); [discriminate|].
  destruct (_ || _); [discriminate|].
  destruct (Str.startsWith href "#"); [discriminate|].
  destruct (_ || _); [discriminate|].
  destruct (_ && _); [|discriminate].
  destruct (Str.eqb href "/"); [intros [= <-]; left; reflexivity|].
  destruct (Str.startsWith href "/") eqn:Hs.
  - intros [= <-]. apply startsWith_iff in Hs as [r ->]. right. exists r. reflexivity.
  - destruct (Str.startsWith href "./"); intros [= <-]; right; eauto.
Qed.

(** A link that is the locale prefix, or starts with it and a slash, is
    left alone. *)
Lemma newHref_prefixed (lang h : string) :
  h = "/" +:+ lang \/ (exists r, h = ("/" +:+ lang) +:+ "/" +:+ r) ->
  newHref lang h = None.
Proof.
  intros H. unfold newHref.
  assert (Hguard : negb (Str.startsWith h (("/" +:+ lang) +:+ "/"))
                   && negb (Str.eqb h ("/" +:+ lang)) = false).
  { destruct H as [->|[r ->]].
    - rewrite str_eqb_refl. apply andb_false_r.
    - rewrite startsWith_app_same, startsWith_app. reflexivity. }
  rewrite Hguard.
  destruct H as [->|[r ->]]; reflexivity.
Qed.

(** Running the rewrite on its own result changes nothing. *)
Lemma rewriteHref_idempotent (lang href : string) :
  rewriteHref lang (rewriteHref lang href) = rewriteHref lang href.
Proof.
  unfold rewriteHref at 2 3.
  destruct (newHref lang href) as [h|] eqn:Hn.
  - unfold rewriteHref. apply newHref_Some in Hn.
    rewrite (newHref_prefixed lang h Hn). reflexivity.
  - unfold rewriteHref. rewrite Hn. reflexivity.
Qed.

(** C7 breaks on a link that is the locale prefix followed by a query (or
    a fragment): the test for a prefix that is already there only knows
    the prefix alone and the prefix followed by a slash, so the link gets
    the prefix a second time. *)
Theorem rewriteHref_prefixes_query_link_twice :
  rewriteHref "fr" "/fr?page=2" = "/fr/fr?page=2"
  /\ rewriteInternalLinks "fr" Samples.pagerLink
     = Element 10 "DIV" []
         [ Element 11 "A" [("href", "/fr/fr?page=2")] [Text 12 "2"] ].
Proof. split; vm_compute; reflexivity. Qed.

(** ** The injectors *)

Import Edge.

Section Guards.

(** An injector that looks for its marker [mk] and otherwise replaces
    the first occurrence of [pat] by a text that begins, before any [$],
    with a stretch that holds the marker. *)
Lemma guarded_replace_idempotent (mk pat q r s : string) :
  Str.mentions "$" q = false ->
  Str.includes q mk = true ->
  let inject := fun h => if Str.includes h mk then h
                         else Str.replace h pat (q +:+ r) in
  inject (inject s) = inject s.
Proof.
  intros Hq Hmk inject. subst inject. cbv beta.
  destruct (Str.includes s mk) eqn:Hs.
  - rewrite Hs. reflexivity.
  - destruct (Str.includes s pat) eqn:Hp.
    + destruct (replace_present s pat (q +:+ r) Hp) as (a & b & _ & Hr).
      rewrite Hr, getSubstitution_plain_prefix by exact Hq.
      rewrite (includes_app_r a _ mk
                 (includes_app_l _ b mk (includes_app_l q _ mk Hmk))).
      reflexivity.
    + rewrite (replace_absent s pat _ Hp), Hs.
      apply replace_absent. exact Hp.
Qed.

(** An injector that looks for its marker and otherwise appends a
    script that holds the marker to the opening tag of the head. *)
Lemma guarded_replaceHeadOpen_idempotent (mk script s : string) :
  Str.includes script mk = true ->
  let inject := fun h => if Str.includes h mk then h
                         else Str.replaceHeadOpen h (fun m => m +:+ script) in
  inject (inject s) = inject s.
Proof.
  intros Hmk inject. subst inject. cbv beta.
  destruct (Str.includes s mk) eqn:Hs.
  - rewrite Hs. reflexivity.
  - destruct (replaceHeadOpen_cases s (fun m => m +:+ script))
      as [Heq|(pre & m' & rest & _ & Heq)]; rewrite Heq.
    + rewrite Hs. exact Heq.
    + rewrite (includes_app_r pre _ mk
                 (includes_app_l _ rest mk (includes_app_r _ script mk Hmk))).
      reflexivity.
Qed.

End Guards.

Lemma fold_left_append_prefix {A : Type} (g : A -> string) (l : list A) (q r : string) :
  fold_left (fun acc x => acc +:+ g x) l (q +:+ r)
  = q +:+ fold_left (fun acc x => acc +:+ g x) l r.
Proof.
  revert r. induction l as [|x l IH]; intros r; simpl; [reflexivity|].
  rewrite append_assoc. apply IH.
Qed.

Lemma injectAutoTranslation_idempotent html lang apiKey :
  injectAutoTranslation (injectAutoTranslation html lang apiKey) lang apiKey
  = injectAutoTranslation html lang apiKey.
Proof.
  unfold injectAutoTranslation, autoTranslateScript.
  rewrite append_assoc.
  apply (guarded_replace_idempotent "__ALTIFIED_AUTO_TRANSLATE__" "</head>" engineText0).
  - vm_compute. reflexivity.
  - vm_compute. reflexivity.
Qed.

Lemma injectLanguageContext_idempotent html lang :
  injectLanguageContext (injectLanguageContext html lang) lang
  = injectLanguageContext html lang.
Proof.
  unfold injectLanguageContext.
  apply (guarded_replaceHeadOpen_idempotent "__ALTIFIED_CONTEXT__").
  unfold contextScript. rewrite <- !append_assoc.
  do 3 apply includes_app_l. vm_compute. reflexivity.
Qed.

Lemma injectAutoLanguageDetection_idempotent html cfg :
  injectAutoLanguageDetection (injectAutoLanguageDetection html cfg) cfg
  = injectAutoLanguageDetection html cfg.
Proof.
  unfold injectAutoLanguageDetection.
  apply (guarded_replaceHeadOpen_idempotent "__ALTIFIED_AUTO_LANG_DETECT__").
  unfold autoDetectScript.
  apply includes_app_r, includes_app_r, includes_app_l. vm_compute. reflexivity.
Qed.

(** The variable [tags] begins with the opening of the link for the
    default language, whatever the configuration. *)
Lemma hreflangTags_begin origin pathname defaultLang targetLangs :
  exists r,
    hreflangTags origin pathname defaultLang targetLangs
    = ("
<link rel=" +:+ Str.dq +:+ "alternate" +:+ Str.dq +:+ " hreflang=") +:+ r.
Proof.
  unfold hreflangTags.
  match goal with
  | |- context [fold_left ?f _ (?a1 +:+ ?d +:+ ?a2 +:+ ?d +:+ ?a3 +:+ ?rest)] =>
      replace (a1 +:+ d +:+ a2 +:+ d +:+ a3 +:+ rest)
        with ((a1 +:+ d +:+ a2 +:+ d +:+ a3) +:+ rest)
        by (rewrite !append_assoc; reflexivity)
  end.
  rewrite fold_left_append_prefix, append_assoc. eexists. reflexivity.
Qed.

Lemma addHreflangLinks_idempotent html pathname cfg domain :
  addHreflangLinks (addHreflangLinks html pathname cfg domain) pathname cfg domain
  = addHreflangLinks html pathname cfg domain.
Proof.
  unfold addHreflangLinks.
  destruct (hreflangTags_begin domain pathname (defaultLangOf cfg) (targetLangsOf cfg))
    as [r ->].
  rewrite append_assoc.
  match goal with
  | |- context [Str.replace _ "</head>" (?q +:+ ?r)] =>
      apply (guarded_replace_idempotent "hreflang=" "</head>" q r)
  end; vm_compute; reflexivity.
Qed.

Lemma injectLanguageSwitcher_idempotent html cfg names :
  injectLanguageSwitcher (injectLanguageSwitcher html cfg names) cfg names
  = injectLanguageSwitcher html cfg names.
Proof.
  unfold injectLanguageSwitcher, switcherMarkup.
  rewrite append_assoc.
  match goal with
  | |- context [Str.replace _ "</body>" (?q +:+ ?r)] =>
      apply (guarded_replace_idempotent "altified-lang-switcher" "</body>" q r)
  end; vm_compute; reflexivity.
Qed.

(** C6.  Each of the five injectors gives, applied to its own output, that
    output again, for every HTML text and every configuration. *)
Theorem injectors_are_idempotent
        (html lang apiKey pathname domain : string) (cfg : ProjectConfig)
        (names : gmap string string) :
  injectAutoTranslation (injectAutoTranslation html lang apiKey) lang apiKey
  = injectAutoTranslation html lang apiKey
  /\ injectLanguageContext (injectLanguageContext html lang) lang
     = injectLanguageContext html lang
  /\ addHreflangLinks (addHreflangLinks html pathname cfg domain) pathname cfg domain
     = addHreflangLinks html pathname cfg domain
  /\ injectLanguageSwitcher (injectLanguageSwitcher html cfg names) cfg names
     = injectLanguageSwitcher html cfg names
  /\ injectAutoLanguageDetection (injectAutoLanguageDetection html cfg) cfg
     = injectAutoLanguageDetection html cfg.
Proof.
  split; [apply injectAutoTranslation_idempotent|].
  split; [apply injectLanguageContext_idempotent|].
  split; [apply addHreflangLinks_idempotent|].
  split; [apply injectLanguageSwitcher_idempotent|].
  apply injectAutoLanguageDetection_idempotent.
Qed.

(** Every injector hands back a page that already holds its marker. *)
Lemma injectors_skip_marked_pages
      (html lang apiKey pathname domain : string) (cfg : ProjectConfig)
      (names : gmap string string) :
  (Str.includes html "__ALTIFIED_AUTO_TRANSLATE__" = true ->
   injectAutoTranslation html lang apiKey = html)
  /\ (Str.includes html "__ALTIFIED_CONTEXT__" = true ->
      injectLanguageContext html lang = html)
  /\ (Str.includes html "hreflang=" = true ->
      addHreflangLinks html pathname cfg domain = html)
  /\ (Str.includes html "altified-lang-switcher" = true ->
      injectLanguageSwitcher html cfg names = html)
  /\ (Str.includes html "__ALTIFIED_AUTO_LANG_DETECT__" = true ->
      injectAutoLanguageDetection html cfg = html).
Proof.
  unfold injectAutoTranslation, injectLanguageContext, addHreflangLinks,
    injectLanguageSwitcher, injectAutoLanguageDetection.
  repeat split; intros ->; reflexivity.
Qed.

(** ** Responses of the origin that are not OK *)

(** The translated-page pipeline returns a response that is not OK as it
    got it, and stores nothing. *)
Lemma handleTranslatedRequest_passes_error_through
      (env : Env) (request : Url) (lang originalPath : string)
      (cfg : ProjectConfig) (r : Response) :
  pageCache env request lang = None ->
  origin env (mkUrl (u_origin request)
                    (if Str.truthy originalPath then originalPath else "/")
                    (u_search request)) = Resolved r ->
  ok r = false ->
  response (handleTranslatedRequest env request lang originalPath cfg) = Resolved r
  /\ stored (handleTranslatedRequest env request lang originalPath cfg) = None.
Proof.
  intros Hc Ho Hok. unfold handleTranslatedRequest.
  rewrite Hc, Ho, Hok. split; reflexivity.
Qed.

(** C3 breaks in the default-page pipeline, which never looks at the
    status: an HTML error page of the origin is served with the detection
    script and the switcher injected, where the translated-page pipeline
    hands the same page through untouched. *)
Theorem handleDefaultLanguagePage_augments_error_page :
  ok Samples.notFoundPage = false
  /\ response (fetch Samples.missingEverywhere Samples.missingFrenchUrl)
     = Resolved Samples.notFoundPage
  /\ match response (fetch Samples.missingEverywhere Samples.missingUrl) with
     | Resolved r =>
         status r = 404
         /\ Str.eqb (body r) (body Samples.notFoundPage) = false
         /\ Str.includes (body r) "__ALTIFIED_AUTO_LANG_DETECT__" = true
         /\ Str.includes (body r) "altified-lang-switcher" = true
     | Rejected => False
     end.
Proof. repeat split; vm_compute; reflexivity. Qed.

(** ** The document tree *)

(** Induction on a subtree, with the property at hand for every child. *)
Lemma Node_induction (P : Node -> Prop) :
  (forall id v, P (Text id v)) ->
  (forall id d, P (Comment id d)) ->
  (forall id tag attrs children,
      Forall P children -> P (Element id tag attrs children)) ->
  forall n, P n.
Proof.
  intros HT HC HE. fix IH 1. intros [id v|id d|id tag attrs children].
  - apply HT.
  - apply HC.
  - apply HE. induction children as [|c cs IHcs]; constructor.
    + apply IH.
    + exact IHcs.
Qed.

Lemma flat_map_map_compose {A B C : Type} (f : A -> B) (g : B -> list C) (l : list A) :
  flat_map g (map f l) = flat_map (fun x => g (f x)) l.
Proof. induction l as [|x l IH]; simpl; [reflexivity|]. rewrite IH. reflexivity. Qed.

Lemma flat_map_pointwise {A B : Type} (f g : A -> list B) (l : list A) :
  Forall (fun x => f x = g x) l -> flat_map f l = flat_map g l.
Proof. induction 1 as [|x l Hx _ IH]; simpl; [reflexivity|]. rewrite Hx, IH. reflexivity. Qed.

Lemma map_flat_map {A B C : Type} (h : B -> C) (g : A -> list B) (l : list A) :
  map h (flat_map g l) = flat_map (fun x => map h (g x)) l.
Proof.
  induction l as [|x l IH]; simpl; [reflexivity|].
  rewrite map_app, IH. reflexivity.
Qed.

(** *** What a write changes in what the walkers see *)

Lemma treeWalkerText_setNodeValue (target : nat) (v : string) (n : Node) :
  forall above,
    treeWalkerText above (setNodeValue target v n)
    = map (retext target v) (treeWalkerText above n).
Proof.
  induction n as [id old|id d|id tag attrs children IH] using Node_induction;
    intros above.
  - simpl. destruct (Nat.eqb id target); reflexivity.
  - reflexivity.
  - cbn [setNodeValue treeWalkerText].
    rewrite flat_map_map_compose, map_flat_map.
    apply flat_map_pointwise.
    eapply Forall_impl; [exact IH|]. intros c Hc. cbv beta in *.
    destruct c as [tid tv|cid cd|cid ctag cattrs cchildren].
    + cbn [setNodeValue]. unfold retext. cbn [map t_id t_parentElement].
      destruct (Nat.eqb tid target); reflexivity.
    + reflexivity.
    + apply Hc.
Qed.

Lemma descendantElements_setNodeValue (target : nat) (v : string) (n : Node) :
  descendantElements (setNodeValue target v n) = descendantElements n.
Proof.
  induction n as [id old|id d|id tag attrs children IH] using Node_induction.
  - simpl. destruct (Nat.eqb id target); reflexivity.
  - reflexivity.
  - cbn [setNodeValue descendantElements].
    rewrite flat_map_map_compose. apply flat_map_pointwise.
    eapply Forall_impl; [exact IH|]. intros c Hc. cbv beta in *.
    destruct c as [tid tv|cid cd|cid ctag cattrs cchildren].
    + cbn [setNodeValue]. destruct (Nat.eqb tid target); reflexivity.
    + reflexivity.
    + cbn [setNodeValue] in *. f_equal. exact Hc.
Qed.

Lemma getAttribute_setAttribute_same name v attrs :
  getAttribute name (setAttribute name v attrs) = Some v.
Proof.
  induction attrs as [|[k w] attrs IH]; simpl.
  - rewrite str_eqb_refl. reflexivity.
  - destruct (Str.eqb k name) eqn:Hk; simpl; rewrite Hk; [reflexivity|exact IH].
Qed.

Lemma getAttribute_setAttribute_other name name' v attrs :
  name <> name' ->
  getAttribute name' (setAttribute name v attrs) = getAttribute name' attrs.
Proof.
  intros Hne. induction attrs as [|[k w] attrs IH]; simpl.
  - destruct (Str.eqb name name') eqn:Hk; [|reflexivity].
    apply str_eqb_eq in Hk. contradiction.
  - destruct (Str.eqb k name) eqn:Hk; simpl.
    + apply str_eqb_eq in Hk. subst k.
      destruct (Str.eqb name name') eqn:Hk; [|reflexivity].
      apply str_eqb_eq in Hk. contradiction.
    + rewrite IH. reflexivity.
Qed.

Lemma translateNo_setAttribute name v attrs :
  name <> "translate" ->
  translateNo (setAttribute name v attrs) = translateNo attrs.
Proof.
  intros Hne. unfold translateNo.
  rewrite getAttribute_setAttribute_other by exact Hne. reflexivity.
Qed.

Lemma treeWalkerText_setElementAttribute (target : nat) (name v : string) (n : Node) :
  name <> "translate" ->
  forall above,
    treeWalkerText above (setElementAttribute target name v n)
    = treeWalkerText above n.
Proof.
  intros Hne.
  induction n as [id old|id d|id tag attrs children IH] using Node_induction;
    intros above; try reflexivity.
  cbn [setElementAttribute treeWalkerText].
  assert (Hno : translateNo (if Nat.eqb id target then setAttribute name v attrs
                             else attrs) = translateNo attrs).
  { destruct (Nat.eqb id target); [apply translateNo_setAttribute; exact Hne|reflexivity]. }
  rewrite Hno, flat_map_map_compose. apply flat_map_pointwise.
  eapply Forall_impl; [exact IH|]. intros c Hc. cbv beta in *.
  destruct c as [tid tv|cid cd|cid ctag cattrs cchildren]; try reflexivity.
  apply Hc.
Qed.

Lemma descendantElements_setElementAttribute (target : nat) (name v : string) (n : Node) :
  descendantElements (setElementAttribute target name v n)
  = map (reattr target name v) (descendantElements n).
Proof.
  induction n as [id old|id d|id tag attrs children IH] using Node_induction;
    try reflexivity.
  cbn [setElementAttribute descendantElements].
  rewrite flat_map_map_compose, map_flat_map. apply flat_map_pointwise.
  eapply Forall_impl; [exact IH|]. intros c Hc. cbv beta in *.
  destruct c as [tid tv|cid cd|cid ctag cattrs cchildren]; try reflexivity.
  cbn [setElementAttribute map] in *. rewrite Hc. f_equal.
  unfold reattr. cbn [e_id e_tagName e_attributes].
  destruct (Nat.eqb cid target); reflexivity.
Qed.

(** *** Node identities *)

(** The identities of the text nodes and of the elements below a node are
    among the identities below that node, each once. *)
Lemma ids_below (n : Node) :
  forall above,
    map t_id (treeWalkerText above n) ++ map e_id (descendantElements n)
    ⊆+ tail (nodeIds n).
Proof.
  induction n as [id old|id d|id tag attrs children IH] using Node_induction;
    intros above; try apply submseteq_nil_l.
  cbn [treeWalkerText descendantElements nodeIds tail].
  generalize (above || translateNo attrs). intros no.
  induction IH as [|c cs Hc _ IHcs]; [constructor|].
  cbn [flat_map]. rewrite !map_app.
  match goal with
  | |- (?t1 ++ ?t2) ++ (?e1 ++ ?e2) ⊆+ _ =>
      trans ((t1 ++ e1) ++ (t2 ++ e2));
        [apply Permutation_submseteq;
         rewrite <- !app_assoc; apply Permutation_app_head;
         rewrite !app_assoc; apply Permutation_app_tail;
         apply Permutation_app_comm|]
  end.
  apply submseteq_app; [|exact IHcs].
  destruct c as [tid tv|cid cd|cid ctag cattrs cchildren].
  - reflexivity.
  - apply submseteq_nil_l.
  - cbn [map e_id nodeIds]. specialize (Hc no). cbn [nodeIds tail] in Hc.
    trans (cid :: (map t_id (treeWalkerText no (Element cid ctag cattrs cchildren))
                   ++ map e_id (descendantElements (Element cid ctag cattrs cchildren)))).
    + apply Permutation_submseteq. symmetry. apply Permutation_middle.
    + apply submseteq_skip. exact Hc.
Qed.

Lemma wellFormed_ids (above : bool) (root : Node) :
  wellFormed root ->
  NoDup (map t_id (treeWalkerText above root)
         ++ map e_id (descendantElements root)).
Proof.
  unfold wellFormed. intros Hnd.
  destruct (submseteq_Permutation _ _ (ids_below root above)) as [k Hk].
  assert (Htl : NoDup (tail (nodeIds root))).
  { destruct (nodeIds root); [constructor|]. apply NoDup_cons in Hnd as [_ H]. exact H. }
  rewrite Hk in Htl. apply NoDup_app in Htl as [H _]. exact H.
Qed.

Lemma NoDup_map_In_eq {A B : Type} (f : A -> B) (l : list A) (x y : A) :
  NoDup (map f l) -> In x l -> In y l -> f x = f y -> x = y.
Proof.
  induction l as [|a l IH]; simpl; intros Hnd Hx Hy Hf; [destruct Hx|].
  apply NoDup_cons in Hnd as [Ha Hnd].
  destruct Hx as [->|Hx], Hy as [->|Hy]; auto.
  - exfalso. apply Ha. rewrite Hf. apply list_elem_of_In, in_map. exact Hy.
  - exfalso. apply Ha. rewrite <- Hf. apply list_elem_of_In, in_map. exact Hx.
Qed.

(** Two references to text nodes of a well-formed subtree with one
    identity are one reference. *)
Lemma text_refs_by_id above root r1 r2 :
  wellFormed root ->
  In r1 (treeWalkerText above root) -> In r2 (treeWalkerText above root) ->
  t_id r1 = t_id r2 -> r1 = r2.
Proof.
  intros Hwf. apply NoDup_map_In_eq.
  apply (wellFormed_ids above) in Hwf. apply NoDup_app in Hwf as [H _]. exact H.
Qed.

Lemma elem_refs_by_id root e1 e2 :
  wellFormed root ->
  In e1 (descendantElements root) -> In e2 (descendantElements root) ->
  e_id e1 = e_id e2 -> e1 = e2.
Proof.
  intros Hwf. apply NoDup_map_In_eq.
  apply (wellFormed_ids false) in Hwf. apply NoDup_app in Hwf as (_ & _ & H). exact H.
Qed.

(** No text node shares its identity with an element. *)
Lemma text_id_not_element above root r e :
  wellFormed root ->
  In r (treeWalkerText above root) -> In e (descendantElements root) ->
  t_id r <> e_id e.
Proof.
  intros Hwf Hr He Heq.
  apply (wellFormed_ids above) in Hwf. apply NoDup_app in Hwf as (_ & Hdis & _).
  apply (Hdis (t_id r)).
  - apply list_elem_of_In, in_map. exact Hr.
  - rewrite Heq. apply list_elem_of_In, in_map. exact He.
Qed.

(** ** The apply phase as a sequence of assignments *)

Lemma applyTextNode_fold cache (textNodes : list TextRef) :
  forall (pre post : list string) (acc : Node * gset nat),
    fold_left (applyTextNode cache
                 (pre ++ map (fun n => Str.trim (t_nodeValue n)) textNodes ++ post))
              (combine (seq (List.length pre) (List.length textNodes)) textNodes) acc
    = fold_left writeText (textWrites cache textNodes) acc.
Proof.
  induction textNodes as [|n ns IH]; intros pre post acc; [reflexivity|].
  cbn [List.length seq combine map fold_left textWrites flat_map].
  rewrite fold_left_app.
  assert (Hstep : applyTextNode cache
                    (pre ++ (Str.trim (t_nodeValue n)
                             :: map (fun n => Str.trim (t_nodeValue n)) ns) ++ post)
                    acc (List.length pre, n)
                  = fold_left writeText
                      match translationFor cache (Some (Str.trim (t_nodeValue n))) with
                      | Some tr => [(t_id n, tr)]
                      | None => []
                      end acc).
  { unfold applyTextNode. cbn [app].
    rewrite (list_lookup_middle pre _ _ (List.length pre) eq_refl).
    destruct (translationFor cache (Some (Str.trim (t_nodeValue n)))); reflexivity. }
  rewrite <- Hstep. clear Hstep.
  specialize (IH (pre ++ [Str.trim (t_nodeValue n)]) post).
  rewrite length_app, Nat.add_1_r, <- app_assoc in IH. cbn [app] in *.
  apply IH.
Qed.

Lemma applyAttrNode_fold cache (offset : nat) (attrNodes : list AttrRef) :
  forall (k : nat) (pre post : list string) (acc : Node * gset nat),
    List.length pre = offset + k ->
    fold_left (applyAttrNode cache (pre ++ map text attrNodes ++ post) offset)
              (combine (seq k (List.length attrNodes)) attrNodes) acc
    = fold_left writeAttr (attrWrites cache attrNodes) acc.
Proof.
  induction attrNodes as [|a l IH]; intros k pre post acc Hlen; [reflexivity|].
  cbn [List.length seq combine map fold_left attrWrites flat_map].
  rewrite fold_left_app.
  assert (Hstep : applyAttrNode cache (pre ++ (text a :: map text l) ++ post) offset
                                acc (k, a)
                  = fold_left writeAttr
                      match translationFor cache (Some (text a)) with
                      | Some tr => [(e_id (element a), attribute a, tr)]
                      | None => []
                      end acc).
  { unfold applyAttrNode. cbn [app].
    rewrite (list_lookup_middle pre _ _ (offset + k) (eq_sym Hlen)).
    destruct (translationFor cache (Some (text a))); reflexivity. }
  rewrite <- Hstep. clear Hstep.
  specialize (IH (S k) (pre ++ [text a]) post).
  rewrite <- app_assoc in IH. cbn [app] in *.
  apply IH. rewrite length_app, Hlen. simpl. lia.
Qed.

(** The two loops of the apply phase perform the assignments listed by
    [textWrites] and [attrWrites]: the positions in [texts] pair every
    candidate with its own source string. *)
Lemma applyTranslations_writes cache textNodes attrNodes acc :
  applyTranslations cache (textsOf textNodes attrNodes) textNodes attrNodes acc
  = fold_left writeAttr (attrWrites cache attrNodes)
              (fold_left writeText (textWrites cache textNodes) acc).
Proof.
  unfold applyTranslations, indexed, textsOf.
  pose proof (applyTextNode_fold cache textNodes [] (map text attrNodes) acc) as Ht.
  cbn [app List.length] in Ht. rewrite Ht. clear Ht.
  pose proof (applyAttrNode_fold cache (List.length textNodes) attrNodes 0
                (map (fun n => Str.trim (t_nodeValue n)) textNodes) []) as Ha.
  rewrite app_nil_r in Ha. apply Ha. rewrite length_map. lia.
Qed.

(** *** The marker set after the assignments *)

Lemma writeText_marks ws : forall acc id,
  id ∈ snd (fold_left writeText ws acc)
  <-> id ∈ snd acc \/ exists v, In (id, v) ws.
Proof.
  induction ws as [|[i v] ws IH]; intros acc id; simpl.
  - split; [auto|intros [H|[v []]]; exact H].
  - rewrite IH. simpl. rewrite elem_of_union, elem_of_singleton. split.
    + intros [[->|H]|[v' H]]; eauto.
    + intros [H|[v' [[= -> ->]|H]]]; eauto.
Qed.

Lemma writeAttr_marks ws : forall acc id,
  id ∈ snd (fold_left writeAttr ws acc)
  <-> id ∈ snd acc \/ exists name v, In (id, name, v) ws.
Proof.
  induction ws as [|[[i nm] v] ws IH]; intros acc id; simpl.
  - split; [auto|intros [H|(nm & v & [])]; exact H].
  - rewrite IH. simpl. rewrite elem_of_union, elem_of_singleton. split.
    + intros [[->|H]|(nm' & v' & H)]; eauto 6.
    + intros [H|(nm' & v' & [[= -> -> ->]|H])]; eauto 6.
Qed.

(** *** The tree after the assignments *)

Lemma writeText_descendants ws : forall acc,
  descendantElements (fst (fold_left writeText ws acc)) = descendantElements (fst acc).
Proof.
  induction ws as [|w ws IH]; intros acc; simpl; [reflexivity|].
  rewrite IH. simpl. apply descendantElements_setNodeValue.
Qed.

Lemma writeAttr_text ws above :
  (forall id name v, In (id, name, v) ws -> name <> "translate") ->
  forall acc,
    treeWalkerText above (fst (fold_left writeAttr ws acc))
    = treeWalkerText above (fst acc).
Proof.
  induction ws as [|[[i nm] v] ws IH]; intros Hnames acc; simpl; [reflexivity|].
  rewrite IH by (intros; eapply Hnames; right; eassumption).
  simpl. apply treeWalkerText_setElementAttribute.
  eapply Hnames. left. reflexivity.
Qed.

Lemma text_write_dec (ws : list (nat * string)) (id : nat) :
  (exists v, In (id, v) ws) \/ (forall v, ~ In (id, v) ws).
Proof.
  induction ws as [|[i v] ws [[v' H]|H]].
  - right. intros v [].
  - left. exists v'. right. exact H.
  - destruct (Nat.eq_dec i id) as [->|Hne].
    + left. exists v. left. reflexivity.
    + right. intros v' [[= -> ->]|Hin]; [contradiction|]. exact (H v' Hin).
Qed.

(** A text node that is assigned to holds the value assigned; one that is
    not assigned to is as before.  All assignments to one node carry one
    value. *)
Lemma writeText_text above ws :
  (forall id v v', In (id, v) ws -> In (id, v') ws -> v = v') ->
  forall acc r,
    In r (treeWalkerText above (fst acc)) ->
    (forall v, In (t_id r, v) ws ->
               In (mkTextRef (t_id r) v (t_parentElement r))
                  (treeWalkerText above (fst (fold_left writeText ws acc))))
    /\ ((forall v, ~ In (t_id r, v) ws) ->
        In r (treeWalkerText above (fst (fold_left writeText ws acc)))).
Proof.
  induction ws as [|[i v0] ws IH]; intros Hfun acc r Hr.
  - split; [intros v []|intros _; exact Hr].
  - assert (Hfun' : forall id v v', In (id, v) ws -> In (id, v') ws -> v = v')
      by (intros id v v' H1 H2; eapply Hfun; right; eassumption).
    assert (Hr1 : In (retext i v0 r)
                     (treeWalkerText above (fst (writeText acc (i, v0))))).
    { cbn [writeText fst snd]. rewrite treeWalkerText_setNodeValue.
      apply in_map. exact Hr. }
    assert (Hid : t_id (retext i v0 r) = t_id r
                  /\ t_parentElement (retext i v0 r) = t_parentElement r).
    { unfold retext. destruct (Nat.eqb (t_id r) i); split; reflexivity. }
    destruct Hid as [Hid Hpar].
    destruct (IH Hfun' (writeText acc (i, v0)) (retext i v0 r) Hr1) as [IH1 IH2].
    rewrite Hid, Hpar in IH1. rewrite Hid in IH2.
    cbn [fold_left]. split.
    + intros v Hv. destruct (text_write_dec ws (t_id r)) as [[v' Hv']|Hnone].
      * assert (v = v') by (eapply Hfun; [exact Hv|right; exact Hv']). subst v'.
        apply IH1. exact Hv'.
      * destruct Hv as [[= -> ->]|Hv]; [|exfalso; exact (Hnone v Hv)].
        specialize (IH2 Hnone). unfold retext in IH2.
        rewrite Nat.eqb_refl in IH2. exact IH2.
    + intros Hnone.
      assert (Hne : Nat.eqb (t_id r) i = false).
      { apply Nat.eqb_neq. intros Heq. apply (Hnone v0). rewrite Heq. left. reflexivity. }
      assert (Hsame : retext i v0 r = r) by (unfold retext; rewrite Hne; reflexivity).
      rewrite Hsame in IH2. apply IH2. intros v Hv. apply (Hnone v). right. exact Hv.
Qed.

Lemma writeAttr_descendants ws : forall acc,
  descendantElements (fst (fold_left writeAttr ws acc))
  = map (rewritten ws) (descendantElements (fst acc)).
Proof.
  induction ws as [|[[i nm] v] ws IH]; intros acc; cbn [fold_left].
  - unfold rewritten. simpl. rewrite map_id. reflexivity.
  - rewrite IH. cbn [writeAttr fst snd].
    rewrite descendantElements_setElementAttribute, map_map. reflexivity.
Qed.

Lemma rewritten_id ws : forall e,
  e_id (rewritten ws e) = e_id e /\ e_tagName (rewritten ws e) = e_tagName e.
Proof.
  induction ws as [|[[i nm] v] ws IH]; intros e; [split; reflexivity|].
  unfold rewritten in *. cbn [fold_left fst snd].
  destruct (IH (reattr i nm v e)) as [-> ->].
  unfold reattr. destruct (Nat.eqb (e_id e) i); split; reflexivity.
Qed.

Lemma attr_write_dec (ws : list (nat * string * string)) (id : nat) (name : string) :
  (exists v, In (id, name, v) ws) \/ (forall v, ~ In (id, name, v) ws).
Proof.
  induction ws as [|[[i nm] v] ws [[v' H]|H]].
  - right. intros v [].
  - left. exists v'. right. exact H.
  - destruct (Nat.eq_dec i id) as [->|Hne].
    + destruct (String.string_dec nm name) as [->|Hnm].
      * left. exists v. left. reflexivity.
      * right. intros v' [[= -> ->]|Hin]; [contradiction|]. exact (H v' Hin).
    + right. intros v' [[= -> -> ->]|Hin]; [contradiction|]. exact (H v' Hin).
Qed.

(** An attribute that no assignment names keeps its value. *)
Lemma rewritten_other ws name : forall e,
  (forall v, ~ In (e_id e, name, v) ws) ->
  getAttribute name (e_attributes (rewritten ws e))
  = getAttribute name (e_attributes e).
Proof.
  induction ws as [|[[i nm] v] ws IH]; intros e Hnone; [reflexivity|].
  unfold rewritten in *. cbn [fold_left fst snd].
  rewrite IH.
  - unfold reattr. destruct (Nat.eqb (e_id e) i) eqn:Hi; [|reflexivity].
    cbn [e_attributes]. apply getAttribute_setAttribute_other.
    intros ->. apply Nat.eqb_eq in Hi. apply (Hnone v). rewrite Hi. left. reflexivity.
  - intros v' Hin. apply (Hnone v'). right.
    replace (e_id e) with (e_id (reattr i nm v e)); [exact Hin|].
    unfold reattr. destruct (Nat.eqb (e_id e) i); reflexivity.
Qed.

(** An attribute that is assigned to holds the value assigned. *)
Lemma rewritten_written ws :
  (forall id name v v', In (id, name, v) ws -> In (id, name, v') ws -> v = v') ->
  forall e name v,
    In (e_id e, name, v) ws ->
    getAttribute name (e_attributes (rewritten ws e)) = Some v.
Proof.
  induction ws as [|[[i nm] v0] ws IH]; intros Hfun e name v Hin; [destruct Hin|].
  assert (Hfun' : forall id name v v',
             In (id, name, v) ws -> In (id, name, v') ws -> v = v')
    by (intros id n' v1 v2 H1 H2; eapply Hfun; right; eassumption).
  assert (Hid : e_id (reattr i nm v0 e) = e_id e)
    by (unfold reattr; destruct (Nat.eqb (e_id e) i); reflexivity).
  change (rewritten ((i, nm, v0) :: ws) e) with (rewritten ws (reattr i nm v0 e)).
  destruct (attr_write_dec ws (e_id e) name) as [[v' Hv']|Hnone].
  - assert (v = v') by (eapply Hfun; [exact Hin|right; exact Hv']). subst v'.
    apply IH; [exact Hfun'|]. rewrite Hid. exact Hv'.
  - destruct Hin as [[= -> -> ->]|Hin]; [|exfalso; exact (Hnone v Hin)].
    rewrite rewritten_other by (rewrite Hid; exact Hnone).
    unfold reattr. rewrite Nat.eqb_refl. cbn [e_attributes].
    apply getAttribute_setAttribute_same.
Qed.

(** An element that no assignment names is as before. *)
Lemma rewritten_untouched ws : forall e,
  (forall name v, ~ In (e_id e, name, v) ws) -> rewritten ws e = e.
Proof.
  induction ws as [|[[i nm] v0] ws IH]; intros e Hnone; [reflexivity|].
  change (rewritten ((i, nm, v0) :: ws) e) with (rewritten ws (reattr i nm v0 e)).
  assert (Hsame : reattr i nm v0 e = e).
  { unfold reattr. destruct (Nat.eqb (e_id e) i) eqn:Hi; [|reflexivity].
    apply Nat.eqb_eq in Hi. exfalso. apply (Hnone nm v0). rewrite Hi. left. reflexivity. }
  rewrite Hsame. apply IH. intros name v Hin. apply (Hnone name v). right. exact Hin.
Qed.

Lemma find_map_invariant {A : Type} (p : A -> bool) (u : A -> A) (l : list A) :
  (forall x, p (u x) = p x) ->
  List.find p (map u l) = option_map u (List.find p l).
Proof.
  intros Hp. induction l as [|x l IH]; simpl; [reflexivity|].
  rewrite Hp. destruct (p x); [reflexivity|exact IH].
Qed.

(** Assignments to attributes other than [key] do not change which
    element [meta[key="value"]] selects. *)
Lemma matchesMeta_rewritten ws key value e :
  (forall id name v, In (id, name, v) ws -> name <> key) ->
  matchesMeta key value (rewritten ws e) = matchesMeta key value e.
Proof.
  intros Hnames. unfold matchesMeta.
  destruct (rewritten_id ws e) as [_ ->].
  rewrite rewritten_other; [reflexivity|].
  intros v Hin. exact (Hnames _ _ _ Hin eq_refl).
Qed.

(** ** The cache *)

Lemma cacheSound_empty : cacheSound ∅.
Proof. intros k v H. rewrite lookup_empty in H. discriminate. Qed.

Lemma storeTranslation_sound cache t :
  cacheSound cache -> cacheSound (storeTranslation cache t).
Proof.
  intros Hs. unfold storeTranslation.
  destruct t as [[[o|] [tr|]]|]; try exact Hs.
  destruct (Str.truthy o); [|exact Hs].
  destruct (Str.truthy tr) eqn:Htr; [|exact Hs]. cbn [andb].
  intros k v. rewrite lookup_insert. destruct (decide (o = k)).
  - intros [= <-]. exact Htr.
  - apply Hs.
Qed.

Lemma mergeReply_sound cache r : cacheSound cache -> cacheSound (mergeReply cache r).
Proof.
  intros Hs. unfold mergeReply. destruct r as [|status [|[ts|]]]; try exact Hs;
    destruct (Engine.ok status); try exact Hs.
  revert cache Hs. induction ts as [|t ts IH]; intros cache Hs; [exact Hs|].
  simpl. apply IH, storeTranslation_sound, Hs.
Qed.

(** [translateTexts] only ever stores non-empty translations. *)
Lemma translateTexts_sound server cache texts :
  cacheSound cache -> cacheSound (fst (translateTexts server cache texts)).
Proof.
  intros Hs. unfold translateTexts. destruct (toTranslate cache texts); [exact Hs|].
  apply mergeReply_sound, Hs.
Qed.

(** With such a cache the test of the apply phase, [translated &&
    translated !== source], is the test for a translation that differs
    from the source. *)
Lemma translationFor_Some cache src tr :
  cacheSound cache ->
  translationFor cache (Some src) = Some tr <-> translatedTo cache src tr.
Proof.
  intros Hs. unfold translationFor, translatedTo.
  destruct (cache !! src) as [v|] eqn:Hv.
  - rewrite (Hs src v Hv). cbn [andb].
    destruct (Str.eqb v src) eqn:He; cbn [negb].
    + apply str_eqb_eq in He. subst v. split; [discriminate|intros [[= <-] H]; contradiction].
    + apply str_eqb_neq in He. split.
      * intros [= <-]. auto.
      * intros [[= <-] _]. reflexivity.
  - split; [discriminate|intros [H _]; discriminate].
Qed.

Lemma translationFor_None cache src :
  untranslated cache src -> translationFor cache (Some src) = None.
Proof.
  unfold translationFor. intros [->| ->]; [reflexivity|].
  rewrite str_eqb_refl. cbn [negb]. rewrite andb_false_r. reflexivity.
Qed.

(** ** Candidates *)

Lemma textWrites_In cache textNodes id v :
  In (id, v) (textWrites cache textNodes)
  <-> exists c, In c textNodes /\ t_id c = id
                /\ translationFor cache (Some (Str.trim (t_nodeValue c))) = Some v.
Proof.
  unfold textWrites. rewrite in_flat_map. split.
  - intros (c & Hc & Hin).
    destruct (translationFor cache (Some (Str.trim (t_nodeValue c)))) as [tr|] eqn:Ht;
      [|destruct Hin].
    destruct Hin as [[= <- <-]|[]]. eauto.
  - intros (c & Hc & <- & Ht). exists c. split; [exact Hc|].
    rewrite Ht. left. reflexivity.
Qed.

Lemma attrWrites_In cache attrNodes id name v :
  In (id, name, v) (attrWrites cache attrNodes)
  <-> exists a, In a attrNodes /\ e_id (element a) = id /\ attribute a = name
                /\ translationFor cache (Some (text a)) = Some v.
Proof.
  unfold attrWrites. rewrite in_flat_map. split.
  - intros (a & Ha & Hin).
    destruct (translationFor cache (Some (text a))) as [tr|] eqn:Ht; [|destruct Hin].
    destruct Hin as [[= <- <- <-]|[]]. eauto 6.
  - intros (a & Ha & <- & <- & Ht). exists a. split; [exact Ha|].
    rewrite Ht. left. reflexivity.
Qed.

Lemma querySelectorMeta_Some key value root el :
  querySelectorMeta key value root = Some el ->
  In el (descendantElements root) /\ matchesMeta key value el = true.
Proof. unfold querySelectorMeta. apply find_some. Qed.

Lemma translatableAttrs_names attr :
  In attr translatableAttrs \/ attr = "content" ->
  attr <> "translate" /\ attr <> "name" /\ attr <> "property".
Proof.
  unfold translatableAttrs.
  intros [[<-|[<-|[<-|[<-|[]]]]]| ->]; repeat split; discriminate.
Qed.

(** What the engine knows of an attribute candidate. *)
Lemma attribute_candidate isHead nodes root a :
  In a (collectAttributeNodes isHead nodes root) ->
  In (element a) (descendantElements root)
  /\ (attribute a <> "translate" /\ attribute a <> "name" /\ attribute a <> "property")
  /\ (e_id (element a) ∉ nodes)
  /\ exists val, getAttribute (attribute a) (e_attributes (element a)) = Some val
                 /\ text a = Str.trim val.
Proof.
  intros Hin. apply collectAttributeNodes_inv in Hin
    as [(el & attr & Hel & Hattr & Hc)|(_ & sel & el & _ & Hq & Hc)];
    apply attrCandidate_inv in Hc as (-> & Hm & val & Hval & Htext & _);
    cbn [element attribute text] in *.
  - split; [apply filter_In in Hel as [Hel _]; exact Hel|].
    split; [apply translatableAttrs_names; left; exact Hattr|].
    split; [exact Hm|]. exists val. split; [exact Hval|exact Htext].
  - split; [apply querySelectorMeta_Some in Hq as [Hel _]; exact Hel|].
    split; [apply translatableAttrs_names; right; reflexivity|].
    split; [exact Hm|]. exists val. split; [exact Hval|exact Htext].
Qed.

(** Two candidates for one attribute of one element carry one text. *)
Lemma attribute_candidates_agree isHead nodes root a b :
  wellFormed root ->
  In a (collectAttributeNodes isHead nodes root) ->
  In b (collectAttributeNodes isHead nodes root) ->
  e_id (element a) = e_id (element b) -> attribute a = attribute b ->
  text a = text b.
Proof.
  intros Hwf Ha Hb Hid Hattr.
  apply attribute_candidate in Ha as (Hea & _ & _ & va & Hva & ->).
  apply attribute_candidate in Hb as (Heb & _ & _ & vb & Hvb & ->).
  rewrite (elem_refs_by_id root _ _ Hwf Hea Heb Hid), Hattr in Hva.
  congruence.
Qed.

Lemma keepTextNode_marker isHead nodes nodes' r :
  keepTextNode isHead nodes r = true -> t_id r ∉ nodes' ->
  keepTextNode isHead nodes' r = true.
Proof.
  unfold keepTextNode. intros Hk Hr.
  destruct (marked nodes (t_id r)); [discriminate|].
  apply marked_false in Hr. rewrite Hr. exact Hk.
Qed.

(** The candidates re-appear in an extraction from a tree in which their
    element is unchanged and unmarked. *)
Lemma attrCandidate_marker nodes nodes' el attr a :
  In a (attrCandidate nodes el attr) -> e_id el ∉ nodes' ->
  In a (attrCandidate nodes' el attr).
Proof.
  unfold attrCandidate. intros Hin Hm.
  destruct (getAttribute attr (e_attributes el)) as [val|]; [|exact Hin].
  destruct (Str.truthy val && Str.truthy (Str.trim val)); [|exact Hin].
  apply marked_false in Hm. rewrite Hm.
  destruct (marked nodes (e_id el)); [destruct Hin|exact Hin].
Qed.

(** ** The apply phase *)

Lemma textsOf_nil textNodes attrNodes :
  textsOf textNodes attrNodes = [] -> textNodes = [] /\ attrNodes = [].
Proof.
  unfold textsOf. intros H. apply app_eq_nil in H as [H1 H2].
  apply map_eq_nil in H1, H2. auto.
Qed.

(** The outcome of a pass that has candidates. *)
Lemma translateCandidates_outcome server st root textNodes attrNodes :
  textsOf textNodes attrNodes <> [] ->
  let tt := translateTexts server (translationCache st) (textsOf textNodes attrNodes) in
  let final := fold_left writeAttr (attrWrites (fst tt) attrNodes)
                 (fold_left writeText (textWrites (fst tt) textNodes)
                            (root, translatedNodes st)) in
  translateCandidates server st root textNodes attrNodes
  = mkOutcome (fst final) (mkState (fst tt) (snd final)) (snd tt).
Proof.
  intros Hne. cbv zeta. unfold translateCandidates.
  rewrite <- (applyTranslations_writes _ textNodes attrNodes).
  destruct (translateTexts server (translationCache st)
                           (textsOf textNodes attrNodes)) as [cache posted].
  cbn [fst snd].
  destruct (applyTranslations cache (textsOf textNodes attrNodes)
                              textNodes attrNodes (root, translatedNodes st))
    as [root' nodes'].
  cbn [fst snd].
  destruct (textsOf textNodes attrNodes); [contradiction|reflexivity].
Qed.

Section ApplyPhase.

Variables (server : Collaborator) (isHead above : bool).
Variables (f : TextRef -> bool) (g : AttrRef -> bool).
Variables (st : State) (root : Node).
Hypothesis Hwf : wellFormed root.
Hypothesis Hsound : cacheSound (translationCache st).

Local Abbreviation textNodes :=
  (List.filter f (collectTextNodes isHead above (translatedNodes st) root)).
Local Abbreviation attrNodes :=
  (List.filter g (collectAttributeNodes isHead (translatedNodes st) root)).
Local Abbreviation cache' :=
  (fst (translateTexts server (translationCache st) (textsOf textNodes attrNodes))).
Local Abbreviation afterText :=
  (fold_left writeText (textWrites cache' textNodes) (root, translatedNodes st)).
Local Abbreviation final := (fold_left writeAttr (attrWrites cache' attrNodes) afterText).
Local Abbreviation out := (translateCandidates server st root textNodes attrNodes).

Lemma text_candidate c :
  In c textNodes ->
  In c (treeWalkerText above root)
  /\ keepTextNode isHead (translatedNodes st) c = true.
Proof.
  intros Hc. apply filter_In in Hc as [Hc _]. apply filter_In in Hc. exact Hc.
Qed.

Lemma attr_candidate a :
  In a attrNodes -> In a (collectAttributeNodes isHead (translatedNodes st) root).
Proof. intros Ha. apply filter_In in Ha as [Ha _]. exact Ha. Qed.

Lemma outcome_with_text c :
  In c textNodes ->
  o_root out = fst final /\ translationCache (o_state out) = cache'
  /\ translatedNodes (o_state out) = snd final.
Proof.
  intros Hc. rewrite translateCandidates_outcome; [repeat split|].
  intros Hnil. apply textsOf_nil in Hnil as [Hnil _]. rewrite Hnil in Hc. destruct Hc.
Qed.

Lemma outcome_with_attr a :
  In a attrNodes ->
  o_root out = fst final /\ translationCache (o_state out) = cache'
  /\ translatedNodes (o_state out) = snd final.
Proof.
  intros Ha. rewrite translateCandidates_outcome; [repeat split|].
  intros Hnil. apply textsOf_nil in Hnil as [_ Hnil]. rewrite Hnil in Ha. destruct Ha.
Qed.

Lemma cache'_sound : cacheSound cache'.
Proof. apply translateTexts_sound, Hsound. Qed.

Lemma textWrites_functional id v v' :
  In (id, v) (textWrites cache' textNodes) ->
  In (id, v') (textWrites cache' textNodes) -> v = v'.
Proof.
  intros H1 H2.
  apply textWrites_In in H1 as (c1 & Hc1 & Hid1 & Ht1).
  apply textWrites_In in H2 as (c2 & Hc2 & Hid2 & Ht2).
  apply text_candidate in Hc1 as [Hc1 _]. apply text_candidate in Hc2 as [Hc2 _].
  assert (c1 = c2)
    by (apply (text_refs_by_id above root); auto; congruence).
  subst c2. congruence.
Qed.

Lemma attrWrites_functional id name v v' :
  In (id, name, v) (attrWrites cache' attrNodes) ->
  In (id, name, v') (attrWrites cache' attrNodes) -> v = v'.
Proof.
  intros H1 H2.
  apply attrWrites_In in H1 as (a & Ha & Hida & Hna & Hta).
  apply attrWrites_In in H2 as (b & Hb & Hidb & Hnb & Htb).
  apply attr_candidate in Ha, Hb.
  assert (text a = text b)
    by (apply (attribute_candidates_agree isHead (translatedNodes st) root);
        auto; congruence).
  congruence.
Qed.

Lemma attrWrites_names id name v :
  In (id, name, v) (attrWrites cache' attrNodes) ->
  name <> "translate" /\ name <> "name" /\ name <> "property".
Proof.
  intros H. apply attrWrites_In in H as (a & Ha & _ & <- & _).
  apply attr_candidate, attribute_candidate in Ha as (_ & Hn & _). exact Hn.
Qed.

Lemma attrWrites_elements id name v :
  In (id, name, v) (attrWrites cache' attrNodes) ->
  exists e, In e (descendantElements root) /\ e_id e = id.
Proof.
  intros H. apply attrWrites_In in H as (a & Ha & <- & _).
  apply attr_candidate, attribute_candidate in Ha as (He & _). eauto.
Qed.

Lemma final_text :
  treeWalkerText above (fst final) = treeWalkerText above (fst afterText).
Proof.
  apply writeAttr_text. intros id name v H.
  apply attrWrites_names in H as [H _]. exact H.
Qed.

Lemma final_elements :
  descendantElements (fst final)
  = map (rewritten (attrWrites cache' attrNodes)) (descendantElements root).
Proof. rewrite writeAttr_descendants, writeText_descendants. reflexivity. Qed.

Lemma final_marks id :
  id ∈ snd final
  <-> id ∈ translatedNodes st
      \/ (exists v, In (id, v) (textWrites cache' textNodes))
      \/ (exists name v, In (id, name, v) (attrWrites cache' attrNodes)).
Proof. rewrite writeAttr_marks, writeText_marks. cbn [snd]. tauto. Qed.

(** A text candidate whose source has a translation gets it and is
    marked. *)
Lemma text_candidate_written c tr :
  In c textNodes ->
  translationFor cache' (Some (Str.trim (t_nodeValue c))) = Some tr ->
  In (mkTextRef (t_id c) tr (t_parentElement c)) (treeWalkerText above (fst final))
  /\ t_id c ∈ snd final.
Proof.
  intros Hc Ht.
  assert (Hw : In (t_id c, tr) (textWrites cache' textNodes))
    by (apply textWrites_In; eauto).
  split.
  - rewrite final_text.
    apply (writeText_text above _ textWrites_functional (root, translatedNodes st) c).
    + apply text_candidate in Hc as [Hc _]. exact Hc.
    + exact Hw.
  - apply final_marks. right. left. eauto.
Qed.

(** A text candidate whose source has no translation is left as it is,
    unmarked, and is a candidate of the next extraction. *)
Lemma text_candidate_untouched c :
  In c textNodes ->
  translationFor cache' (Some (Str.trim (t_nodeValue c))) = None ->
  In c (treeWalkerText above (fst final))
  /\ (t_id c ∉ snd final)
  /\ In c (collectTextNodes isHead above (snd final) (fst final)).
Proof.
  intros Hc Ht.
  destruct (text_candidate c Hc) as [Hwalk Hkeep].
  assert (Hnone : forall v, ~ In (t_id c, v) (textWrites cache' textNodes)).
  { intros v Hv. apply textWrites_In in Hv as (c' & Hc' & Hid & Ht').
    apply text_candidate in Hc' as [Hc' _].
    assert (c' = c) by (apply (text_refs_by_id above root); auto).
    subst c'. congruence. }
  assert (Hin : In c (treeWalkerText above (fst final))).
  { rewrite final_text.
    apply (writeText_text above _ textWrites_functional (root, translatedNodes st) c);
      assumption. }
  assert (Hm : t_id c ∉ snd final).
  { rewrite final_marks. intros [H|[[v H]|(name & v & H)]].
    - apply keepTextNode_unmarked in Hkeep. contradiction.
    - exact (Hnone v H).
    - apply attrWrites_elements in H as (e & He & Hid).
      apply (text_id_not_element above root c e Hwf Hwalk He). congruence. }
  split; [exact Hin|]. split; [exact Hm|].
  apply filter_In. split; [exact Hin|].
  eapply keepTextNode_marker; eassumption.
Qed.

(** An attribute candidate whose source has a translation gets it, and
    its element is marked. *)
Lemma attr_candidate_written a tr :
  In a attrNodes ->
  translationFor cache' (Some (text a)) = Some tr ->
  attributeIs (fst final) (e_id (element a)) (attribute a) (Some tr)
  /\ e_id (element a) ∈ snd final.
Proof.
  intros Ha Ht.
  assert (Hw : In (e_id (element a), attribute a, tr) (attrWrites cache' attrNodes))
    by (apply attrWrites_In; eauto 6).
  split.
  - exists (rewritten (attrWrites cache' attrNodes) (element a)).
    split; [|split].
    + rewrite final_elements. apply in_map.
      apply attr_candidate, attribute_candidate in Ha as (He & _). exact He.
    + apply rewritten_id.
    + apply rewritten_written; [exact attrWrites_functional|exact Hw].
  - apply final_marks. right. right. eauto.
Qed.

Lemma metaSelectors_keys sel :
  In sel metaSelectors -> fst sel = "name" \/ fst sel = "property".
Proof.
  unfold metaSelectors.
  intros [<-|[<-|[<-|[<-|[<-|[<-|[<-|[]]]]]]]]; simpl; auto.
Qed.

(** An attribute candidate whose source has no translation keeps its
    value.  Its element is marked only when another candidate of that
    element was translated in this pass; otherwise the candidate is a
    candidate of the next extraction. *)
Lemma attr_candidate_untouched a :
  In a attrNodes ->
  translationFor cache' (Some (text a)) = None ->
  attributeIs (fst final) (e_id (element a)) (attribute a)
              (getAttribute (attribute a) (e_attributes (element a)))
  /\ ((forall b, In b attrNodes -> e_id (element b) = e_id (element a) ->
                 translationFor cache' (Some (text b)) = None) ->
      (e_id (element a) ∉ snd final)
      /\ In a (collectAttributeNodes isHead (snd final) (fst final))).
Proof.
  intros Ha Ht.
  pose proof (attr_candidate a Ha) as Hcand.
  destruct (attribute_candidate _ _ _ _ Hcand) as (He & _ & Hunmarked & _).
  split.
  - exists (rewritten (attrWrites cache' attrNodes) (element a)).
    split; [|split].
    + rewrite final_elements. apply in_map. exact He.
    + apply rewritten_id.
    + apply rewritten_other. intros v Hv.
      apply attrWrites_In in Hv as (b & Hb & Hid & Hn & Htb).
      assert (text b = text a)
        by (apply (attribute_candidates_agree isHead (translatedNodes st) root);
            auto using attr_candidate).
      congruence.
  - intros Halone.
    assert (Hnone : forall name v,
               ~ In (e_id (element a), name, v) (attrWrites cache' attrNodes)).
    { intros name v Hv. apply attrWrites_In in Hv as (b & Hb & Hid & _ & Htb).
      rewrite (Halone b Hb Hid) in Htb. discriminate. }
    assert (Hsame : rewritten (attrWrites cache' attrNodes) (element a) = element a)
      by (apply rewritten_untouched; exact Hnone).
    assert (Hin : In (element a) (descendantElements (fst final))).
    { rewrite final_elements, <- Hsame. apply in_map. exact He. }
    assert (Hm : e_id (element a) ∉ snd final).
    { rewrite final_marks. intros [H|[[v H]|(name & v & H)]].
      - contradiction.
      - apply textWrites_In in H as (c & Hc & Hid & _).
        apply text_candidate in Hc as [Hc _].
        apply (text_id_not_element above root c (element a) Hwf Hc He). exact Hid.
      - exact (Hnone name v H). }
    split; [exact Hm|].
    apply collectAttributeNodes_inv in Hcand
      as [(el & attr & Hel & Hattr & Hc)|(Hhead & sel & el & Hsel & Hq & Hc)].
    + assert (element a = el)
        by (apply attrCandidate_inv in Hc as (-> & _); reflexivity).
      subst el. apply (collectAttributeNodes_standard _ _ _ (element a) attr).
      * apply filter_In. split; [exact Hin|].
        apply filter_In in Hel as [_ Hel]. exact Hel.
      * exact Hattr.
      * eapply attrCandidate_marker; eassumption.
    + assert (element a = el)
        by (apply attrCandidate_inv in Hc as (-> & _); reflexivity).
      subst el. rewrite Hhead at 1.
      apply (collectAttributeNodes_meta _ _ sel (element a)).
      * exact Hsel.
      * unfold querySelectorMeta in *. rewrite final_elements.
        rewrite find_map_invariant.
        -- rewrite Hq. cbn [option_map]. rewrite Hsame. reflexivity.
        -- intros x. apply matchesMeta_rewritten. intros id name v Hv.
           apply attrWrites_names in Hv as (_ & Hn1 & Hn2).
           destruct (metaSelectors_keys sel Hsel) as [-> | ->]; assumption.
      * eapply attrCandidate_marker; eassumption.
Qed.

End ApplyPhase.

(** C4, as the code has it.  In the apply phase of a pass, whatever part
    of the extraction the pass selected: a text node whose trimmed source
    the cache maps to a different value gets that value and is marked; a
    text node whose source is absent from the cache or mapped to itself
    keeps its value, stays unmarked and is a candidate of the next
    extraction from the subtree.  An attribute candidate whose source the
    cache maps to a different value has the value written to the attribute
    and its element marked; one whose source is absent or mapped to itself
    keeps the value of the attribute, and its element stays unmarked, and
    the candidate eligible, when no other attribute candidate of the same
    element was translated in the pass. *)
Theorem apply_phase_commits_translations
        (server : Collaborator) (isHead above : bool)
        (f : TextRef -> bool) (g : AttrRef -> bool) (st : State) (root : Node) :
  wellFormed root ->
  cacheSound (translationCache st) ->
  let textNodes := List.filter f (collectTextNodes isHead above (translatedNodes st) root) in
  let attrNodes := List.filter g (collectAttributeNodes isHead (translatedNodes st) root) in
  let out := translateCandidates server st root textNodes attrNodes in
  let cache := translationCache (o_state out) in
  let nodes := translatedNodes (o_state out) in
  (forall node, In node textNodes ->
     let src := Str.trim (t_nodeValue node) in
     (forall tr, translatedTo cache src tr ->
        In (mkTextRef (t_id node) tr (t_parentElement node))
           (treeWalkerText above (o_root out))
        /\ t_id node ∈ nodes)
     /\ (untranslated cache src ->
         In node (treeWalkerText above (o_root out))
         /\ (t_id node ∉ nodes)
         /\ In node (collectTextNodes isHead above nodes (o_root out))))
  /\ (forall a, In a attrNodes ->
        (forall tr, translatedTo cache (text a) tr ->
           attributeIs (o_root out) (e_id (element a)) (attribute a) (Some tr)
           /\ e_id (element a) ∈ nodes)
        /\ (untranslated cache (text a) ->
            attributeIs (o_root out) (e_id (element a)) (attribute a)
                        (getAttribute (attribute a) (e_attributes (element a)))
            /\ ((forall b tr, In b attrNodes ->
                              e_id (element b) = e_id (element a) ->
                              ~ translatedTo cache (text b) tr) ->
                (e_id (element a) ∉ nodes)
                /\ In a (collectAttributeNodes isHead nodes (o_root out))))).
Proof.
  intros Hwf Hsound. cbv zeta.
  pose proof (cache'_sound server isHead above f g st root Hsound) as Hs'.
  split.
  - intros node Hnode.
    destruct (outcome_with_text server isHead above f g st root node Hnode)
      as (-> & -> & ->).
    split.
    + intros tr Htr. apply (translationFor_Some _ _ _ Hs') in Htr.
      apply text_candidate_written; assumption.
    + intros Hun. apply translationFor_None in Hun.
      apply text_candidate_untouched; assumption.
  - intros a Ha.
    destruct (outcome_with_attr server isHead above f g st root a Ha)
      as (-> & -> & ->).
    split.
    + intros tr Htr. apply (translationFor_Some _ _ _ Hs') in Htr.
      apply attr_candidate_written; assumption.
    + intros Hun. apply translationFor_None in Hun.
      destruct (attr_candidate_untouched server isHead above f g st root
                  Hwf a Ha Hun) as [Hval Halone].
      split; [exact Hval|]. intros Hothers. apply Halone.
      intros b Hb Hid.
      destruct (translationFor _ (Some (text b))) as [tr|] eqn:Hb'; [|reflexivity].
      apply (translationFor_Some _ _ _ Hs') in Hb'.
      exfalso. exact (Hothers b tr Hb Hid Hb').
Qed.

(** The nodes of the sample page are distinct. *)
Lemma wellFormed_greetingCard : wellFormed Samples.greetingCard.
Proof. apply (bool_decide_unpack _). vm_compute. exact I. Defined.

(** The same for a page with two texts and two attributes, and a
    collaborator that only translates "Hello". *)
Lemma apply_phase_commits_translations_witness :
  wellFormed Samples.greetingCard
  /\ cacheSound (translationCache initialState)
  /\ let textNodes := List.filter Samples.everyText
                        (collectTextNodes false false (translatedNodes initialState)
                                          Samples.greetingCard) in
     let attrNodes := List.filter Samples.everyAttr
                        (collectAttributeNodes false (translatedNodes initialState)
                                               Samples.greetingCard) in
     let out := translateCandidates Samples.onlyHello initialState
                                    Samples.greetingCard textNodes attrNodes in
     let cache := translationCache (o_state out) in
     let nodes := translatedNodes (o_state out) in
     (forall node, In node textNodes ->
        let src := Str.trim (t_nodeValue node) in
        (forall tr, translatedTo cache src tr ->
           In (mkTextRef (t_id node) tr (t_parentElement node))
              (treeWalkerText false (o_root out))
           /\ t_id node ∈ nodes)
        /\ (untranslated cache src ->
            In node (treeWalkerText false (o_root out))
            /\ (t_id node ∉ nodes)
            /\ In node (collectTextNodes false false nodes (o_root out))))
     /\ (forall a, In a attrNodes ->
           (forall tr, translatedTo cache (text a) tr ->
              attributeIs (o_root out) (e_id (element a)) (attribute a) (Some tr)
              /\ e_id (element a) ∈ nodes)
           /\ (untranslated cache (text a) ->
               attributeIs (o_root out) (e_id (element a)) (attribute a)
                           (getAttribute (attribute a) (e_attributes (element a)))
               /\ ((forall b tr, In b attrNodes ->
                                 e_id (element b) = e_id (element a) ->
                                 ~ translatedTo cache (text b) tr) ->
                   (e_id (element a) ∉ nodes)
                   /\ In a (collectAttributeNodes false nodes (o_root out))))).
Proof.
  split; [exact wellFormed_greetingCard|].
  split; [exact cacheSound_empty|].
  exact (apply_phase_commits_translations Samples.onlyHello false false
           Samples.everyText Samples.everyAttr initialState Samples.greetingCard
           wellFormed_greetingCard cacheSound_empty).
Defined.

(** The scenario of the partial answer: of [<p>Hello</p><p>World</p>] the
    first text becomes "Bonjour" and is marked, the second stays "World",
    unmarked, and is extracted again by the next pass. *)
Lemma partial_answer_scenario :
  o_posted (translateContent Samples.onlyHello false false initialState
                             Samples.helloWorld)
  = Some ["Hello"; "World"]
  /\ o_root (translateContent Samples.onlyHello false false initialState
                              Samples.helloWorld)
     = Element 1 "BODY" []
         [ Element 2 "P" [] [Text 3 "Bonjour"];
           Element 4 "P" [] [Text 5 "World"] ]
  /\ map t_id
       (collectTextNodes false false
          (translatedNodes
             (o_state (translateContent Samples.onlyHello false false initialState
                                        Samples.helloWorld)))
          (o_root (translateContent Samples.onlyHello false false initialState
                                    Samples.helloWorld)))
     = [5].
Proof. repeat split; vm_compute; reflexivity. Qed.

(** The page of two texts and two attributes after the pass: the text
    and the attribute that read "Hello" are written and marked, those
    that read "World" stay and are the candidates of the next
    extraction. *)
Lemma greeting_card_scenario :
  let out := translateContent Samples.onlyHello false false initialState
                              Samples.greetingCard in
  o_posted out = Some ["Hello"; "World"; "Hello"; "World"]
  /\ o_root out
     = Element 60 "BODY" []
         [ Element 61 "P" [] [Text 62 "Bonjour"];
           Element 63 "P" [] [Text 64 "World"];
           Element 65 "IMG" [("alt", "Bonjour")] [];
           Element 66 "INPUT" [("placeholder", "World")] [] ]
  /\ map (marked (translatedNodes (o_state out))) [62; 64; 65; 66]
     = [true; false; true; false]
  /\ map t_id (collectTextNodes false false (translatedNodes (o_state out))
                                (o_root out)) = [64]
  /\ map (fun a => e_id (element a))
         (collectAttributeNodes false (translatedNodes (o_state out)) (o_root out))
     = [66].
Proof. cbv zeta. repeat split; vm_compute; reflexivity. Qed.

(** White space that is not ASCII is trimmed as well: of
    [<p>&nbsp;Hello&nbsp;</p><p>&nbsp;</p><img alt="&nbsp;" title=" World&nbsp;">]
    the pass posts "Hello" and "World"; the first text becomes "Bonjour"
    and is marked; the blank paragraph and the blank [alt] are no
    candidates; the title, which has no translation, stays as it is. *)
Lemma padded_text_scenario :
  o_posted (translateContent Samples.onlyHello false false initialState
                             Samples.paddedGreeting)
  = Some ["Hello"; "World"]
  /\ o_root (translateContent Samples.onlyHello false false initialState
                              Samples.paddedGreeting)
     = Element 50 "BODY" []
         [ Element 51 "P" [] [Text 52 "Bonjour"];
           Element 53 "P" [] [Text 54 Samples.nbsp];
           Element 55 "IMG" [("alt", Samples.nbsp);
                             ("title", " World" +:+ Samples.nbsp)] [] ]
  /\ map t_id (collectTextNodes false false ∅ Samples.paddedGreeting) = [52]
  /\ map attribute (collectAttributeNodes false ∅ Samples.paddedGreeting) = ["title"].
Proof. repeat split; vm_compute; reflexivity. Qed.

(** C4 fails as stated for attributes: of [<img alt="Hello" title="World">]
    only "Hello" is translated, yet the element is marked, and the title,
    whose source is absent from the cache, is not a candidate of the next
    extraction. *)
Lemma apply_phase_marks_untranslated_attribute :
  collectAttributeNodes false (translatedNodes initialState) Samples.imageTwoAttributes
  = [Samples.imageAlt; Samples.imageTitle]
  /\ translationCache
       (o_state (translateContent Samples.onlyHello false false initialState
                                  Samples.imageTwoAttributes)) !! "World" = None
  /\ marked (translatedNodes
               (o_state (translateContent Samples.onlyHello false false initialState
                                          Samples.imageTwoAttributes)))
            (e_id (element Samples.imageTitle)) = true
  /\ collectAttributeNodes false
       (translatedNodes
          (o_state (translateContent Samples.onlyHello false false initialState
                                     Samples.imageTwoAttributes)))
       (o_root (translateContent Samples.onlyHello false false initialState
                                 Samples.imageTwoAttributes))
     = [].
Proof. repeat split; vm_compute; reflexivity. Qed.

(** The four passes run the same apply phase on a selection of the
    extraction. *)
Lemma filter_everything {A : Type} (l : list A) : List.filter (fun _ => true) l = l.
Proof. induction l as [|x l IH]; simpl; [reflexivity|]. rewrite IH. reflexivity. Qed.

Lemma passes_are_selections server ly isHead above st root :
  translateContent server isHead above st root
  = translateCandidates server st root
      (List.filter Samples.everyText
                   (collectTextNodes isHead above (translatedNodes st) root))
      (List.filter Samples.everyAttr
                   (collectAttributeNodes isHead (translatedNodes st) root))
  /\ translateVisibleContent server ly above st root
     = translateCandidates server st root
         (List.filter (visibleText ly)
                      (collectTextNodes false above (translatedNodes st) root))
         (List.filter (fun a => aboveFold ly (e_id (element a)))
                      (collectAttributeNodes false (translatedNodes st) root))
  /\ translateBelowFoldContent server ly above st root
     = translateCandidates server st root
         (List.filter (belowFoldText ly)
                      (collectTextNodes false above (translatedNodes st) root))
         (List.filter (fun a => belowFold ly (e_id (element a)))
                      (collectAttributeNodes false (translatedNodes st) root)).
Proof.
  unfold Samples.everyText, Samples.everyAttr. rewrite !filter_everything.
  repeat split.
Qed.

Lemma translateNewNode_apply_phase server lang st a :
  textsOf (collectTextNodes false (a_above a) (translatedNodes st) (a_node a))
          (collectAttributeNodes false (translatedNodes st) (a_node a)) <> [] ->
  o_state (translateNewNode server lang st a)
  = o_state (translateContent server false (a_above a) st (a_node a))
  /\ o_root (translateNewNode server lang st a)
     = rewriteInternalLinks lang
         (o_root (translateContent server false (a_above a) st (a_node a))).
Proof.
  intros Hne. unfold translateNewNode, translateContent.
  destruct (textsOf _ _); [contradiction|]. split; reflexivity.
Qed.

(** ** Markers are never removed *)

Lemma translateCandidates_keeps_markers server st root textNodes attrNodes id :
  id ∈ translatedNodes st ->
  id ∈ translatedNodes (o_state (translateCandidates server st root textNodes attrNodes)).
Proof.
  intros Hid.
  destruct (textsOf textNodes attrNodes) as [|t ts] eqn:Ht.
  - unfold translateCandidates. rewrite Ht. exact Hid.
  - rewrite translateCandidates_outcome by (rewrite Ht; discriminate).
    cbn [o_state translatedNodes].
    apply writeAttr_marks. left. apply writeText_marks. left. exact Hid.
Qed.

Lemma translateNewNodes_keeps_markers server lang nodes id :
  forall st,
    id ∈ translatedNodes st ->
    id ∈ translatedNodes (i_state (translateNewNodes server lang st nodes)).
Proof.
  induction nodes as [|a rest IH]; intros st Hid; [exact Hid|].
  cbn [translateNewNodes i_state]. apply IH.
  unfold translateNewNode. destruct (textsOf _ _); [exact Hid|].
  cbn [o_state]. apply translateCandidates_keeps_markers. exact Hid.
Qed.

(** Rewriting the links of a subtree changes no text node. *)
Lemma rewriteInternalLinks_keeps_text lang above root :
  treeWalkerText above (rewriteInternalLinks lang root) = treeWalkerText above root.
Proof.
  unfold rewriteInternalLinks.
  generalize (querySelectorAllLinks root). intros links. revert root.
  induction links as [|link links IH]; intros root; [reflexivity|].
  cbn [fold_left]. rewrite IH. unfold rewriteLink.
  destruct (getAttribute "href" (e_attributes link)) as [href|]; [|reflexivity].
  destruct (newHref lang href) as [h|]; [|reflexivity].
  apply treeWalkerText_setElementAttribute. discriminate.
Qed.

(** ** Occurrences across a boundary *)

Section Boundaries.

(** A pattern that does not hold the character [c] cannot reach across
    an occurrence of [c]. *)
Lemma startsWith_before_sep (c : ascii) (m : string) :
  Str.mentions c m = false ->
  forall a b, Str.startsWith (a +:+ String c b) m = Str.startsWith a m.
Proof.
  induction m as [|d m IH]; intros Hm a b.
  - rewrite !startsWith_nil. reflexivity.
  - simpl in Hm. apply orb_false_iff in Hm as [Hd Hm].
    destruct a as [|x a]; simpl.
    + rewrite Hd. reflexivity.
    + rewrite (IH Hm). reflexivity.
Qed.

Lemma includes_sep (c : ascii) (a b m : string) :
  Str.mentions c m = false -> Str.truthy m = true ->
  Str.includes (a +:+ String c b) m = Str.includes a m || Str.includes b m.
Proof.
  intros Hm Ht. induction a as [|x a IH].
  - destruct m as [|d m]; [discriminate|].
    simpl in Hm. apply orb_false_iff in Hm as [Hd _].
    simpl. rewrite Hd. reflexivity.
  - change (String x a +:+ String c b) with (String x (a +:+ String c b)).
    cbn [Str.includes]. rewrite IH.
    change (String x (a +:+ String c b)) with (String x a +:+ String c b).
    rewrite (startsWith_before_sep c m Hm). rewrite orb_assoc. reflexivity.
Qed.

(** A pattern that holds [c] in its first place only starts at or after
    an occurrence of [c], or ends before it. *)
Lemma startsWith_before_first (c : ascii) (m' : string) :
  Str.mentions c m' = false ->
  forall x a b,
    Str.startsWith (String x a +:+ String c b) (String c m')
    = Str.startsWith (String x a) (String c m').
Proof.
  intros Hm x a b. simpl. rewrite (startsWith_before_sep c m' Hm). reflexivity.
Qed.

Lemma includes_cut_first (c : ascii) (m' a b : string) :
  Str.mentions c m' = false ->
  Str.includes (a +:+ String c b) (String c m')
  = Str.includes a (String c m') || Str.includes (String c b) (String c m').
Proof.
  intros Hm. induction a as [|x a IH].
  - simpl. reflexivity.
  - change (String x a +:+ String c b) with (String x (a +:+ String c b)).
    cbn [Str.includes]. rewrite IH.
    change (String x (a +:+ String c b)) with (String x a +:+ String c b).
    rewrite (startsWith_before_first c m' Hm). rewrite orb_assoc. reflexivity.
Qed.

(** A pattern that holds [c] in its last place only ends at or before an
    occurrence of [c], or starts after it. *)
Lemma startsWith_until_last (c : ascii) (m' : string) :
  Str.mentions c m' = false ->
  forall a b,
    Str.startsWith (a +:+ String c b) (m' +:+ String c "")
    = Str.startsWith (a +:+ String c "") (m' +:+ String c "").
Proof.
  induction m' as [|d m' IH]; intros Hm a b.
  - destruct a as [|x a]; simpl.
    + rewrite !startsWith_nil. reflexivity.
    + rewrite !startsWith_nil. reflexivity.
  - simpl in Hm. apply orb_false_iff in Hm as [Hd Hm].
    destruct a as [|x a]; simpl.
    + rewrite Hd. reflexivity.
    + rewrite (IH Hm). reflexivity.
Qed.

Lemma includes_cut_last (c : ascii) (m' a b : string) :
  Str.mentions c m' = false ->
  Str.includes (a +:+ String c b) (m' +:+ String c "")
  = Str.includes (a +:+ String c "") (m' +:+ String c "")
    || Str.includes b (m' +:+ String c "").
Proof.
  intros Hm. induction a as [|x a IH].
  - pose proof (startsWith_until_last c m' Hm "" b) as Hs.
    change ("" +:+ String c b) with (String c b) in *.
    change ("" +:+ String c "") with (String c "") in *.
    cbn [Str.includes]. rewrite Hs.
    destruct (Str.startsWith (String c "") (m' +:+ String c "")); [reflexivity|].
    destruct m' as [|d m']; simpl; reflexivity.
  - change (String x a +:+ String c b) with (String x (a +:+ String c b)).
    change (String x a +:+ String c "") with (String x (a +:+ String c "")).
    cbn [Str.includes]. rewrite IH.
    change (String x (a +:+ String c b)) with (String x a +:+ String c b).
    change (String x (a +:+ String c "")) with (String x a +:+ String c "").
    rewrite (startsWith_until_last c m' Hm (String x a) b).
    rewrite orb_assoc. reflexivity.
Qed.

End Boundaries.

Section Insertions.

Lemma lastChar_split (a : string) (c : ascii) :
  lastChar a = Some c -> a = withoutLast a +:+ String c "".
Proof.
  induction a as [|x a IH]; [discriminate|].
  destruct a as [|y a]; simpl.
  - intros [= ->]. reflexivity.
  - intros H. simpl in IH. rewrite <- (IH H). reflexivity.
Qed.

Lemma lastChar_app (a : string) (c : ascii) (b : string) :
  lastChar (a +:+ String c b) = lastChar (String c b).
Proof.
  induction a as [|x a IH]; [reflexivity|].
  change (String x a +:+ String c b) with (String x (a +:+ String c b)).
  destruct (a +:+ String c b) eqn:Heq.
  - destruct a; discriminate.
  - rewrite <- IH. reflexivity.
Qed.

Lemma includes_single_sep (c : ascii) (b m : string) :
  Str.mentions c m = false -> Str.truthy m = true ->
  Str.includes (String c b) m = Str.includes b m.
Proof.
  intros Hm Ht. pose proof (includes_sep c "" b m Hm Ht) as H.
  change ("" +:+ String c b) with (String c b) in H. rewrite H.
  destruct m; [discriminate|]. reflexivity.
Qed.

(** No occurrence reaches across the end of a text that ends with a
    character foreign to the pattern, nor across the start of a text that
    starts with one. *)
Lemma includes_fence_l (a b m : string) (c : ascii) :
  lastChar a = Some c -> Str.mentions c m = false -> Str.truthy m = true ->
  Str.includes (a +:+ b) m = Str.includes a m || Str.includes b m.
Proof.
  intros Ha Hm Ht. rewrite (lastChar_split a c Ha), append_assoc.
  change (String c "" +:+ b) with (String c b).
  rewrite !(includes_sep c _ _ m Hm Ht).
  destruct m; [discriminate|]. simpl. rewrite orb_false_r. reflexivity.
Qed.

Lemma includes_fence_r (a b m : string) (c : ascii) :
  firstChar b = Some c -> Str.mentions c m = false -> Str.truthy m = true ->
  Str.includes (a +:+ b) m = Str.includes a m || Str.includes b m.
Proof.
  intros Hb Hm Ht. destruct b as [|d b]; [discriminate|].
  injection Hb as ->.
  rewrite (includes_sep c a b m Hm Ht), (includes_single_sep c b m Hm Ht).
  reflexivity.
Qed.

(** A text inserted between [u] and [v] that starts and ends with
    characters foreign to [m] brings no occurrence of [m] but its own. *)
Lemma insert_none (u x v m : string) (c1 c2 : ascii) :
  firstChar x = Some c1 -> lastChar x = Some c2 ->
  Str.mentions c1 m = false -> Str.mentions c2 m = false -> Str.truthy m = true ->
  Str.includes (u +:+ v) m = false -> Str.includes x m = false ->
  Str.includes (u +:+ x +:+ v) m = false.
Proof.
  intros Hf Hl H1 H2 Ht Huv Hx.
  assert (Hfx : firstChar (x +:+ v) = Some c1)
    by (destruct x; [discriminate|exact Hf]).
  rewrite (includes_fence_r u (x +:+ v) m c1 Hfx H1 Ht).
  rewrite (includes_fence_l x v m c2 Hl H2 Ht).
  rewrite Hx, (includes_false_app_l u v m Huv), (includes_false_app_r u v m Huv).
  reflexivity.
Qed.

(** An insertion in front of a character that a pattern holds in its first
    place only keeps every occurrence of the pattern. *)
Lemma insert_keeps_before (c : ascii) (m' u x v : string) :
  Str.mentions c m' = false ->
  Str.includes (u +:+ String c v) (String c m') = true ->
  Str.includes (u +:+ x +:+ String c v) (String c m') = true.
Proof.
  intros Hm H. rewrite includes_cut_first in H by exact Hm.
  apply orb_true_iff in H as [H|H].
  - apply includes_app_l. exact H.
  - apply includes_app_r, includes_app_r. exact H.
Qed.

(** An insertion behind a character that a pattern holds in its last place
    only keeps every occurrence of the pattern. *)
Lemma insert_keeps_after (c : ascii) (m' u x v : string) :
  Str.mentions c m' = false ->
  Str.includes ((u +:+ String c "") +:+ v) (m' +:+ String c "") = true ->
  Str.includes ((u +:+ String c "") +:+ x +:+ v) (m' +:+ String c "") = true.
Proof.
  intros Hm H. rewrite append_assoc in H. change (String c "" +:+ v) with (String c v) in H.
  rewrite includes_cut_last in H by exact Hm.
  apply orb_true_iff in H as [H|H].
  - apply includes_app_l. exact H.
  - apply includes_app_r, includes_app_r. exact H.
Qed.

Lemma insert_new (u x v y : string) :
  Str.includes x y = true -> Str.includes (u +:+ x +:+ v) y = true.
Proof. intros H. apply includes_app_r, includes_app_l. exact H. Qed.

(** The result of [replace] when the replacement is the pattern with a
    text in front that is copied as it is. *)
Lemma replace_inserts (s pat x : string) :
  (forall a b, Str.getSubstitution pat a b (x +:+ pat) = x +:+ pat) ->
  Str.includes s pat = true ->
  exists u v, s = u +:+ pat +:+ v
              /\ Str.replace s pat (x +:+ pat) = u +:+ x +:+ pat +:+ v.
Proof.
  intros Hlit Hin.
  destruct (replace_present s pat (x +:+ pat) Hin) as (u & v & Hs & Hr).
  exists u, v. split; [exact Hs|]. rewrite Hr, Hlit, append_assoc. reflexivity.
Qed.

End Insertions.

(** ** Templates with holes *)

Lemma firstChar_app (a b : string) :
  Str.truthy a = true -> firstChar (a +:+ b) = firstChar a.
Proof. destruct a; [discriminate|reflexivity]. Qed.

Lemma foreign_Some (m : string) (o : option ascii) :
  foreign m o = true -> exists c, o = Some c /\ Str.mentions c m = false.
Proof.
  destruct o as [c|]; [|discriminate]. simpl. intros H.
  exists c. split; [reflexivity|]. apply negb_true_iff. exact H.
Qed.

Lemma fenced_inv (m p : string) :
  fenced m p = true ->
  Str.includes p m = false
  /\ (exists c, firstChar p = Some c /\ Str.mentions c m = false)
  /\ (exists c, lastChar p = Some c /\ Str.mentions c m = false).
Proof.
  unfold fenced. rewrite !andb_true_iff, negb_true_iff.
  intros [[H1 H2] H3]. auto using foreign_Some.
Qed.

Lemma fill_cons (hole p q : string) (rest : list string) :
  fill hole (p :: q :: rest) = p +:+ hole +:+ fill hole (q :: rest).
Proof. reflexivity. Qed.

Lemma firstChar_fill (hole p : string) (rest : list string) :
  Str.truthy p = true -> firstChar (fill hole (p :: rest)) = firstChar p.
Proof.
  intros Hp. destruct rest; [reflexivity|].
  rewrite fill_cons. apply firstChar_app. exact Hp.
Qed.

(** A template whose pieces are fenced against [m] holds [m] only if the
    value printed in its holes does. *)
Lemma fill_free (m hole : string) (pieces : list string) :
  Str.truthy m = true -> forallb (fenced m) pieces = true ->
  Str.includes hole m = false ->
  Str.includes (fill hole pieces) m = false.
Proof.
  intros Ht Hp Hh. induction pieces as [|p rest IH].
  - destruct m; [discriminate|reflexivity].
  - cbn [forallb] in Hp. apply andb_true_iff in Hp as [Hp Hrest].
    apply fenced_inv in Hp as (Hin & _ & (c & Hl & Hc)).
    destruct rest as [|q rest]; [exact Hin|].
    rewrite fill_cons, (includes_fence_l p _ m c Hl Hc Ht), Hin. cbn [orb].
    pose proof Hrest as Hq. cbn [forallb] in Hq. apply andb_true_iff in Hq as [Hq _].
    apply fenced_inv in Hq as (_ & (d & Hf & Hd) & _).
    assert (Hqt : Str.truthy q = true) by (destruct q; [discriminate|reflexivity]).
    rewrite (includes_fence_r hole _ m d); [|rewrite firstChar_fill; assumption|exact Hd|exact Ht].
    rewrite Hh. cbn [orb]. apply IH. exact Hrest.
Qed.

Lemma mentions_fill (c : ascii) (hole : string) (pieces : list string) :
  forallb (fun p => negb (Str.mentions c p)) pieces = true ->
  Str.mentions c hole = false ->
  Str.mentions c (fill hole pieces) = false.
Proof.
  intros Hp Hh. induction pieces as [|p rest IH]; [reflexivity|].
  cbn [forallb] in Hp. apply andb_true_iff in Hp as [Hp Hrest].
  apply negb_true_iff in Hp.
  destruct rest as [|q rest]; [exact Hp|].
  rewrite fill_cons, !mentions_app, Hp, Hh. cbn [orb]. apply IH. exact Hrest.
Qed.

Lemma fill_one (hole p : string) : fill hole [p] = p.
Proof. reflexivity. Qed.

Lemma lastChar_app_truthy (a b : string) :
  Str.truthy b = true -> lastChar (a +:+ b) = lastChar b.
Proof. destruct b as [|c b]; [discriminate|]. intros _. apply lastChar_app. Qed.

(** ** The fragments of the scenario *)

Section Fragments.

Lemma autoTranslateScript_fill (key : string) :
  autoTranslateScript "fr" key +:+ LF = fill key enginePieces.
Proof.
  unfold autoTranslateScript, enginePieces.
  rewrite !fill_cons, fill_one, !append_assoc. reflexivity.
Qed.

Lemma engine_first (key : string) : firstChar (fill key enginePieces) = Some "010"%char.
Proof. unfold enginePieces. rewrite firstChar_fill; vm_compute; reflexivity. Qed.

Lemma engine_last (key : string) : lastChar (fill key enginePieces) = Some "010"%char.
Proof.
  rewrite <- autoTranslateScript_fill. apply lastChar_app_truthy. reflexivity.
Qed.

Lemma engine_plain (key : string) :
  Str.mentions "$" key = false -> Str.mentions "$" (fill key enginePieces) = false.
Proof. intros H. apply mentions_fill; [vm_compute; reflexivity|exact H]. Qed.

Lemma engine_free_hreflang (key : string) :
  Str.includes key "hreflang=" = false ->
  Str.includes (fill key enginePieces) "hreflang=" = false.
Proof. intros H. apply fill_free; [reflexivity|vm_compute; reflexivity|exact H]. Qed.

Lemma engine_free_switcher (key : string) :
  Str.includes key "altified-lang-switcher" = false ->
  Str.includes (fill key enginePieces) "altified-lang-switcher" = false.
Proof. intros H. apply fill_free; [reflexivity|vm_compute; reflexivity|exact H]. Qed.

Lemma hreflangTags_fill (domain : string) :
  hreflangTags domain "/about" "en" ["fr"; "de"] +:+ LF = fill domain tagPieces.
Proof.
  unfold hreflangTags, targetLink, tagPieces, linkOpen. cbn [fold_left].
  rewrite !fill_cons, fill_one, !append_assoc. reflexivity.
Qed.

Lemma tags_first (domain : string) : firstChar (fill domain tagPieces) = Some "010"%char.
Proof. unfold tagPieces. rewrite firstChar_fill; vm_compute; reflexivity. Qed.

Lemma tags_last (domain : string) : lastChar (fill domain tagPieces) = Some "010"%char.
Proof.
  rewrite <- hreflangTags_fill. apply lastChar_app_truthy. reflexivity.
Qed.

Lemma tags_plain (domain : string) :
  Str.mentions "$" domain = false -> Str.mentions "$" (fill domain tagPieces) = false.
Proof. intros H. apply mentions_fill; [vm_compute; reflexivity|exact H]. Qed.

Lemma tags_free_switcher (domain : string) :
  Str.includes domain "altified-lang-switcher" = false ->
  Str.includes (fill domain tagPieces) "altified-lang-switcher" = false.
Proof. intros H. apply fill_free; [reflexivity|vm_compute; reflexivity|exact H]. Qed.

(** The tags hold the alternate link for German. *)
Lemma tags_hold_deAlternate (domain : string) :
  Str.includes (fill domain tagPieces) (deAlternate domain) = true.
Proof.
  apply includes_iff.
  exists (linkOpen "en" +:+ domain +:+ "/about" +:+ Str.dq +:+ " />" +:+ LF
          +:+ linkOpen "fr" +:+ domain +:+ "/fr/about" +:+ Str.dq +:+ " />" +:+ LF),
         (linkOpen "x-default" +:+ domain +:+ "/about" +:+ Str.dq +:+ " />" +:+ LF +:+ LF).
  unfold tagPieces, deAlternate, linkOpen.
  rewrite !fill_cons, fill_one, !append_assoc. reflexivity.
Qed.

End Fragments.

(** ** What an injector does to a page *)

Section Profiles.

(** An injector that replaces the first occurrence of a closing tag by a
    text followed by that tag. *)
Lemma guarded_replace_profile (mk pat' x h : string) (c : ascii) :
  (forall a b, Str.getSubstitution (String c pat') a b (x +:+ String c pat')
               = x +:+ String c pat') ->
  let h' := if Str.includes h mk then h
            else Str.replace h (String c pat') (x +:+ String c pat') in
  (forall m c1 c2,
      firstChar x = Some c1 -> lastChar x = Some c2 ->
      Str.mentions c1 m = false -> Str.mentions c2 m = false ->
      Str.truthy m = true ->
      Str.includes x m = false -> Str.includes h m = false ->
      Str.includes h' m = false)
  /\ (forall p', Str.mentions c p' = false ->
                 Str.includes h (String c p') = true ->
                 Str.includes h' (String c p') = true)
  /\ (Str.includes h mk = false -> Str.includes h (String c pat') = true ->
      forall y, Str.includes x y = true -> Str.includes h' y = true).
Proof.
  intros Hlit h'. subst h'.
  destruct (Str.includes h mk) eqn:Hmk.
  { split; [intros; assumption|]. split; [intros; assumption|discriminate]. }
  destruct (Str.includes h (String c pat')) eqn:Hpat.
  - destruct (replace_inserts h (String c pat') x Hlit Hpat) as (u & v & Hh & ->).
    split; [|split].
    + intros m c1 c2 Hf Hl H1 H2 Ht Hx Hm. rewrite Hh in Hm.
      eapply insert_none; eassumption.
    + intros p' Hp Hin. rewrite Hh in Hin.
      change (String c pat' +:+ v) with (String c (pat' +:+ v)) in *.
      apply insert_keeps_before; assumption.
    + intros _ _ y Hy. apply insert_new. exact Hy.
  - rewrite (replace_absent h _ _ Hpat).
    split; [intros; assumption|]. split; [intros; assumption|discriminate].
Qed.

(** An injector that appends a script to the opening tag of the head. *)
Lemma guarded_headOpen_profile (mk x h : string) :
  let h' := if Str.includes h mk then h
            else Str.replaceHeadOpen h (fun m => m +:+ x) in
  (forall m c1 c2,
      firstChar x = Some c1 -> lastChar x = Some c2 ->
      Str.mentions c1 m = false -> Str.mentions c2 m = false ->
      Str.truthy m = true ->
      Str.includes x m = false -> Str.includes h m = false ->
      Str.includes h' m = false)
  /\ (forall p', Str.mentions ">" p' = false ->
                 Str.includes h (p' +:+ ">") = true ->
                 Str.includes h' (p' +:+ ">") = true).
Proof.
  intros h'. subst h'.
  destruct (Str.includes h mk) eqn:Hmk.
  { split; intros; assumption. }
  destruct (replaceHeadOpen_cases h (fun m => m +:+ x))
    as [->|(pre & m' & rest & Hh & ->)].
  { split; intros; assumption. }
  assert (Hh' : h = ((pre +:+ m') +:+ ">") +:+ rest)
    by (rewrite Hh, !append_assoc; reflexivity).
  assert (Hr : pre +:+ ((m' +:+ ">") +:+ x) +:+ rest
               = ((pre +:+ m') +:+ ">") +:+ x +:+ rest)
    by (rewrite !append_assoc; reflexivity).
  rewrite Hr. split.
  - intros m c1 c2 Hf Hl H1 H2 Ht Hx Hm. rewrite Hh' in Hm.
    eapply insert_none; eassumption.
  - intros p' Hp Hin. rewrite Hh' in Hin.
    apply insert_keeps_after; assumption.
Qed.

End Profiles.

(** ** The scenario: [/fr/about] *)

Section Scenario.

Lemma injectAutoTranslation_form (h key : string) :
  injectAutoTranslation h "fr" key
  = if Str.includes h "__ALTIFIED_AUTO_TRANSLATE__" then h
    else Str.replace h "</head>" (fill key enginePieces +:+ "</head>").
Proof.
  unfold injectAutoTranslation. rewrite <- autoTranslateScript_fill, append_assoc.
  reflexivity.
Qed.

Lemma addHreflangLinks_form (h domain : string) :
  addHreflangLinks h "/about" Samples.siteConfig domain
  = if Str.includes h "hreflang=" then h
    else Str.replace h "</head>" (fill domain tagPieces +:+ "</head>").
Proof.
  unfold addHreflangLinks. rewrite <- hreflangTags_fill, append_assoc.
  reflexivity.
Qed.

Lemma injectLanguageSwitcher_form (h : string) (names : gmap string string) :
  injectLanguageSwitcher h Samples.siteConfig names
  = if Str.includes h "altified-lang-switcher" then h
    else Str.replace h "</body>"
           ((switcherMarkup (optionTag names "en" +:+ optionTag names "fr"
                             +:+ optionTag names "de") "en" +:+ LF) +:+ "</body>").
Proof.
  unfold injectLanguageSwitcher. rewrite append_assoc. reflexivity.
Qed.

(** A replacement text without [$] is copied as it is. *)
Lemma plain_replacement (pat x : string) :
  Str.mentions "$" x = false -> Str.mentions "$" pat = false ->
  forall a b, Str.getSubstitution pat a b (x +:+ pat) = x +:+ pat.
Proof.
  intros Hx Hp a b. apply getSubstitution_plain.
  rewrite mentions_app, Hx, Hp. reflexivity.
Qed.

(** The markup of the switcher is copied as it is: the only [$] of the
    template are those of the two regular expressions of its script,
    which [replace] leaves alone. *)
Lemma switcher_replacement (opts : string) :
  Str.mentions "$" opts = false ->
  forall a b,
    Str.getSubstitution "</body>" a b ((switcherMarkup opts "en" +:+ LF) +:+ "</body>")
    = (switcherMarkup opts "en" +:+ LF) +:+ "</body>".
Proof.
  intros Ho a b. unfold switcherMarkup, switcherSelect, switcherClose.
  rewrite !append_assoc.
  rewrite !getSubstitution_plain_prefix
    by first [exact Ho | vm_compute; reflexivity].
  repeat (apply (f_equal (String.append _))).
  vm_compute. reflexivity.
Qed.

Lemma inertNames_options (names : gmap string string) :
  inertNames names = true ->
  Str.mentions "$" (optionTag names "en" +:+ optionTag names "fr"
                    +:+ optionTag names "de") = false.
Proof.
  unfold inertNames. cbn [forallb]. rewrite !andb_true_iff, !negb_true_iff.
  intros (Hen & Hfr & Hde & _). unfold optionTag.
  rewrite !mentions_app, Hen, Hfr, Hde. vm_compute. reflexivity.
Qed.

Lemma deAlternate_shape (domain : string) :
  Str.mentions "<" domain = false ->
  exists m', deAlternate domain = String "<" m' /\ Str.mentions "<" m' = false.
Proof.
  intros Hd.
  exists ("link rel=" +:+ Str.dq +:+ "alternate" +:+ Str.dq +:+ " hreflang=" +:+ Str.dq +:+ "de" +:+ Str.dq +:+ " href=" +:+ Str.dq +:+ domain +:+ "/de/about" +:+ Str.dq +:+ " />").
  split; [reflexivity|].
  rewrite !mentions_app, Hd. vm_compute. reflexivity.
Qed.

End Scenario.

Section ScenarioSteps.

Lemma augmentable_inv (h : string) :
  augmentable h = true <->
  Str.includes h "</head>" = true /\ Str.includes h "</body>" = true
  /\ Str.includes h "hreflang=" = false
  /\ Str.includes h "altified-lang-switcher" = false.
Proof.
  unfold augmentable. rewrite !andb_true_iff, !negb_true_iff. tauto.
Qed.

Lemma inertKey_inv (key : string) :
  inertKey key = true ->
  Str.mentions "$" key = false /\ Str.includes key "hreflang=" = false
  /\ Str.includes key "altified-lang-switcher" = false.
Proof.
  unfold inertKey. rewrite !andb_true_iff, !negb_true_iff. tauto.
Qed.

Lemma inertDomain_inv (domain : string) :
  inertDomain domain = true ->
  Str.mentions "$" domain = false /\ Str.mentions "<" domain = false
  /\ Str.includes domain "altified-lang-switcher" = false.
Proof.
  unfold inertDomain. rewrite !andb_true_iff, !negb_true_iff. tauto.
Qed.

(** The engine goes into an augmentable page and leaves it augmentable. *)
Lemma injectAutoTranslation_augmentable (h key : string) :
  inertKey key = true -> augmentable h = true ->
  augmentable (injectAutoTranslation h "fr" key) = true.
Proof.
  intros Hk Hh. apply inertKey_inv in Hk as (Hk1 & Hk2 & Hk3).
  apply augmentable_inv in Hh as (H1 & H2 & H3 & H4).
  rewrite injectAutoTranslation_form.
  destruct (guarded_replace_profile "__ALTIFIED_AUTO_TRANSLATE__" "/head>"
              (fill key enginePieces) h "<"
              (plain_replacement "</head>" _ (engine_plain key Hk1) eq_refl))
    as (Hnone & Hkeep & _).
  apply augmentable_inv. repeat split.
  - apply (Hkeep "/head>"); [reflexivity|exact H1].
  - apply (Hkeep "/body>"); [reflexivity|exact H2].
  - apply (Hnone "hreflang=" _ _ (engine_first key) (engine_last key));
      auto using engine_free_hreflang.
  - apply (Hnone "altified-lang-switcher" _ _ (engine_first key) (engine_last key));
      auto using engine_free_switcher.
Qed.

Lemma injectLanguageContext_augmentable (h : string) :
  augmentable h = true -> augmentable (injectLanguageContext h "fr") = true.
Proof.
  intros Hh. apply augmentable_inv in Hh as (H1 & H2 & H3 & H4).
  unfold injectLanguageContext.
  destruct (guarded_headOpen_profile "__ALTIFIED_CONTEXT__" (contextScript "fr") h)
    as (Hnone & Hkeep).
  apply augmentable_inv. repeat split.
  - apply (Hkeep "</head"); [reflexivity|exact H1].
  - apply (Hkeep "</body"); [reflexivity|exact H2].
  - apply (Hnone "hreflang=" "010"%char "010"%char); auto; vm_compute; reflexivity.
  - apply (Hnone "altified-lang-switcher" "010"%char "010"%char); auto;
      vm_compute; reflexivity.
Qed.

(** The links go into an augmentable page. *)
Lemma addHreflangLinks_adds (h domain : string) :
  inertDomain domain = true -> augmentable h = true ->
  Str.includes (addHreflangLinks h "/about" Samples.siteConfig domain)
               (deAlternate domain) = true
  /\ Str.includes (addHreflangLinks h "/about" Samples.siteConfig domain)
                  "altified-lang-switcher" = false
  /\ Str.includes (addHreflangLinks h "/about" Samples.siteConfig domain)
                  "</body>" = true.
Proof.
  intros Hd Hh. apply inertDomain_inv in Hd as (Hd1 & Hd2 & Hd3).
  apply augmentable_inv in Hh as (H1 & H2 & H3 & H4).
  rewrite addHreflangLinks_form.
  destruct (guarded_replace_profile "hreflang=" "/head>"
              (fill domain tagPieces) h "<"
              (plain_replacement "</head>" _ (tags_plain domain Hd1) eq_refl))
    as (Hnone & Hkeep & Hnew).
  repeat split.
  - apply Hnew; [exact H3|exact H1|apply tags_hold_deAlternate].
  - apply (Hnone "altified-lang-switcher" _ _ (tags_first domain) (tags_last domain));
      auto using tags_free_switcher.
  - apply (Hkeep "/body>"); [reflexivity|exact H2].
Qed.

(** The switcher goes into a page that closes its body and keeps the
    links. *)
Lemma injectLanguageSwitcher_adds (h domain : string) (names : gmap string string) :
  inertDomain domain = true -> inertNames names = true ->
  Str.includes h (deAlternate domain) = true ->
  Str.includes h "altified-lang-switcher" = false ->
  Str.includes h "</body>" = true ->
  Str.includes (injectLanguageSwitcher h Samples.siteConfig names)
               (deAlternate domain) = true
  /\ Str.includes (injectLanguageSwitcher h Samples.siteConfig names)
                  (switcherSelect (optionTag names "en" +:+ optionTag names "fr"
                                   +:+ optionTag names "de")) = true.
Proof.
  intros Hd Hn Hde Hsw Hbody. apply inertDomain_inv in Hd as (_ & Hd2 & _).
  rewrite injectLanguageSwitcher_form.
  destruct (guarded_replace_profile "altified-lang-switcher" "/body>"
              (switcherMarkup (optionTag names "en" +:+ optionTag names "fr"
                               +:+ optionTag names "de") "en" +:+ LF) h "<"
              (switcher_replacement _ (inertNames_options names Hn)))
    as (_ & Hkeep & Hnew).
  split.
  - destruct (deAlternate_shape domain Hd2) as (m' & Heq & Hm').
    rewrite Heq in *. apply Hkeep; assumption.
  - apply Hnew; [exact Hsw|exact Hbody|].
    unfold switcherMarkup. apply includes_app_l, includes_middle.
Qed.

Lemma getHeader_set_other name name' v hs :
  name <> name' -> getHeader name' (setHeader name v hs) = getHeader name' hs.
Proof. apply getAttribute_setAttribute_other. Qed.

Lemma getHeader_set_same name v hs : getHeader name (setHeader name v hs) = Some v.
Proof. apply getAttribute_setAttribute_same. Qed.

(** The constructor accepts a text with a status of a successful answer
    that is not a null body status. *)
Lemma newResponse_text (text : string) (st : nat) (stt : string)
      (hs : list (string * string)) :
  (200 <=? st) && (st <=? 599) = true -> nullBodyStatus st = false ->
  newResponse (Some text) st stt hs = Some (mkResponse st stt hs text).
Proof. intros Hr Hn. unfold newResponse. rewrite Hr, Hn. reflexivity. Qed.

Lemma ok_in_range (r : Response) :
  ok r = true -> (200 <=? status r) && (status r <=? 599) = true.
Proof.
  unfold ok. rewrite !andb_true_iff, !Nat.leb_le. lia.
Qed.

(** A response whose text is not empty has a body. *)
Lemma body_present (r : Response) :
  Str.truthy (body r) = true -> nullBodyStatus (status r) = false.
Proof.
  unfold body, bodyOf. destruct (nullBodyStatus (status r)); [discriminate|reflexivity].
Qed.

(** The text of a response that was made with a body. *)
Lemma body_made (st : nat) (stt : string) (hs : list (string * string))
      (text : string) :
  nullBodyStatus st = false -> body (mkResponse st stt hs text) = text.
Proof. intros Hn. unfold body, bodyOf. cbn [status content]. rewrite Hn. reflexivity. Qed.

Lemma augmentable_truthy (h : string) : augmentable h = true -> Str.truthy h = true.
Proof. destruct h; [discriminate|reflexivity]. Qed.

(** Where the handler sends the request of the scenario. *)
Lemma fetch_routes_fr_about (env : Env) (request : Url) (key : string) :
  ALTIFIED_API_KEY env = Some key -> Str.truthy key = true ->
  projectConfig env = Some Samples.siteConfig ->
  u_pathname request = "/fr/about" ->
  fetch env request
  = handleTranslatedRequest env request "fr" "/about" Samples.siteConfig.
Proof.
  intros Hkey Ht Hcfg Hpath. unfold fetch.
  rewrite Hkey, Ht, Hcfg, Hpath. reflexivity.
Qed.

End ScenarioSteps.

(** C9, as the code has it.  With the configuration of the scenario and
    the request path [/fr/about], on a miss of the page cache the worker
    fetches [/about] from the origin; when the answer is OK and HTML, its
    text closes its head and its body and holds neither [hreflang=] nor
    [altified-lang-switcher], and the API key, the configured origin and
    the display names are printed by the templates as they are, the
    response served carries [Content-Language: fr], holds the alternate
    link for German that points to the configured origin followed by
    [/de/about], and holds the switcher, whose [select] lists an option
    without a value followed by the options for en, fr and de. *)
Theorem scenario_fr_about
        (env : Env) (request : Url) (key : string) (page : Response) :
  ALTIFIED_API_KEY env = Some key -> Str.truthy key = true ->
  projectConfig env = Some Samples.siteConfig ->
  u_pathname request = "/fr/about" ->
  pageCache env request "fr" = None ->
  origin env (mkUrl (u_origin request) "/about" (u_search request)) = Resolved page ->
  ok page = true ->
  Str.includes (contentTypeOf page) "html" = true ->
  augmentable (body page) = true ->
  inertKey key = true ->
  inertDomain (DOMAIN env) = true ->
  inertNames (languageNames env) = true ->
  fetched (fetch env request)
  = [mkUrl (u_origin request) "/about" (u_search request)]
  /\ exists r,
      response (fetch env request) = Resolved r
      /\ getHeader "content-language" (headers r) = Some "fr"
      /\ Str.includes (body r) (deAlternate (DOMAIN env)) = true
      /\ Str.includes (body r)
           (switcherSelect (optionTag (languageNames env) "en"
                            +:+ optionTag (languageNames env) "fr"
                            +:+ optionTag (languageNames env) "de")) = true.
Proof.
  intros Hkey Ht Hcfg Hpath Hmiss Horigin Hok Hct Hpage Hk Hd Hn.
  rewrite (fetch_routes_fr_about env request key Hkey Ht Hcfg Hpath).
  unfold handleTranslatedRequest. rewrite Hmiss.
  change (if Str.truthy "/about" then "/about" else "/") with "/about".
  rewrite Horigin, Hok, Hct, Hkey. cbn [negb u_pathname].
  rewrite (newResponse_text _ _ _ _ (ok_in_range page Hok)
             (body_present page (augmentable_truthy _ Hpage))).
  cbn [fetched response status statusText headers content].
  split; [reflexivity|]. eexists. split; [reflexivity|].
  rewrite body_made by exact (body_present page (augmentable_truthy _ Hpage)).
  cbn [headers]. split.
  - rewrite getHeader_set_other by discriminate. apply getHeader_set_same.
  - pose proof (injectAutoTranslation_augmentable (body page) key Hk Hpage) as H1.
    pose proof (injectLanguageContext_augmentable _ H1) as H2.
    destruct (addHreflangLinks_adds _ (DOMAIN env) Hd H2) as (H3 & H4 & H5).
    exact (injectLanguageSwitcher_adds _ (DOMAIN env) (languageNames env)
             Hd Hn H3 H4 H5).
Qed.

(** The same for a sample site. *)
Lemma scenario_fr_about_witness :
  ALTIFIED_API_KEY Samples.aboutSite = Some "key123"
  /\ Str.truthy "key123" = true
  /\ projectConfig Samples.aboutSite = Some Samples.siteConfig
  /\ u_pathname Samples.frenchAboutUrl = "/fr/about"
  /\ pageCache Samples.aboutSite Samples.frenchAboutUrl "fr" = None
  /\ origin Samples.aboutSite Samples.aboutUrl = Resolved Samples.aboutPage
  /\ ok Samples.aboutPage = true
  /\ Str.includes (contentTypeOf Samples.aboutPage) "html" = true
  /\ augmentable (body Samples.aboutPage) = true
  /\ inertKey "key123" = true
  /\ inertDomain (DOMAIN Samples.aboutSite) = true
  /\ inertNames (languageNames Samples.aboutSite) = true
  /\ fetched (fetch Samples.aboutSite Samples.frenchAboutUrl) = [Samples.aboutUrl]
  /\ exists r,
      response (fetch Samples.aboutSite Samples.frenchAboutUrl) = Resolved r
      /\ getHeader "content-language" (headers r) = Some "fr"
      /\ Str.includes (body r) (deAlternate (DOMAIN Samples.aboutSite)) = true
      /\ Str.includes (body r)
           (switcherSelect
              (optionTag (languageNames Samples.aboutSite) "en"
               +:+ optionTag (languageNames Samples.aboutSite) "fr"
               +:+ optionTag (languageNames Samples.aboutSite) "de")) = true.
Proof.
  assert (H1 : ALTIFIED_API_KEY Samples.aboutSite = Some "key123") by reflexivity.
  assert (H2 : Str.truthy "key123" = true) by reflexivity.
  assert (H3 : projectConfig Samples.aboutSite = Some Samples.siteConfig) by reflexivity.
  assert (H4 : u_pathname Samples.frenchAboutUrl = "/fr/about") by reflexivity.
  assert (H5 : pageCache Samples.aboutSite Samples.frenchAboutUrl "fr" = None)
    by reflexivity.
  assert (H6 : origin Samples.aboutSite
                      (mkUrl (u_origin Samples.frenchAboutUrl) "/about"
                             (u_search Samples.frenchAboutUrl))
               = Resolved Samples.aboutPage) by reflexivity.
  assert (H7 : ok Samples.aboutPage = true) by reflexivity.
  assert (H8 : Str.includes (contentTypeOf Samples.aboutPage) "html" = true)
    by (vm_compute; reflexivity).
  assert (H9 : augmentable (body Samples.aboutPage) = true) by (vm_compute; reflexivity).
  assert (H10 : inertKey "key123" = true) by (vm_compute; reflexivity).
  assert (H11 : inertDomain (DOMAIN Samples.aboutSite) = true)
    by (vm_compute; reflexivity).
  assert (H12 : inertNames (languageNames Samples.aboutSite) = true)
    by (vm_compute; reflexivity).
  repeat (split; [assumption|]).
  exact (scenario_fr_about Samples.aboutSite Samples.frenchAboutUrl "key123"
           Samples.aboutPage H1 H2 H3 H4 H5 H6 H7 H8 H9 H10 H11 H12).
Defined.

(** C9 fails as stated: a successful HTML answer of the origin that does
    not close a head gets the header and the switcher, but no alternate
    link. *)
Lemma scenario_page_without_head :
  ok Samples.headlessPage = true
  /\ Str.includes (contentTypeOf Samples.headlessPage) "html" = true
  /\ fetched (fetch Samples.headlessSite Samples.frenchAboutUrl) = [Samples.aboutUrl]
  /\ match response (fetch Samples.headlessSite Samples.frenchAboutUrl) with
     | Resolved r =>
         getHeader "content-language" (headers r) = Some "fr"
         /\ Str.includes (body r) (deAlternate "https://example.com") = false
         /\ Str.includes (body r) "hreflang=" = false
     | Rejected => False
     end.
Proof. repeat split; vm_compute; reflexivity. Qed.

(** The page of the scenario as it is served: one alternate link per
    language and one for [x-default], and four [option] elements. *)
Lemma scenario_served_page :
  match response (fetch Samples.aboutSite Samples.frenchAboutUrl) with
  | Resolved r =>
      Str.includes (body r)
        ("<option value=" +:+ Str.dq +:+ Str.dq +:+ ">" +:+ globe +:+ " Language</option>
    " +:+ "<option value=" +:+ Str.dq +:+ "en" +:+ Str.dq +:+ ">English</option>" +:+ "<option value=" +:+ Str.dq +:+ "fr" +:+ Str.dq +:+ ">French</option>" +:+ "<option value=" +:+ Str.dq +:+ "de" +:+ Str.dq +:+ ">German</option>
  </select>") = true
      /\ stored (fetch Samples.aboutSite Samples.frenchAboutUrl)
         = Some (Samples.frenchAboutUrl, "fr", r)
  | Rejected => False
  end.
Proof. vm_compute. split; reflexivity. Qed.

(** ** The incremental phase and the queue *)

Lemma nodeIds_setNodeValue (target : nat) (v : string) (n : Node) :
  nodeIds (setNodeValue target v n) = nodeIds n.
Proof.
  induction n as [id old|id d|id tag attrs children IH] using Node_induction.
  - simpl. destruct (Nat.eqb id target); reflexivity.
  - reflexivity.
  - cbn [setNodeValue nodeIds]. f_equal.
    rewrite flat_map_map_compose. apply flat_map_pointwise. exact IH.
Qed.

Lemma nodeIds_setElementAttribute (target : nat) (name v : string) (n : Node) :
  nodeIds (setElementAttribute target name v n) = nodeIds n.
Proof.
  induction n as [id old|id d|id tag attrs children IH] using Node_induction;
    try reflexivity.
  cbn [setElementAttribute nodeIds]. f_equal.
  rewrite flat_map_map_compose. apply flat_map_pointwise. exact IH.
Qed.

Lemma writeText_nodeIds ws : forall acc,
  nodeIds (fst (fold_left writeText ws acc)) = nodeIds (fst acc).
Proof.
  induction ws as [|w ws IH]; intros acc; [reflexivity|].
  cbn [fold_left]. rewrite IH. apply nodeIds_setNodeValue.
Qed.

Lemma writeAttr_nodeIds ws : forall acc,
  nodeIds (fst (fold_left writeAttr ws acc)) = nodeIds (fst acc).
Proof.
  induction ws as [|w ws IH]; intros acc; [reflexivity|].
  cbn [fold_left]. rewrite IH. apply nodeIds_setElementAttribute.
Qed.

Lemma translateCandidates_nodeIds server st root tn an :
  nodeIds (o_root (translateCandidates server st root tn an)) = nodeIds root.
Proof.
  destruct (textsOf tn an) as [|t ts] eqn:Ht.
  - unfold translateCandidates. rewrite Ht. reflexivity.
  - rewrite translateCandidates_outcome by (rewrite Ht; discriminate).
    cbn [o_root]. rewrite writeAttr_nodeIds, writeText_nodeIds. reflexivity.
Qed.

Lemma rewriteInternalLinks_nodeIds lang root :
  nodeIds (rewriteInternalLinks lang root) = nodeIds root.
Proof.
  unfold rewriteInternalLinks.
  generalize (querySelectorAllLinks root). intros links. revert root.
  induction links as [|link links IH]; intros root; [reflexivity|].
  cbn [fold_left]. rewrite IH. unfold rewriteLink.
  destruct (getAttribute "href" (e_attributes link)) as [href|]; [|reflexivity].
  destruct (newHref lang href) as [h|]; [|reflexivity].
  apply nodeIds_setElementAttribute.
Qed.

Lemma translateNewNode_nodeIds server lang st a :
  nodeIds (o_root (translateNewNode server lang st a)) = nodeIds (a_node a).
Proof.
  unfold translateNewNode. destruct (textsOf _ _); [reflexivity|].
  cbn [o_root]. rewrite rewriteInternalLinks_nodeIds.
  apply translateCandidates_nodeIds.
Qed.

Lemma ids_of_subtree above root id :
  In id (map t_id (treeWalkerText above root) ++ map e_id (descendantElements root)) ->
  In id (nodeIds root).
Proof.
  intros Hin.
  destruct (submseteq_Permutation _ _ (ids_below root above)) as [k Hk].
  assert (Htl : In id (tail (nodeIds root))).
  { symmetry in Hk. apply (Permutation_in _ Hk). apply in_or_app. left. exact Hin. }
  destruct (nodeIds root); [destruct Htl|right; exact Htl].
Qed.




(** A text node inserted into an element that was there before: only the
    paragraph that was added with it is queued, and "World" is neither
    posted nor written. *)
Lemma observer_skips_text_of_old_parent :
  newNodes ∅ Samples.textAndElementAdded = [Samples.addedParagraph]
  /\ match observerCallback Samples.onlyHello "fr" initialState
                            Samples.textAndElementAdded with
     | Some r =>
         i_posted r = [["Hello"]]
         /\ i_nodes r = [Element 8 "P" [] [Text 9 "Bonjour"]]
         /\ marked (translatedNodes (i_state r)) 7 = false
     | None => False
     end.
Proof. split; [reflexivity|]. vm_compute. repeat split; reflexivity. Qed.


(* ===================================================================== *)
(** * Part III: further properties                                        *)
(* ===================================================================== *)

Import Runs.

(** ** The cache under [translateTexts] *)

Lemma storeTranslation_lookup cache t k :
  storeTranslation cache t !! k
  = match t with
    | Some (mkTranslation (Some o) (Some tr)) =>
        if Str.truthy o && Str.truthy tr && Str.eqb o k then Some tr else cache !! k
    | _ => cache !! k
    end.
Proof.
  unfold storeTranslation. destruct t as [[[o|] [tr|]]|]; try reflexivity.
  destruct (Str.truthy o && Str.truthy tr); cbn [andb].
  - destruct (Str.eqb o k) eqn:He.
    + apply str_eqb_eq in He. subst k. apply lookup_insert_eq.
    + apply str_eqb_neq in He. apply lookup_insert_ne. exact He.
  - reflexivity.
Qed.

Lemma storeTranslation_unnamed cache t k :
  names k t = false -> storeTranslation cache t !! k = cache !! k.
Proof.
  intros Hn. rewrite storeTranslation_lookup.
  destruct t as [[[o|] [tr|]]|]; try reflexivity.
  cbn [names] in Hn. rewrite Hn, andb_false_r. reflexivity.
Qed.

Lemma fold_storeTranslation_unnamed ts k : forall cache,
  forallb (fun t => negb (names k t)) ts = true ->
  fold_left storeTranslation ts cache !! k = cache !! k.
Proof.
  induction ts as [|t ts IH]; intros cache Hall; [reflexivity|].
  cbn [forallb] in Hall. apply andb_true_iff in Hall as [Ht Hall].
  cbn [fold_left]. rewrite IH by exact Hall.
  apply storeTranslation_unnamed. apply negb_true_iff. exact Ht.
Qed.

Lemma storeTranslation_keeps_keys cache t k :
  is_Some (cache !! k) -> is_Some (storeTranslation cache t !! k).
Proof.
  intros Hk. rewrite storeTranslation_lookup.
  destruct t as [[[o|] [tr|]]|]; try exact Hk.
  destruct (Str.truthy o && Str.truthy tr && Str.eqb o k); [eauto|exact Hk].
Qed.

Lemma mergeReply_keeps_keys cache r k :
  is_Some (cache !! k) -> is_Some (mergeReply cache r !! k).
Proof.
  intros Hk. unfold mergeReply.
  destruct r as [|status [|[ts|]]]; try exact Hk;
    destruct (Engine.ok status); try exact Hk.
  revert cache Hk. induction ts as [|t ts IH]; intros cache Hk; [exact Hk|].
  cbn [fold_left]. apply IH, storeTranslation_keeps_keys, Hk.
Qed.

Lemma mergeReply_failed cache r : failed r = true -> mergeReply cache r = cache.
Proof.
  unfold failed, mergeReply. destruct r as [|status payload]; [reflexivity|].
  destruct (Engine.ok status); cbn [negb orb]; [|reflexivity].
  destruct payload as [|[ts|]]; [reflexivity|discriminate|reflexivity].
Qed.

Lemma textWrites_none cache textNodes :
  (forall c, In c textNodes ->
             translationFor cache (Some (Str.trim (t_nodeValue c))) = None) ->
  textWrites cache textNodes = [].
Proof.
  induction textNodes as [|c cs IH]; intros Hall; [reflexivity|].
  cbn [textWrites flat_map]. rewrite (Hall c (or_introl eq_refl)).
  apply IH. intros c' Hc'. apply Hall. right. exact Hc'.
Qed.

Lemma attrWrites_none cache attrNodes :
  (forall a, In a attrNodes -> translationFor cache (Some (text a)) = None) ->
  attrWrites cache attrNodes = [].
Proof.
  induction attrNodes as [|a l IH]; intros Hall; [reflexivity|].
  cbn [attrWrites flat_map]. rewrite (Hall a (or_introl eq_refl)).
  apply IH. intros a' Ha'. apply Hall. right. exact Ha'.
Qed.

(** A pass that runs alone is its three steps in a row. *)
Lemma translateCandidates_steps server st root textNodes attrNodes :
  let p := beginPass (translationCache st) textNodes attrNodes in
  let cache := receiveReply server p (translationCache st) in
  let r := finishPass p root (mkState cache (translatedNodes st)) in
  translateCandidates server st root textNodes attrNodes
  = mkOutcome (fst r) (snd r) (p_batch p).
Proof.
  cbv zeta. unfold translateCandidates, beginPass, receiveReply, finishPass, translateTexts.
  cbn [p_batch p_texts p_textNodes p_attrNodes translationCache translatedNodes].
  destruct (textsOf textNodes attrNodes) as [|t ts] eqn:Ht.
  - apply textsOf_nil in Ht as [-> ->]. destruct st. reflexivity.
  - destruct (toTranslate (translationCache st) (t :: ts)) as [|b bs];
      destruct (applyTranslations _ _ _ _ _); reflexivity.
Qed.

(** X1.  A failed request changes nothing by itself, however the passes
    interleave.  When the request of a pass fails (the fetch is rejected,
    the status is not OK, the body does not parse or carries no
    [translations]), the handling of the answer leaves the cache as it is
    at that time; and when the apply phase follows on a cache that holds
    no translation for a text of the pass, the subtree, the cache and the
    marker set are left as they are then.  The apply phase reads the
    cache as it is when it runs: a translation that another pass has
    stored in the meantime is written. *)
Theorem failed_request_leaves_page_untouched
        (server : Collaborator) (cache0 : gmap string string)
        (textNodes : list TextRef) (attrNodes : list AttrRef) :
  (forall batch, p_batch (beginPass cache0 textNodes attrNodes) = Some batch ->
                 failed (server batch) = true) ->
  (forall cache,
      receiveReply server (beginPass cache0 textNodes attrNodes) cache = cache)
  /\ (forall root st,
        (forall t, In t (textsOf textNodes attrNodes) ->
                   untranslated (translationCache st) t) ->
        finishPass (beginPass cache0 textNodes attrNodes) root
                   (mkState (receiveReply server (beginPass cache0 textNodes attrNodes)
                                          (translationCache st))
                            (translatedNodes st))
        = (root, st)).
Proof.
  intros Hf.
  assert (Hcache : forall cache,
             receiveReply server (beginPass cache0 textNodes attrNodes) cache = cache).
  { intros cache. unfold receiveReply.
    destruct (p_batch (beginPass cache0 textNodes attrNodes)) as [batch|] eqn:Hb;
      [|reflexivity].
    apply mergeReply_failed, Hf. reflexivity. }
  split; [exact Hcache|]. intros root st Hun. rewrite Hcache.
  unfold finishPass, beginPass.
  cbn [p_texts p_textNodes p_attrNodes translationCache translatedNodes].
  rewrite applyTranslations_writes, textWrites_none, attrWrites_none.
  - cbn [fold_left]. destruct st. reflexivity.
  - intros a Ha. apply translationFor_None, Hun.
    unfold textsOf. apply in_or_app. right. apply in_map. exact Ha.
  - intros c Hc. apply translationFor_None, Hun.
    unfold textsOf. apply in_or_app. left. apply in_map_iff. eauto.
Qed.

Lemma failed_request_leaves_page_untouched_witness :
  (forall batch,
      p_batch (beginPass ∅ (collectTextNodes false false ∅ Samples.helloWorld) [])
      = Some batch ->
      failed (Samples.unreachable batch) = true)
  /\ (forall cache,
         receiveReply Samples.unreachable
           (beginPass ∅ (collectTextNodes false false ∅ Samples.helloWorld) [])
           cache = cache)
  /\ (forall root st,
        (forall t, In t (textsOf (collectTextNodes false false ∅ Samples.helloWorld) []) ->
                   untranslated (translationCache st) t) ->
        finishPass (beginPass ∅ (collectTextNodes false false ∅ Samples.helloWorld) [])
                   root
                   (mkState (receiveReply Samples.unreachable
                               (beginPass ∅ (collectTextNodes false false ∅
                                                              Samples.helloWorld) [])
                               (translationCache st))
                            (translatedNodes st))
        = (root, st)).
Proof.
  assert (H : forall batch,
             p_batch (beginPass ∅ (collectTextNodes false false ∅ Samples.helloWorld) [])
             = Some batch ->
             failed (Samples.unreachable batch) = true)
    by (intros batch _; reflexivity).
  split; [exact H|].
  exact (failed_request_leaves_page_untouched Samples.unreachable ∅
           (collectTextNodes false false ∅ Samples.helloWorld) [] H).
Defined.

(** Two passes that interleave: the passes over the head and over the
    body begin together, the request of the head fails, the answer for
    the body arrives first.  The apply phase of the head then finds
    "Hello" in the cache, writes the title and marks it, although its own
    request failed. *)
Lemma failed_pass_writes_what_another_stored :
  let headPass := beginPass ∅ (collectTextNodes true false ∅ helloHead) [] in
  let bodyPass := beginPass ∅ (collectTextNodes false false ∅ helloBody) [] in
  let afterBody := receiveReply Samples.onlyHello bodyPass ∅ in
  let afterHead := receiveReply Samples.unreachable headPass afterBody in
  p_batch headPass = Some ["Hello"]
  /\ p_batch bodyPass = Some ["Hello"]
  /\ afterHead = afterBody
  /\ finishPass headPass helloHead (mkState afterHead ∅)
     = (Element 40 "HEAD" [] [ Element 41 "TITLE" [] [Text 42 "Bonjour"] ],
        mkState afterHead {[ 42 ]}).
Proof. cbv zeta. repeat split; vm_compute; reflexivity. Qed.

(** X2.  [translateTexts] never removes a key: whatever the collaborators
    answer in a sequence of calls, a source string that the cache maps
    before the calls is still mapped after them. *)
Theorem translateTexts_never_forgets
        (calls : list (Collaborator * list string))
        (cache : gmap string string) (k : string) :
  is_Some (cache !! k) -> is_Some (translateTextsAll calls cache !! k).
Proof.
  revert cache. unfold translateTextsAll.
  induction calls as [|[server texts] calls IH]; intros cache Hk; [exact Hk|].
  cbn [fold_left fst snd]. apply IH.
  unfold translateTexts. destruct (toTranslate cache texts); [exact Hk|].
  cbn [fst]. apply mergeReply_keeps_keys, Hk.
Qed.

Lemma translateTexts_never_forgets_witness :
  is_Some (Samples.cacheHelloNoop !! "Hello")
  /\ is_Some (translateTextsAll [(Samples.onlyHello, ["Hello"]);
                                 (Samples.unreachable, ["World"])]
                                Samples.cacheHelloNoop !! "Hello").
Proof.
  assert (H : is_Some (Samples.cacheHelloNoop !! "Hello"))
    by (exists "Hello"; vm_compute; reflexivity).
  split; [exact H|].
  exact (translateTexts_never_forgets [(Samples.onlyHello, ["Hello"]);
                                       (Samples.unreachable, ["World"])]
           Samples.cacheHelloNoop "Hello" H).
Defined.

Lemma storeTranslation_keys cache t :
  (forall k v, cache !! k = Some v -> Str.truthy k = true) ->
  forall k v, storeTranslation cache t !! k = Some v -> Str.truthy k = true.
Proof.
  intros Hs k v. rewrite storeTranslation_lookup.
  destruct t as [[[o|] [tr|]]|]; try apply Hs.
  destruct (Str.truthy o) eqn:Ho; cbn [andb]; [|apply Hs].
  destruct (Str.truthy tr); cbn [andb]; [|apply Hs].
  destruct (Str.eqb o k) eqn:He; [|apply Hs].
  apply str_eqb_eq in He. subst k. intros _. exact Ho.
Qed.

Lemma mergeReply_keys cache r :
  (forall k v, cache !! k = Some v -> Str.truthy k = true) ->
  forall k v, mergeReply cache r !! k = Some v -> Str.truthy k = true.
Proof.
  intros Hs. unfold mergeReply.
  destruct r as [|status [|[ts|]]]; try exact Hs;
    destruct (Engine.ok status); try exact Hs.
  revert cache Hs. induction ts as [|t ts IH]; intros cache Hs; [exact Hs|].
  cbn [fold_left]. apply IH, storeTranslation_keys, Hs.
Qed.

(** X3.  Starting from the empty cache of a fresh page, whatever the
    collaborators answer, the cache only ever maps non-empty source
    strings to non-empty translations. *)
Theorem cache_holds_no_empty_string
        (calls : list (Collaborator * list string)) (k v : string) :
  translateTextsAll calls ∅ !! k = Some v ->
  Str.truthy k = true /\ Str.truthy v = true.
Proof.
  assert (Hinv : forall cache,
             (forall k v, cache !! k = Some v -> Str.truthy k = true) ->
             cacheSound cache ->
             (forall k v, translateTextsAll calls cache !! k = Some v ->
                          Str.truthy k = true /\ Str.truthy v = true)).
  { unfold translateTextsAll.
    induction calls as [|[server texts] calls IH]; intros cache Hk Hv k' v' H.
    - split; [exact (Hk _ _ H)|exact (Hv _ _ H)].
    - cbn [fold_left fst snd] in H. revert H. apply IH.
      + unfold translateTexts. destruct (toTranslate cache texts); [exact Hk|].
        cbn [fst]. apply mergeReply_keys, Hk.
      + apply translateTexts_sound, Hv. }
  apply Hinv.
  - intros k' v' H. rewrite lookup_empty in H. discriminate.
  - apply cacheSound_empty.
Qed.

Lemma cache_holds_no_empty_string_witness :
  translateTextsAll [(Samples.onlyHello, ["Hello"])] ∅ !! "Hello" = Some "Bonjour"
  /\ Str.truthy "Hello" = true /\ Str.truthy "Bonjour" = true.
Proof.
  assert (H : translateTextsAll [(Samples.onlyHello, ["Hello"])] ∅ !! "Hello"
              = Some "Bonjour") by (vm_compute; reflexivity).
  split; [exact H|].
  exact (cache_holds_no_empty_string [(Samples.onlyHello, ["Hello"])]
           "Hello" "Bonjour" H).
Defined.

(** X4.  Of the entries of an OK reply that name one source string with a
    non-empty translation, the last one wins: after the reply is merged
    the cache maps the string to the translation of an entry that no
    later entry of the reply names again. *)
Theorem mergeReply_last_entry_wins
        (cache : gmap string string) (status : nat)
        (before after : list (option Translation)) (o tr : string) :
  Engine.ok status = true ->
  Str.truthy o = true -> Str.truthy tr = true ->
  forallb (fun t => negb (names o t)) after = true ->
  mergeReply cache
    (Engine.Response status
       (Json (Some (before ++ Some (mkTranslation (Some o) (Some tr)) :: after))))
    !! o = Some tr.
Proof.
  intros Hok Ho Htr Hafter. unfold mergeReply. rewrite Hok.
  rewrite fold_left_app. cbn [fold_left].
  rewrite fold_storeTranslation_unnamed by exact Hafter.
  rewrite storeTranslation_lookup, Ho, Htr, str_eqb_refl. reflexivity.
Qed.

Lemma mergeReply_last_entry_wins_witness :
  Engine.ok 200 = true
  /\ Str.truthy "Hello" = true /\ Str.truthy "Salut" = true
  /\ forallb (fun t => negb (names "Hello" t))
             [Some (mkTranslation (Some "World") (Some "Monde")); None] = true
  /\ mergeReply Samples.cacheHelloBonjour
       (Engine.Response 200
          (Json (Some ([Some (mkTranslation (Some "Hello") (Some "Bonjour"))]
                       ++ Some (mkTranslation (Some "Hello") (Some "Salut"))
                       :: [Some (mkTranslation (Some "World") (Some "Monde")); None]))))
       !! "Hello" = Some "Salut".
Proof.
  repeat (split; [reflexivity|]).
  apply (mergeReply_last_entry_wins Samples.cacheHelloBonjour 200
           [Some (mkTranslation (Some "Hello") (Some "Bonjour"))]
           [Some (mkTranslation (Some "World") (Some "Monde")); None]
           "Hello" "Salut"); reflexivity.
Defined.

(** ** What a pass extracts and posts *)

Lemma whiteSpaceAt_le s : Str.whiteSpaceAt s <= String.length s.
Proof.
  destruct s as [|c1 [|c2 [|c3 r]]]; cbn [Str.whiteSpaceAt String.length];
    repeat match goal with |- context [if ?b then _ else _] => destruct b end; lia.
Qed.

Lemma whiteSpaceAt_3 s : Str.whiteSpaceAt s <= 3.
Proof.
  destruct s as [|c1 [|c2 [|c3 r]]]; cbn [Str.whiteSpaceAt];
    repeat match goal with |- context [if ?b then _ else _] => destruct b end; lia.
Qed.

(** One step of [trimStart]. *)
Lemma trimStart_step s :
  Str.trimStart s
  = match Str.whiteSpaceAt s with
    | 0 => s
    | n => Str.trimStart (Str.drop n s)
    end.
Proof.
  pose proof (whiteSpaceAt_le s) as Hle. pose proof (whiteSpaceAt_3 s) as H3.
  destruct s as [|c1 r1]; [reflexivity|].
  cbn [Str.trimStart].
  destruct (Str.whiteSpaceAt (String c1 r1)) as [|[|[|[|n]]]] eqn:Hw; try lia.
  - reflexivity.
  - reflexivity.
  - destruct r1 as [|c2 r2]; [cbn in Hle; lia|reflexivity].
  - destruct r1 as [|c2 [|c3 r3]]; try (cbn in Hle; lia). reflexivity.
Qed.

Lemma drop_length n s : String.length (Str.drop n s) = String.length s - n.
Proof.
  revert s. induction n as [|n IH]; intros [|c s]; cbn [Str.drop String.length]; try lia.
  rewrite IH. lia.
Qed.

Lemma drop_app_le n (s t : string) :
  n <= String.length s -> Str.drop n (s +:+ t) = Str.drop n s +:+ t.
Proof.
  revert s. induction n as [|n IH]; intros s Hn.
  - destruct s; cbn [String.append Str.drop]; [destruct t|]; reflexivity.
  - destruct s as [|c s]; [cbn in Hn; lia|].
    cbn [String.append Str.drop]. apply IH. cbn in Hn. lia.
Qed.

(** The white space character a text starts with is still there when the
    text is continued. *)
Lemma whiteSpaceAt_app (s t : string) :
  Str.whiteSpaceAt s <> 0 -> Str.whiteSpaceAt (s +:+ t) = Str.whiteSpaceAt s.
Proof.
  destruct s as [|c1 [|c2 [|c3 r]]]; cbn [Str.whiteSpaceAt String.append].
  - intros []; reflexivity.
  - destruct (Str.isWhiteSpace c1); [reflexivity|]. intros []; reflexivity.
  - destruct (Str.isWhiteSpace c1); [reflexivity|].
    destruct (Str.isWhiteSpace2 c1 c2); [reflexivity|]. intros []; reflexivity.
  - reflexivity.
Qed.

(** What [trimStart] leaves starts with no white space. *)
Lemma trimStart_head s : Str.whiteSpaceAt (Str.trimStart s) = 0.
Proof.
  remember (String.length s) as n eqn:Hn. revert s Hn.
  induction n as [n IH] using lt_wf_ind. intros s ->.
  rewrite trimStart_step.
  destruct (Str.whiteSpaceAt s) as [|k] eqn:Hw; [exact Hw|].
  pose proof (whiteSpaceAt_le s) as Hle.
  apply (IH (String.length (Str.drop (S k) s))); [|reflexivity].
  rewrite drop_length. lia.
Qed.

Lemma trimStart_fixed s : Str.whiteSpaceAt s = 0 -> Str.trimStart s = s.
Proof. intros H. rewrite trimStart_step, H. reflexivity. Qed.

(** White space in front of a text goes with that of the text. *)
Lemma trimStart_app_blank (s t : string) :
  Str.trimStart s = "" -> Str.trimStart (s +:+ t) = Str.trimStart t.
Proof.
  remember (String.length s) as n eqn:Hn. revert s Hn.
  induction n as [n IH] using lt_wf_ind. intros s -> Hs.
  rewrite trimStart_step in Hs.
  destruct (Str.whiteSpaceAt s) as [|k] eqn:Hw.
  - subst s. reflexivity.
  - pose proof (whiteSpaceAt_le s) as Hle.
    rewrite (trimStart_step (s +:+ t)), whiteSpaceAt_app, Hw by (rewrite Hw; discriminate).
    rewrite drop_app_le by lia.
    apply (IH (String.length (Str.drop (S k) s))); [|reflexivity|exact Hs].
    rewrite drop_length. lia.
Qed.

Lemma truthy_false s : Str.truthy s = false <-> s = "".
Proof. destruct s; split; intros H; try reflexivity; discriminate. Qed.

(** [trimEnd] cuts a suffix made of white space. *)
Lemma trimEnd_suffix s :
  exists w, s = Str.trimEnd s +:+ w /\ Str.trimStart w = "".
Proof.
  induction s as [|c s (w & Hs & Hw)]; [exists ""; split; reflexivity|].
  cbn [Str.trimEnd].
  destruct (Str.truthy (Str.trimStart (String c s))) eqn:Ht.
  - exists w. split; [|exact Hw]. cbn [String.append]. rewrite <- Hs. reflexivity.
  - exists (String c s). split; [reflexivity|]. apply truthy_false. exact Ht.
Qed.

Lemma whiteSpaceAt_trimEnd s :
  Str.whiteSpaceAt s = 0 -> Str.whiteSpaceAt (Str.trimEnd s) = 0.
Proof.
  intros Hs. destruct (trimEnd_suffix s) as (w & Heq & _).
  destruct (Str.whiteSpaceAt (Str.trimEnd s)) as [|k] eqn:Hw; [reflexivity|].
  rewrite Heq, whiteSpaceAt_app, Hw in Hs by (rewrite Hw; discriminate).
  discriminate.
Qed.

Lemma trimEnd_idempotent s : Str.trimEnd (Str.trimEnd s) = Str.trimEnd s.
Proof.
  induction s as [|c s IH]; [reflexivity|]. cbn [Str.trimEnd].
  destruct (Str.truthy (Str.trimStart (String c s))) eqn:Ht; [|reflexivity].
  cbn [Str.trimEnd]. rewrite IH.
  destruct (Str.truthy (Str.trimStart (String c (Str.trimEnd s)))) eqn:Ht';
    [reflexivity|].
  exfalso. apply truthy_false in Ht'.
  destruct (trimEnd_suffix s) as (w & Heq & Hw).
  assert (H : Str.trimStart (String c s) = "").
  { rewrite Heq.
    change (String c (Str.trimEnd s +:+ w)) with (String c (Str.trimEnd s) +:+ w).
    rewrite (trimStart_app_blank _ w Ht'). exact Hw. }
  rewrite H in Ht. discriminate.
Qed.

(** [trim] gives a text that [trim] leaves alone. *)
Lemma trim_idempotent s : Str.trim (Str.trim s) = Str.trim s.
Proof.
  unfold Str.trim.
  rewrite (trimStart_fixed (Str.trimEnd (Str.trimStart s))).
  - apply trimEnd_idempotent.
  - apply whiteSpaceAt_trimEnd, trimStart_head.
Qed.

Lemma keepTextNode_text isHead nodes r :
  keepTextNode isHead nodes r = true -> Str.truthy (Str.trim (t_nodeValue r)) = true.
Proof.
  unfold keepTextNode. destruct (marked nodes (t_id r)); [discriminate|].
  destruct (t_parentElement r) as [p|]; [|discriminate].
  destruct (Str.truthy (Str.trim (t_nodeValue r))); [reflexivity|discriminate].
Qed.

Lemma candidate_texts isHead above nodes root t :
  In t (textsOf (collectTextNodes isHead above nodes root)
                (collectAttributeNodes isHead nodes root)) ->
  Str.truthy t = true /\ Str.trim t = t.
Proof.
  unfold textsOf. intros Hin. apply in_app_or in Hin as [Hin|Hin].
  - apply in_map_iff in Hin as (r & <- & Hr). apply filter_In in Hr as [_ Hk].
    split; [exact (keepTextNode_text _ _ _ Hk)|apply trim_idempotent].
  - apply in_map_iff in Hin as (a & <- & Ha).
    apply collectAttributeNodes_inv in Ha
      as [(el & attr & _ & _ & Hc)|(_ & sel & el & _ & _ & Hc)];
      apply attrCandidate_inv in Hc as (_ & _ & val & _ & -> & _ & Ht);
      (split; [exact Ht|apply trim_idempotent]).
Qed.

Lemma textsOf_filter_incl (f : TextRef -> bool) (g : AttrRef -> bool) tn an t :
  In t (textsOf (List.filter f tn) (List.filter g an)) -> In t (textsOf tn an).
Proof.
  unfold textsOf. intros Hin. apply in_or_app. apply in_app_or in Hin as [Hin|Hin].
  - left. apply in_map_iff in Hin as (r & <- & Hr). apply filter_In in Hr as [Hr _].
    apply in_map_iff. eauto.
  - right. apply in_map_iff in Hin as (a & <- & Ha). apply filter_In in Ha as [Ha _].
    apply in_map_iff. eauto.
Qed.

Lemma translateCandidates_posted server st root tn an :
  postedTexts (o_posted (translateCandidates server st root tn an))
  = toTranslate (translationCache st) (textsOf tn an).
Proof.
  destruct (textsOf tn an) as [|t ts] eqn:Ht.
  - unfold translateCandidates. rewrite Ht. reflexivity.
  - rewrite translateCandidates_outcome by (rewrite Ht; discriminate).
    cbn [o_posted]. rewrite Ht. apply translateTexts_posted.
Qed.

(** X5.  Whatever part of the extraction a pass selects, every string of
    the batch it posts is non-empty, carries no white space at either end
    (it is its own [trim]), is the trimmed text of a candidate of the
    pass, and is a string for which the cache holds no translation
    different from it. *)
Theorem posted_texts_are_trimmed_candidates
        (server : Collaborator) (isHead above : bool)
        (f : TextRef -> bool) (g : AttrRef -> bool) (st : State) (root : Node)
        (t : string) :
  let textNodes := List.filter f (collectTextNodes isHead above (translatedNodes st) root) in
  let attrNodes := List.filter g (collectAttributeNodes isHead (translatedNodes st) root) in
  In t (postedTexts (o_posted (translateCandidates server st root textNodes attrNodes))) ->
  Str.truthy t = true /\ Str.trim t = t
  /\ In t (textsOf textNodes attrNodes)
  /\ needsTranslation (translationCache st) t = true.
Proof.
  cbv zeta. rewrite translateCandidates_posted. intros Hin.
  apply filter_In in Hin as [Hin Hn].
  destruct (candidate_texts isHead above (translatedNodes st) root t
              (textsOf_filter_incl f g _ _ t Hin)) as [H1 H2].
  auto.
Qed.

Lemma posted_texts_are_trimmed_candidates_witness :
  let textNodes := List.filter Samples.everyText
                     (collectTextNodes false false (translatedNodes initialState)
                                       Samples.paddedGreeting) in
  let attrNodes := List.filter Samples.everyAttr
                     (collectAttributeNodes false (translatedNodes initialState)
                                            Samples.paddedGreeting) in
  In "World" (postedTexts (o_posted (translateCandidates Samples.onlyHello initialState
                                       Samples.paddedGreeting textNodes attrNodes)))
  /\ Str.truthy "World" = true /\ Str.trim "World" = "World"
  /\ In "World" (textsOf textNodes attrNodes)
  /\ needsTranslation (translationCache initialState) "World" = true.
Proof.
  cbv zeta.
  assert (H : In "World"
                 (postedTexts
                    (o_posted
                       (translateCandidates Samples.onlyHello initialState
                          Samples.paddedGreeting
                          (List.filter Samples.everyText
                             (collectTextNodes false false (translatedNodes initialState)
                                               Samples.paddedGreeting))
                          (List.filter Samples.everyAttr
                             (collectAttributeNodes false (translatedNodes initialState)
                                                    Samples.paddedGreeting))))))
    by (vm_compute; right; left; reflexivity).
  split; [exact H|].
  exact (posted_texts_are_trimmed_candidates Samples.onlyHello false false
           Samples.everyText Samples.everyAttr initialState Samples.paddedGreeting
           "World" H).
Defined.

(** *** Opting out *)

Lemma treeWalkerText_opted_out (n : Node) :
  forall r, In r (treeWalkerText true n) ->
            exists p, t_parentElement r = Some p /\ p_closestNo p = true.
Proof.
  induction n as [id old|id d|id tag attrs children IH] using Node_induction;
    intros r Hr; try destruct Hr.
  cbn [treeWalkerText orb] in Hr. apply in_flat_map in Hr as (c & Hc & Hr).
  rewrite List.Forall_forall in IH.
  destruct c as [tid tv|cid cd|cid ctag cattrs cchildren].
  - destruct Hr as [<-|[]]. eauto.
  - destruct Hr.
  - apply (IH _ Hc). exact Hr.
Qed.

Lemma filter_nothing {A : Type} (f : A -> bool) (l : list A) :
  (forall x, In x l -> f x = false) -> List.filter f l = [].
Proof.
  induction l as [|x l IH]; intros Hall; [reflexivity|].
  cbn [List.filter]. rewrite (Hall x (or_introl eq_refl)).
  apply IH. intros y Hy. apply Hall. right. exact Hy.
Qed.

(** X6.  No text is extracted from a subtree that has opted out: when the
    root element of the subtree, or one of its ancestors, carries
    [translate="no"], [collectTextNodes] returns no candidate, however
    deep the text sits. *)
Theorem opted_out_subtree_yields_no_text
        (isHead above : bool) (nodes : gset nat)
        (id : nat) (tag : string) (attrs : list (string * string))
        (children : list Node) :
  above || translateNo attrs = true ->
  collectTextNodes isHead above nodes (Element id tag attrs children) = [].
Proof.
  intros Hno. unfold collectTextNodes.
  assert (Hwalk : treeWalkerText above (Element id tag attrs children)
                  = treeWalkerText true (Element id tag attrs children)).
  { cbn [treeWalkerText]. rewrite Hno. reflexivity. }
  rewrite Hwalk. apply filter_nothing. intros r Hr.
  destruct (treeWalkerText_opted_out _ r Hr) as (p & Hp & Hclosest).
  unfold keepTextNode. destruct (marked nodes (t_id r)); [reflexivity|].
  rewrite Hp, Hclosest.
  destruct (negb (Str.truthy (Str.trim (t_nodeValue r)))); reflexivity.
Qed.

Lemma opted_out_subtree_yields_no_text_witness :
  false || translateNo [("translate", "no")] = true
  /\ collectTextNodes false false ∅
       (Element 21 "DIV" [("translate", "no")]
          [ Element 24 "P" [] [Text 22 "Hello"] ]) = [].
Proof.
  split; [reflexivity|].
  apply (opted_out_subtree_yields_no_text false false ∅ 21 "DIV"
           [("translate", "no")] [ Element 24 "P" [] [Text 22 "Hello"] ]).
  reflexivity.
Defined.

Lemma trim_truthy s : Str.truthy (Str.trim s) = true -> Str.truthy s = true.
Proof. destruct s; [discriminate|reflexivity]. Qed.

(** X7.  Attribute extraction does not look at [translate="no"]: every
    element below the root that is unmarked and carries [alt], [title],
    [placeholder] or [aria-label] with a value that is not blank gives a
    candidate with the trimmed value, wherever it sits, also inside a
    subtree that has opted out. *)
Theorem attributes_are_extracted_everywhere
        (isHead : bool) (nodes : gset nat) (root : Node)
        (el : ElemRef) (attr val : string) :
  In el (descendantElements root) ->
  In attr translatableAttrs ->
  getAttribute attr (e_attributes el) = Some val ->
  Str.truthy (Str.trim val) = true ->
  e_id el ∉ nodes ->
  In (mkAttrRef el attr (Str.trim val)) (collectAttributeNodes isHead nodes root).
Proof.
  intros Hel Hattr Hval Ht Hm.
  apply (collectAttributeNodes_standard _ _ _ el attr).
  - apply filter_In. split; [exact Hel|].
    unfold matchesTranslatableAttr, hasAttribute.
    destruct Hattr as [<-|[<-|[<-|[<-|[]]]]]; rewrite Hval;
      rewrite ?orb_true_r; reflexivity.
  - exact Hattr.
  - unfold attrCandidate. rewrite Hval, Ht, (trim_truthy _ Ht).
    apply marked_false in Hm. rewrite Hm. left. reflexivity.
Qed.

Lemma attributes_are_extracted_everywhere_witness :
  In optedOutAlt (descendantElements optedOutImage)
  /\ In "alt" translatableAttrs
  /\ getAttribute "alt" (e_attributes optedOutAlt) = Some (Samples.nbsp +:+ "Hello ")
  /\ Str.truthy (Str.trim (Samples.nbsp +:+ "Hello ")) = true
  /\ (e_id optedOutAlt ∉ (∅ : gset nat))
  /\ collectTextNodes false false ∅ optedOutImage = []
  /\ In (mkAttrRef optedOutAlt "alt" (Str.trim (Samples.nbsp +:+ "Hello ")))
        (collectAttributeNodes false ∅ optedOutImage).
Proof.
  assert (H1 : In optedOutAlt (descendantElements optedOutImage))
    by (vm_compute; right; left; reflexivity).
  assert (H2 : In "alt" translatableAttrs) by (left; reflexivity).
  assert (H5 : e_id optedOutAlt ∉ (∅ : gset nat)) by (apply not_elem_of_empty).
  split; [exact H1|]. split; [exact H2|]. split; [reflexivity|].
  split; [reflexivity|]. split; [exact H5|]. split; [reflexivity|].
  exact (attributes_are_extracted_everywhere false ∅ optedOutImage
           optedOutAlt "alt" (Samples.nbsp +:+ "Hello ")
           H1 H2 eq_refl eq_refl H5).
Defined.

(** ** What a pass leaves of the subtree *)

(** X8.  No pass adds, removes or reorders a node: whatever candidates a
    pass is run on and whatever the collaborator answers, the subtree
    after the apply phase has the node identities of the subtree before
    it, in the same document order; the same holds for link rewriting and
    for one iteration of the incremental loop.  A subtree with pairwise
    distinct nodes therefore stays one. *)
Theorem passes_keep_node_identities
        (server : Collaborator) (lang : string) (st : State) (root : Node)
        (textNodes : list TextRef) (attrNodes : list AttrRef) (a : Added) :
  nodeIds (o_root (translateCandidates server st root textNodes attrNodes))
  = nodeIds root
  /\ nodeIds (rewriteInternalLinks lang root) = nodeIds root
  /\ nodeIds (o_root (translateNewNode server lang st a)) = nodeIds (a_node a)
  /\ (wellFormed root ->
      wellFormed (o_root (translateCandidates server st root textNodes attrNodes))
      /\ wellFormed (rewriteInternalLinks lang root)).
Proof.
  split; [apply translateCandidates_nodeIds|].
  split; [apply rewriteInternalLinks_nodeIds|].
  split; [apply translateNewNode_nodeIds|].
  unfold wellFormed.
  rewrite translateCandidates_nodeIds, rewriteInternalLinks_nodeIds. auto.
Qed.

(** *** The extraction that follows a pass *)

Lemma writeText_text_inv above ws : forall acc r',
  In r' (treeWalkerText above (fst (fold_left writeText ws acc))) ->
  exists r, In r (treeWalkerText above (fst acc))
            /\ t_id r = t_id r'
            /\ ((forall v, ~ In (t_id r', v) ws) -> r' = r).
Proof.
  induction ws as [|[i v0] ws IH]; intros acc r' Hr'.
  - exists r'. auto.
  - cbn [fold_left] in Hr'. apply IH in Hr' as (r1 & Hr1 & Hid1 & Hsame1).
    cbn [writeText fst snd] in Hr1. rewrite treeWalkerText_setNodeValue in Hr1.
    apply in_map_iff in Hr1 as (r & Hr & Hin).
    assert (Hid : t_id r1 = t_id r)
      by (subst r1; unfold retext; destruct (Nat.eqb (t_id r) i); reflexivity).
    exists r. split; [exact Hin|]. split; [congruence|].
    intros Hnone.
    assert (Hne : Nat.eqb (t_id r) i = false).
    { apply Nat.eqb_neq. intros Heq. apply (Hnone v0). left. congruence. }
    rewrite Hsame1 by (intros v Hv; apply (Hnone v); right; exact Hv).
    subst r1. unfold retext. rewrite Hne. reflexivity.
Qed.

Lemma translationFor_None_inv cache src :
  cacheSound cache -> translationFor cache (Some src) = None -> untranslated cache src.
Proof.
  intros Hs. unfold translationFor, untranslated.
  destruct (cache !! src) as [v|] eqn:Hv; [|auto].
  rewrite (Hs src v Hv). cbn [andb].
  destruct (Str.eqb v src) eqn:He; [|discriminate].
  apply str_eqb_eq in He. subst v. auto.
Qed.

Section NextExtraction.

Variables (server : Collaborator) (isHead above : bool).
Variables (f : TextRef -> bool) (g : AttrRef -> bool).
Variables (st : State) (root : Node).

Local Abbreviation textNodes :=
  (List.filter f (collectTextNodes isHead above (translatedNodes st) root)).
Local Abbreviation attrNodes :=
  (List.filter g (collectAttributeNodes isHead (translatedNodes st) root)).
Local Abbreviation out := (translateCandidates server st root textNodes attrNodes).

(** A text candidate of the extraction that follows a pass was a
    candidate before the pass, and the pass, if it selected it, found no
    translation for it. *)
Lemma next_text_candidate r :
  In r (collectTextNodes isHead above (translatedNodes (o_state out)) (o_root out)) ->
  In r (collectTextNodes isHead above (translatedNodes st) root)
  /\ (f r = true ->
      translationFor (translationCache (o_state out))
                     (Some (Str.trim (t_nodeValue r))) = None).
Proof.
  destruct (textsOf textNodes attrNodes) as [|t ts] eqn:Ht.
  - assert (Hout : out = mkOutcome root st None)
      by (unfold translateCandidates; rewrite Ht; reflexivity).
    rewrite Hout. cbn [o_state o_root]. intros Hr. split; [exact Hr|].
    intros Hf. apply textsOf_nil in Ht as [Hnil _].
    assert (Hin : In r textNodes) by (apply filter_In; auto).
    rewrite Hnil in Hin. destruct Hin.
  - rewrite translateCandidates_outcome by (rewrite Ht; discriminate).
    cbv zeta. cbn [o_state o_root translatedNodes translationCache].
    intros Hr. apply filter_In in Hr as [Hwalk Hkeep].
    rewrite (final_text server isHead above f g st root) in Hwalk.
    apply writeText_text_inv in Hwalk as (r0 & Hr0 & Hid & Hsame).
    cbn [fst] in Hr0.
    pose proof (keepTextNode_unmarked _ _ _ Hkeep) as Hm.
    rewrite (final_marks server isHead above f g st root) in Hm.
    assert (Hr : r = r0).
    { apply Hsame. intros v Hv. apply Hm. right. left. eauto. }
    subst r0.
    assert (Hold : In r (collectTextNodes isHead above (translatedNodes st) root)).
    { apply filter_In. split; [exact Hr0|].
      eapply keepTextNode_marker; [exact Hkeep|]. intros Hin. apply Hm. auto. }
    split; [exact Hold|]. intros Hf.
    destruct (translationFor _ (Some (Str.trim (t_nodeValue r)))) as [tr|] eqn:Htr;
      [|reflexivity].
    exfalso. apply Hm. right. left. exists tr.
    apply textWrites_In. exists r. split; [apply filter_In; auto|]. auto.
Qed.

(** The same for an attribute candidate; moreover the pass translated no
    selected candidate of the same element. *)
Lemma next_attr_candidate a :
  In a (collectAttributeNodes isHead (translatedNodes (o_state out)) (o_root out)) ->
  In a (collectAttributeNodes isHead (translatedNodes st) root)
  /\ (forall b, In b attrNodes -> e_id (element b) = e_id (element a) ->
                translationFor (translationCache (o_state out)) (Some (text b)) = None).
Proof.
  destruct (textsOf textNodes attrNodes) as [|t ts] eqn:Ht.
  - assert (Hout : out = mkOutcome root st None)
      by (unfold translateCandidates; rewrite Ht; reflexivity).
    rewrite Hout. cbn [o_state o_root]. intros Ha. split; [exact Ha|].
    intros b Hb. apply textsOf_nil in Ht as [_ Hnil]. rewrite Hnil in Hb. destruct Hb.
  - rewrite translateCandidates_outcome by (rewrite Ht; discriminate).
    cbv zeta. cbn [o_state o_root translatedNodes translationCache].
    intros Ha.
    pose proof (collectAttributeNodes_unmarked _ _ _ _ Ha) as Hm.
    rewrite (final_marks server isHead above f g st root) in Hm.
    assert (Hnone : forall e, e_id e = e_id (element a) ->
              rewritten (attrWrites
                           (fst (translateTexts server (translationCache st)
                                   (textsOf textNodes attrNodes))) attrNodes) e = e).
    { intros e He. apply rewritten_untouched. intros name v Hv.
      apply Hm. right. right. exists name, v. rewrite <- He. exact Hv. }
    assert (Hold : In a (collectAttributeNodes isHead (translatedNodes st) root)).
    { apply collectAttributeNodes_inv in Ha
        as [(el & attr & Hel & Hattr & Hc)|(Hhead & sel & el & Hsel & Hq & Hc)].
      - assert (Hea : element a = el)
          by (apply attrCandidate_inv in Hc as (-> & _); reflexivity).
        apply filter_In in Hel as [Hel Hmatch].
        rewrite (final_elements server isHead above f g st root) in Hel.
        apply in_map_iff in Hel as (e0 & He0 & Hin0).
        assert (Hsame : el = e0).
        { rewrite <- He0. apply Hnone. rewrite Hea, <- He0.
          symmetry. apply rewritten_id. }
        subst e0.
        apply (collectAttributeNodes_standard _ _ _ el attr).
        + apply filter_In. auto.
        + exact Hattr.
        + eapply attrCandidate_marker; [exact Hc|].
          intros Hin. apply Hm. left. rewrite Hea. exact Hin.
      - assert (Hea : element a = el)
          by (apply attrCandidate_inv in Hc as (-> & _); reflexivity).
        unfold querySelectorMeta in Hq.
        rewrite (final_elements server isHead above f g st root) in Hq.
        rewrite find_map_invariant in Hq.
        2:{ intros x. apply matchesMeta_rewritten. intros id name v Hv.
            apply (attrWrites_names server isHead above f g st root) in Hv
              as (_ & Hn1 & Hn2).
            destruct (metaSelectors_keys sel Hsel) as [-> | ->]; assumption. }
        destruct (List.find (matchesMeta (fst sel) (snd sel)) (descendantElements root))
          as [e0|] eqn:Hfind; [|discriminate].
        cbn [option_map] in Hq. injection Hq as Hq.
        assert (Hsame : el = e0).
        { rewrite <- Hq. apply Hnone. rewrite Hea, <- Hq.
          symmetry. apply rewritten_id. }
        subst e0. rewrite Hhead at 1.
        apply (collectAttributeNodes_meta _ _ sel el).
        + exact Hsel.
        + exact Hfind.
        + eapply attrCandidate_marker; [exact Hc|].
          intros Hin. apply Hm. left. rewrite Hea. exact Hin. }
    split; [exact Hold|]. intros b Hb Hid.
    destruct (translationFor _ (Some (text b))) as [tr|] eqn:Htr; [|reflexivity].
    exfalso. apply Hm. right. right. exists (attribute b), tr.
    apply attrWrites_In. exists b. auto.
Qed.

End NextExtraction.

(** X9.  The candidates of a subtree only shrink.  After any pass that
    starts from a cache of non-empty translations, every candidate that the next extraction finds in the
    subtree was already a candidate before the pass, with the same text;
    and if the pass had selected it, its source string is still absent
    from the cache or mapped to itself. *)
Theorem next_extraction_shrinks
        (server : Collaborator) (isHead above : bool)
        (f : TextRef -> bool) (g : AttrRef -> bool) (st : State) (root : Node) :
  cacheSound (translationCache st) ->
  let out := translateCandidates server st root
               (List.filter f (collectTextNodes isHead above (translatedNodes st) root))
               (List.filter g (collectAttributeNodes isHead (translatedNodes st) root)) in
  (forall r,
      In r (collectTextNodes isHead above (translatedNodes (o_state out)) (o_root out)) ->
      In r (collectTextNodes isHead above (translatedNodes st) root)
      /\ (f r = true ->
          untranslated (translationCache (o_state out)) (Str.trim (t_nodeValue r))))
  /\ (forall a,
         In a (collectAttributeNodes isHead (translatedNodes (o_state out)) (o_root out)) ->
         In a (collectAttributeNodes isHead (translatedNodes st) root)
         /\ (g a = true -> untranslated (translationCache (o_state out)) (text a))).
Proof.
  intros Hsound. cbv zeta.
  assert (Hs' : cacheSound
                  (translationCache
                     (o_state
                        (translateCandidates server st root
                           (List.filter f (collectTextNodes isHead above
                                             (translatedNodes st) root))
                           (List.filter g (collectAttributeNodes isHead
                                             (translatedNodes st) root)))))).
  { destruct (textsOf (List.filter f (collectTextNodes isHead above
                                        (translatedNodes st) root))
                      (List.filter g (collectAttributeNodes isHead
                                        (translatedNodes st) root))) as [|t ts] eqn:Ht.
    - unfold translateCandidates. rewrite Ht. exact Hsound.
    - rewrite translateCandidates_outcome by (rewrite Ht; discriminate).
      cbn [o_state translationCache]. apply translateTexts_sound, Hsound. }
  split.
  - intros r Hr.
    destruct (next_text_candidate server isHead above f g st root r Hr) as [H1 H2].
    split; [exact H1|]. intros Hf. apply translationFor_None_inv; auto.
  - intros a Ha.
    destruct (next_attr_candidate server isHead above f g st root a Ha) as [H1 H2].
    split; [exact H1|]. intros Hg. apply translationFor_None_inv; [exact Hs'|].
    apply H2; [|reflexivity]. apply filter_In. auto.
Qed.

Lemma next_extraction_shrinks_witness :
  cacheSound (translationCache initialState)
  /\ let out := translateCandidates Samples.onlyHello initialState Samples.helloWorld
                  (List.filter Samples.everyText
                     (collectTextNodes false false (translatedNodes initialState)
                                       Samples.helloWorld))
                  (List.filter Samples.everyAttr
                     (collectAttributeNodes false (translatedNodes initialState)
                                            Samples.helloWorld)) in
     (forall r,
         In r (collectTextNodes false false (translatedNodes (o_state out)) (o_root out)) ->
         In r (collectTextNodes false false (translatedNodes initialState)
                                Samples.helloWorld)
         /\ (Samples.everyText r = true ->
             untranslated (translationCache (o_state out)) (Str.trim (t_nodeValue r))))
     /\ (forall a,
            In a (collectAttributeNodes false (translatedNodes (o_state out))
                                        (o_root out)) ->
            In a (collectAttributeNodes false (translatedNodes initialState)
                                        Samples.helloWorld)
            /\ (Samples.everyAttr a = true ->
                untranslated (translationCache (o_state out)) (text a))).
Proof.
  split; [exact cacheSound_empty|].
  exact (next_extraction_shrinks Samples.onlyHello false false
           Samples.everyText Samples.everyAttr initialState Samples.helloWorld
           cacheSound_empty).
Defined.

Lemma nil_of_no_member {A : Type} (l : list A) : (forall x, ~ In x l) -> l = [].
Proof.
  destruct l as [|x l]; [reflexivity|]. intros H. exfalso. apply (H x). left. reflexivity.
Qed.

Lemma translated_not_untranslated cache src tr :
  translatedTo cache src tr -> ~ untranslated cache src.
Proof. intros [H1 H2] [H|H]; congruence. Qed.

(** X10.  A pass that the collaborator answers in full finishes the
    subtree: when, after [translateContent], the cache maps the source
    string of every candidate of the pass to a different value, the next
    extraction finds no candidate in the subtree, and a second
    [translateContent] posts nothing and changes neither the subtree nor
    the state, whatever the collaborator would answer. *)
Theorem complete_pass_leaves_no_candidate
        (server server' : Collaborator) (isHead above : bool)
        (st : State) (root : Node) :
  cacheSound (translationCache st) ->
  let out := translateContent server isHead above st root in
  (forall t,
      In t (textsOf (collectTextNodes isHead above (translatedNodes st) root)
                    (collectAttributeNodes isHead (translatedNodes st) root)) ->
      exists tr, translatedTo (translationCache (o_state out)) t tr) ->
  collectTextNodes isHead above (translatedNodes (o_state out)) (o_root out) = []
  /\ collectAttributeNodes isHead (translatedNodes (o_state out)) (o_root out) = []
  /\ translateContent server' isHead above (o_state out) (o_root out)
     = mkOutcome (o_root out) (o_state out) None.
Proof.
  intros Hsound. cbv zeta.
  destruct (passes_are_selections server Samples.layout600 isHead above st root)
    as [Hsel _].
  rewrite Hsel. clear Hsel. intros Hall.
  assert (Hs' : cacheSound
                  (translationCache
                     (o_state
                        (translateCandidates server st root
                           (List.filter Samples.everyText
                              (collectTextNodes isHead above (translatedNodes st) root))
                           (List.filter Samples.everyAttr
                              (collectAttributeNodes isHead (translatedNodes st) root)))))).
  { destruct (textsOf (List.filter Samples.everyText
                         (collectTextNodes isHead above (translatedNodes st) root))
                      (List.filter Samples.everyAttr
                         (collectAttributeNodes isHead (translatedNodes st) root)))
      as [|t ts] eqn:Ht.
    - unfold translateCandidates. rewrite Ht. exact Hsound.
    - rewrite translateCandidates_outcome by (rewrite Ht; discriminate).
      cbn [o_state translationCache]. apply translateTexts_sound, Hsound. }
  assert (Htext : collectTextNodes isHead above
                    (translatedNodes
                       (o_state
                          (translateCandidates server st root
                             (List.filter Samples.everyText
                                (collectTextNodes isHead above (translatedNodes st) root))
                             (List.filter Samples.everyAttr
                                (collectAttributeNodes isHead (translatedNodes st) root)))))
                    (o_root
                       (translateCandidates server st root
                          (List.filter Samples.everyText
                             (collectTextNodes isHead above (translatedNodes st) root))
                          (List.filter Samples.everyAttr
                             (collectAttributeNodes isHead (translatedNodes st) root))))
                  = []).
  { apply nil_of_no_member. intros r Hr.
    destruct (next_text_candidate server isHead above Samples.everyText
                Samples.everyAttr st root r Hr) as [Hold Hnone].
    destruct (Hall (Str.trim (t_nodeValue r))) as [tr Htr].
    - unfold textsOf. apply in_or_app. left. apply in_map_iff. eauto.
    - apply (translated_not_untranslated _ _ _ Htr).
      apply translationFor_None_inv; [exact Hs'|]. apply Hnone. reflexivity. }
  assert (Hattr : collectAttributeNodes isHead
                    (translatedNodes
                       (o_state
                          (translateCandidates server st root
                             (List.filter Samples.everyText
                                (collectTextNodes isHead above (translatedNodes st) root))
                             (List.filter Samples.everyAttr
                                (collectAttributeNodes isHead (translatedNodes st) root)))))
                    (o_root
                       (translateCandidates server st root
                          (List.filter Samples.everyText
                             (collectTextNodes isHead above (translatedNodes st) root))
                          (List.filter Samples.everyAttr
                             (collectAttributeNodes isHead (translatedNodes st) root))))
                  = []).
  { apply nil_of_no_member. intros a Ha.
    destruct (next_attr_candidate server isHead above Samples.everyText
                Samples.everyAttr st root a Ha) as [Hold Hnone].
    destruct (Hall (text a)) as [tr Htr].
    - unfold textsOf. apply in_or_app. right. apply in_map. exact Hold.
    - apply (translated_not_untranslated _ _ _ Htr).
      apply translationFor_None_inv; [exact Hs'|]. apply Hnone; [|reflexivity].
      apply filter_In. split; [exact Hold|reflexivity]. }
  split; [exact Htext|]. split; [exact Hattr|].
  unfold translateContent at 1. rewrite Htext, Hattr. reflexivity.
Qed.

Lemma complete_pass_leaves_no_candidate_witness :
  cacheSound (translationCache initialState)
  /\ let out := translateContent helloAndWorld false false initialState
                                 Samples.helloWorld in
     (forall t,
         In t (textsOf (collectTextNodes false false (translatedNodes initialState)
                                         Samples.helloWorld)
                       (collectAttributeNodes false (translatedNodes initialState)
                                              Samples.helloWorld)) ->
         exists tr, translatedTo (translationCache (o_state out)) t tr)
     /\ collectTextNodes false false (translatedNodes (o_state out)) (o_root out) = []
     /\ collectAttributeNodes false (translatedNodes (o_state out)) (o_root out) = []
     /\ translateContent Samples.unreachable false false (o_state out) (o_root out)
        = mkOutcome (o_root out) (o_state out) None.
Proof.
  split; [exact cacheSound_empty|]. cbv zeta.
  assert (H : forall t,
             In t (textsOf (collectTextNodes false false (translatedNodes initialState)
                                             Samples.helloWorld)
                           (collectAttributeNodes false (translatedNodes initialState)
                                                  Samples.helloWorld)) ->
             exists tr,
               translatedTo
                 (translationCache
                    (o_state (translateContent helloAndWorld false false initialState
                                               Samples.helloWorld))) t tr).
  { intros t [<-|[<-|[]]].
    - exists "Bonjour". split; [vm_compute; reflexivity|discriminate].
    - exists "Monde". split; [vm_compute; reflexivity|discriminate]. }
  split; [exact H|].
  exact (complete_pass_leaves_no_candidate helloAndWorld Samples.unreachable
           false false initialState Samples.helloWorld cacheSound_empty H).
Defined.

(** ** Invariants of the state *)

Lemma translateCandidates_sound server st root tn an :
  cacheSound (translationCache st) ->
  cacheSound (translationCache (o_state (translateCandidates server st root tn an))).
Proof.
  intros Hsound. destruct (textsOf tn an) as [|t ts] eqn:Ht.
  - unfold translateCandidates. rewrite Ht. exact Hsound.
  - rewrite translateCandidates_outcome by (rewrite Ht; discriminate).
    cbn [o_state translationCache]. apply translateTexts_sound, Hsound.
Qed.

Lemma translateNewNode_sound server lang st a :
  cacheSound (translationCache st) ->
  cacheSound (translationCache (o_state (translateNewNode server lang st a))).
Proof.
  intros Hsound. unfold translateNewNode. destruct (textsOf _ _); [exact Hsound|].
  cbn [o_state]. apply translateCandidates_sound, Hsound.
Qed.

(** X11.  What a pass marks.  Whatever part of the extraction a pass
    selects and whatever the collaborator answers, every node that was
    marked before the pass is marked after it, and every node the pass
    adds to the marker set is a node of its subtree; a cache that holds
    only non-empty translations still does. *)
Theorem pass_marks_nodes_of_its_subtree
        (server : Collaborator) (isHead above : bool)
        (f : TextRef -> bool) (g : AttrRef -> bool) (st : State) (root : Node)
        (id : nat) :
  let out := translateCandidates server st root
               (List.filter f (collectTextNodes isHead above (translatedNodes st) root))
               (List.filter g (collectAttributeNodes isHead (translatedNodes st) root)) in
  (id ∈ translatedNodes st -> id ∈ translatedNodes (o_state out))
  /\ (id ∈ translatedNodes (o_state out) ->
      id ∈ translatedNodes st \/ In id (nodeIds root))
  /\ (cacheSound (translationCache st) -> cacheSound (translationCache (o_state out))).
Proof.
  cbv zeta. split; [apply translateCandidates_keeps_markers|].
  split; [|apply translateCandidates_sound].
  destruct (textsOf (List.filter f (collectTextNodes isHead above
                                      (translatedNodes st) root))
                    (List.filter g (collectAttributeNodes isHead
                                      (translatedNodes st) root))) as [|t ts] eqn:Ht.
  - unfold translateCandidates. rewrite Ht. auto.
  - rewrite translateCandidates_outcome by (rewrite Ht; discriminate).
    cbv zeta. cbn [o_state translatedNodes].
    rewrite (final_marks server isHead above f g st root).
    intros [H|[[v H]|(name & v & H)]]; [left; exact H| |]; right.
    + apply textWrites_In in H as (c & Hc & <- & _).
      apply text_candidate in Hc as [Hc _].
      apply (ids_of_subtree above). apply in_or_app. left. apply in_map. exact Hc.
    + apply (attrWrites_elements server isHead above f g st root) in H
        as (e & He & <-).
      apply (ids_of_subtree above). apply in_or_app. right. apply in_map. exact He.
Qed.

Lemma translateNewNodes_sound server lang nodes : forall st,
  cacheSound (translationCache st) ->
  cacheSound (translationCache (i_state (translateNewNodes server lang st nodes))).
Proof.
  induction nodes as [|a rest IH]; intros st Hsound; [exact Hsound|].
  cbn [translateNewNodes i_state]. apply IH, translateNewNode_sound, Hsound.
Qed.

Lemma translateNewNodes_posted server lang nodes : forall st,
  List.length (i_posted (translateNewNodes server lang st nodes)) <= List.length nodes
  /\ List.length (i_nodes (translateNewNodes server lang st nodes)) = List.length nodes.
Proof.
  induction nodes as [|a rest IH]; intros st; [split; reflexivity|].
  cbn [translateNewNodes i_posted i_nodes List.length].
  destruct (IH (o_state (translateNewNode server lang st a))) as [H1 H2].
  split; [|rewrite H2; reflexivity].
  destruct (o_posted (translateNewNode server lang st a)); cbn [List.length]; lia.
Qed.

Lemma newNodes_elements nodes mutations :
  List.length (newNodes nodes mutations) <= List.length (addedElements mutations).
Proof.
  unfold newNodes, addedElements.
  induction mutations as [|m ms IH]; [reflexivity|].
  cbn [flat_map concat]. rewrite List.filter_app, !length_app.
  apply Nat.add_le_mono; [|exact IH]. clear IH.
  induction m as [|a m IH]; [reflexivity|].
  cbn [flat_map List.filter]. rewrite length_app. unfold enqueue at 1.
  destruct (isElement (a_node a)); [|exact IH].
  destruct (negb (marked nodes (nodeId (a_node a))) && negb (closestNo a));
    cbn [List.length]; lia.
Qed.

(** An added element that is unmarked and has not opted out is queued. *)
Lemma newNodes_complete nodes mutations addedNodes a :
  In addedNodes mutations -> In a addedNodes ->
  isElement (a_node a) = true -> nodeId (a_node a) ∉ nodes -> closestNo a = false ->
  In a (newNodes nodes mutations).
Proof.
  intros Hm Ha He Hn Hc. unfold newNodes.
  apply in_flat_map. exists addedNodes. split; [exact Hm|].
  apply in_flat_map. exists a. split; [exact Ha|].
  unfold enqueue. apply marked_false in Hn. rewrite He, Hn, Hc. left. reflexivity.
Qed.

(** X12.  When the observer translates, and how much.  The callback
    calls [translateNewNodes] exactly when the mutation records add an
    element that is unmarked and has not opted out: when it does not call
    it, every added element is marked or has opted out; when it calls it,
    there is such an element, the loop runs on the queue of these
    elements, makes at most one request for every element that was added,
    returns one subtree for every queued element, keeps every marker and
    keeps the cache free of empty translations. *)
Theorem observer_requests_are_bounded
        (server : Collaborator) (lang : string) (st : State)
        (mutations : list (list Added)) :
  match observerCallback server lang st mutations with
  | None =>
      forall addedNodes a,
        In addedNodes mutations -> In a addedNodes ->
        isElement (a_node a) = true ->
        nodeId (a_node a) ∈ translatedNodes st \/ closestNo a = true
  | Some r =>
      (exists addedNodes a,
          In addedNodes mutations /\ In a addedNodes
          /\ isElement (a_node a) = true
          /\ (nodeId (a_node a) ∉ translatedNodes st) /\ closestNo a = false)
      /\ r = translateNewNodes server lang st (newNodes (translatedNodes st) mutations)
      /\ List.length (i_posted r) <= List.length (addedElements mutations)
      /\ List.length (i_nodes r)
         = List.length (newNodes (translatedNodes st) mutations)
      /\ translatedNodes st ⊆ translatedNodes (i_state r)
      /\ (cacheSound (translationCache st) -> cacheSound (translationCache (i_state r)))
  end.
Proof.
  unfold observerCallback.
  pose proof (newNodes_elements (translatedNodes st) mutations) as Hle.
  destruct (newNodes (translatedNodes st) mutations) as [|a queue] eqn:Hq.
  - intros addedNodes b Hm Hb He.
    destruct (decide (nodeId (a_node b) ∈ translatedNodes st)) as [Hin|Hout];
      [left; exact Hin|right].
    destruct (closestNo b) eqn:Hc; [reflexivity|].
    pose proof (newNodes_complete _ _ _ _ Hm Hb He Hout Hc) as Hin.
    rewrite Hq in Hin. destruct Hin.
  - destruct (translateNewNodes_posted server lang (a :: queue) st) as [H1 H2].
    split.
    { assert (Hin : In a (newNodes (translatedNodes st) mutations))
        by (rewrite Hq; left; reflexivity).
      unfold newNodes in Hin.
      apply in_flat_map in Hin as (addedNodes & Hm & Hin).
      apply in_flat_map in Hin as (b & Hb & Hin).
      apply enqueue_inv in Hin as (-> & He & Hmark & Hno).
      exists addedNodes, b. auto 10. }
    split; [reflexivity|]. split; [lia|]. split; [exact H2|]. split.
    + intros id Hid. apply translateNewNodes_keeps_markers. exact Hid.
    + apply translateNewNodes_sound.
Qed.

(** ** Link rewriting on the tree *)

Lemma rewriteInternalLinks_writes lang links : forall root (nodes : gset nat),
  fold_left (rewriteLink lang) links root
  = fst (fold_left writeAttr (linkWrites lang links) (root, nodes)).
Proof.
  induction links as [|link links IH]; intros root nodes; [reflexivity|].
  cbn [fold_left linkWrites flat_map]. rewrite fold_left_app.
  unfold rewriteLink at 2.
  destruct (getAttribute "href" (e_attributes link)) as [href|];
    [|cbn [fold_left]; apply IH].
  destruct (newHref lang href) as [h|]; cbn [fold_left]; [|apply IH].
  unfold writeAttr at 2. cbn [fst snd]. apply IH.
Qed.

Lemma rewriteInternalLinks_elements lang root :
  descendantElements (rewriteInternalLinks lang root)
  = map (rewritten (linkWrites lang (querySelectorAllLinks root)))
        (descendantElements root).
Proof.
  unfold rewriteInternalLinks.
  rewrite (rewriteInternalLinks_writes lang _ root ∅).
  apply writeAttr_descendants.
Qed.

Lemma linkWrites_In lang links id name v :
  In (id, name, v) (linkWrites lang links)
  <-> exists link href, In link links /\ e_id link = id /\ name = "href"
                        /\ getAttribute "href" (e_attributes link) = Some href
                        /\ newHref lang href = Some v.
Proof.
  unfold linkWrites. rewrite in_flat_map. split.
  - intros (link & Hlink & Hin).
    destruct (getAttribute "href" (e_attributes link)) as [href|] eqn:Hh; [|destruct Hin].
    destruct (newHref lang href) as [h|] eqn:Hn; [|destruct Hin].
    destruct Hin as [[= <- <- <-]|[]]. exists link, href. auto.
  - intros (link & href & Hlink & <- & -> & Hh & Hn). exists link.
    split; [exact Hlink|]. rewrite Hh, Hn. left. reflexivity.
Qed.

(** The value of an attribute that is assigned to is one of the values
    assigned. *)
Lemma rewritten_some_write ws name : forall e,
  (exists v, In (e_id e, name, v) ws) ->
  exists v, In (e_id e, name, v) ws
            /\ getAttribute name (e_attributes (rewritten ws e)) = Some v.
Proof.
  induction ws as [|[[i nm] v0] ws IH]; intros e [v Hv]; [destruct Hv|].
  assert (Hid : e_id (reattr i nm v0 e) = e_id e)
    by (unfold reattr; destruct (Nat.eqb (e_id e) i); reflexivity).
  change (rewritten ((i, nm, v0) :: ws) e) with (rewritten ws (reattr i nm v0 e)).
  destruct (attr_write_dec ws (e_id e) name) as [[v' Hv']|Hnone].
  - destruct (IH (reattr i nm v0 e)) as (w & Hw & Hget).
    + exists v'. rewrite Hid. exact Hv'.
    + rewrite Hid in Hw. exists w. split; [right; exact Hw|exact Hget].
  - destruct Hv as [[= -> -> ->]|Hv]; [|exfalso; exact (Hnone v Hv)].
    exists v. split; [left; reflexivity|].
    rewrite rewritten_other by (rewrite Hid; exact Hnone).
    unfold reattr. rewrite Nat.eqb_refl. cbn [e_attributes].
    apply getAttribute_setAttribute_same.
Qed.

Lemma fold_rewriteLink_fixed lang links : forall root,
  (forall link href, In link links ->
                     getAttribute "href" (e_attributes link) = Some href ->
                     newHref lang href = None) ->
  fold_left (rewriteLink lang) links root = root.
Proof.
  induction links as [|link links IH]; intros root Hall; [reflexivity|].
  cbn [fold_left].
  assert (Hstep : rewriteLink lang root link = root).
  { unfold rewriteLink.
    destruct (getAttribute "href" (e_attributes link)) as [href|] eqn:Hh; [|reflexivity].
    rewrite (Hall link href (or_introl eq_refl) Hh). reflexivity. }
  rewrite Hstep. apply IH. intros l h Hl. apply Hall. right. exact Hl.
Qed.

(** X13.  Rewriting the links of a subtree twice is rewriting them once:
    after [rewriteInternalLinks] has run, a second run assigns to no
    [href], whatever the subtree holds. *)
Theorem rewriteInternalLinks_idempotent (lang : string) (root : Node) :
  rewriteInternalLinks lang (rewriteInternalLinks lang root)
  = rewriteInternalLinks lang root.
Proof.
  unfold rewriteInternalLinks at 1. apply fold_rewriteLink_fixed.
  intros link' href' Hlink' Hhref'.
  unfold querySelectorAllLinks in Hlink'. apply filter_In in Hlink' as [Hin' Hmatch'].
  rewrite rewriteInternalLinks_elements in Hin'.
  apply in_map_iff in Hin' as (e & <- & He).
  set (ws := linkWrites lang (querySelectorAllLinks root)) in *.
  destruct (attr_write_dec ws (e_id e) "href") as [Hsome|Hnone].
  - destruct (rewritten_some_write ws "href" e Hsome) as (v & Hv & Hget).
    rewrite Hget in Hhref'. injection Hhref' as <-.
    apply linkWrites_In in Hv as (l & h & _ & _ & _ & _ & Hn).
    apply newHref_prefixed. apply (newHref_Some lang h v Hn).
  - rewrite rewritten_other in Hhref' by exact Hnone.
    destruct (newHref lang href') as [h|] eqn:Hn; [|reflexivity].
    exfalso. apply (Hnone h). apply linkWrites_In. exists e, href'.
    split; [|auto]. apply filter_In. split; [exact He|].
    destruct (rewritten_id ws e) as [_ Htag]. rewrite Htag in Hmatch'.
    apply andb_true_iff in Hmatch' as [Ht _]. rewrite Ht. cbn [andb].
    unfold hasAttribute. rewrite Hhref'. reflexivity.
Qed.

Lemma Forall2_map_r {A B : Type} (P : A -> B -> Prop) (u : A -> B) (l : list A) :
  (forall x, In x l -> P x (u x)) -> Forall2 P l (map u l).
Proof.
  induction l as [|x l IH]; intros H; [constructor|].
  cbn [map]. constructor; [apply H; left; reflexivity|].
  apply IH. intros y Hy. apply H. right. exact Hy.
Qed.

(** X14.  What [rewriteInternalLinks] does to a subtree with pairwise
    distinct nodes: the elements below the root are the same, in the same
    order, with the same tag names and the same attributes, except that
    the [href] of every anchor that has one, of HTML or of an SVG
    fragment, is [rewriteHref] of its former value; no text node
    changes. *)
Theorem rewriteInternalLinks_rewrites_every_href (lang : string) (root : Node) :
  wellFormed root ->
  Forall2 (fun e e' =>
             e_id e' = e_id e /\ e_tagName e' = e_tagName e
             /\ (forall name, name <> "href" ->
                   getAttribute name (e_attributes e')
                   = getAttribute name (e_attributes e))
             /\ getAttribute "href" (e_attributes e')
                = if isAnchor (e_tagName e)
                  then option_map (rewriteHref lang)
                                  (getAttribute "href" (e_attributes e))
                  else getAttribute "href" (e_attributes e))
          (descendantElements root)
          (descendantElements (rewriteInternalLinks lang root))
  /\ forall above,
       treeWalkerText above (rewriteInternalLinks lang root)
       = treeWalkerText above root.
Proof.
  intros Hwf. split; [|intros above; apply rewriteInternalLinks_keeps_text].
  rewrite rewriteInternalLinks_elements.
  set (ws := linkWrites lang (querySelectorAllLinks root)).
  apply Forall2_map_r. intros e He.
  assert (Hown : forall name v, In (e_id e, name, v) ws ->
             name = "href" /\ isAnchor (e_tagName e) = true
             /\ exists href, getAttribute "href" (e_attributes e) = Some href
                             /\ newHref lang href = Some v).
  { intros name v Hv. apply linkWrites_In in Hv as (l & h & Hl & Hid & -> & Hh & Hn).
    apply filter_In in Hl as [Hl Hmatch].
    assert (l = e) by (apply (elem_refs_by_id root); auto). subst l.
    apply andb_true_iff in Hmatch as [Ht _]. eauto. }
  destruct (rewritten_id ws e) as [Hid Htag].
  split; [exact Hid|]. split; [exact Htag|]. split.
  - intros name Hname. apply rewritten_other. intros v Hv.
    apply Hown in Hv as [Hn _]. contradiction.
  - destruct (isAnchor (e_tagName e)) eqn:Ht.
    + destruct (getAttribute "href" (e_attributes e)) as [href|] eqn:Hh.
      * cbn [option_map]. unfold rewriteHref.
        destruct (newHref lang href) as [h|] eqn:Hn.
        -- apply rewritten_written.
           ++ intros id name v v' H1 H2.
              apply linkWrites_In in H1 as (l1 & h1 & Hl1 & Hid1 & _ & Hh1 & Hn1).
              apply linkWrites_In in H2 as (l2 & h2 & Hl2 & Hid2 & _ & Hh2 & Hn2).
              apply filter_In in Hl1 as [Hl1 _]. apply filter_In in Hl2 as [Hl2 _].
              assert (l1 = l2) by (apply (elem_refs_by_id root); auto; congruence).
              subst l2. congruence.
           ++ apply linkWrites_In. exists e, href. split; [|auto].
              apply filter_In. split; [exact He|]. rewrite Ht. cbn [andb].
              unfold hasAttribute. rewrite Hh. reflexivity.
        -- rewrite rewritten_other; [exact Hh|]. intros v Hv.
           apply Hown in Hv as (_ & _ & href' & Hh' & Hn'). congruence.
      * cbn [option_map]. rewrite rewritten_other; [exact Hh|]. intros v Hv.
        apply Hown in Hv as (_ & _ & href' & Hh' & _). congruence.
    + apply rewritten_other. intros v Hv.
      apply Hown in Hv as (_ & Ht' & _). congruence.
Qed.

Lemma wellFormed_navigation : wellFormed navigation.
Proof. apply (bool_decide_unpack _). vm_compute. exact I. Defined.

Lemma rewriteInternalLinks_rewrites_every_href_witness :
  wellFormed navigation
  /\ Forall2 (fun e e' =>
                e_id e' = e_id e /\ e_tagName e' = e_tagName e
                /\ (forall name, name <> "href" ->
                      getAttribute name (e_attributes e')
                      = getAttribute name (e_attributes e))
                /\ getAttribute "href" (e_attributes e')
                   = if isAnchor (e_tagName e)
                     then option_map (rewriteHref "fr")
                                     (getAttribute "href" (e_attributes e))
                     else getAttribute "href" (e_attributes e))
             (descendantElements navigation)
             (descendantElements (rewriteInternalLinks "fr" navigation))
  /\ forall above,
       treeWalkerText above (rewriteInternalLinks "fr" navigation)
       = treeWalkerText above navigation.
Proof.
  split; [exact wellFormed_navigation|].
  exact (rewriteInternalLinks_rewrites_every_href "fr" navigation wellFormed_navigation).
Defined.

(** X15.  What the callback writes.  When the callback of the link loop
    assigns to an [href], the former value was not empty and started with
    none of [http://], [https://], [#], [mailto:] and [tel:]; the value
    written is the locale prefix, or the locale prefix, a slash and more;
    and the callback leaves the value it wrote alone. *)
Theorem newHref_writes_prefixed_path (lang href h : string) :
  newHref lang href = Some h ->
  Str.truthy href = true
  /\ Str.startsWith href "http://" = false /\ Str.startsWith href "https://" = false
  /\ Str.startsWith href "#" = false
  /\ Str.startsWith href "mailto:" = false /\ Str.startsWith href "tel:" = false
  /\ (h = "/" +:+ lang \/ Str.startsWith h ("/" +:+ lang +:+ "/") = true)
  /\ newHref lang h = None.
Proof.
  intros Hn.
  pose proof (newHref_Some lang href h Hn) as Hshape.
  pose proof (newHref_prefixed lang h Hshape) as Hstable.
  unfold newHref in Hn.
  destruct (Str.truthy href); [|discriminate]. cbn [negb] in Hn.
  destruct (Str.startsWith href "http://"); [discriminate|].
  destruct (Str.startsWith href "https://"); [discriminate|]. cbn [orb] in Hn.
  destruct (Str.startsWith href "#"); [discriminate|].
  destruct (Str.startsWith href "mailto:"); [discriminate|].
  destruct (Str.startsWith href "tel:"); [discriminate|].
  repeat (split; [reflexivity|]). split; [|exact Hstable].
  destruct Hshape as [->|[r ->]]; [left; reflexivity|right].
  rewrite <- append_assoc. apply startsWith_iff. exists r.
  rewrite !append_assoc. reflexivity.
Qed.

Lemma newHref_writes_prefixed_path_witness :
  newHref "fr" "./contact" = Some "/fr/contact"
  /\ Str.truthy "./contact" = true
  /\ Str.startsWith "./contact" "http://" = false
  /\ Str.startsWith "./contact" "https://" = false
  /\ Str.startsWith "./contact" "#" = false
  /\ Str.startsWith "./contact" "mailto:" = false
  /\ Str.startsWith "./contact" "tel:" = false
  /\ ("/fr/contact" = "/" +:+ "fr"
      \/ Str.startsWith "/fr/contact" ("/" +:+ "fr" +:+ "/") = true)
  /\ newHref "fr" "/fr/contact" = None.
Proof.
  split; [reflexivity|].
  exact (newHref_writes_prefixed_path "fr" "./contact" "/fr/contact" eq_refl).
Defined.

(** ** The worker *)

Lemma passthrough_served env request before r :
  response (passthrough env request before) = Resolved r ->
  exists u, origin env u = Resolved r /\ In u (fetched (passthrough env request before)).
Proof.
  unfold passthrough. cbn [response fetched]. intros H. exists request.
  split; [exact H|]. apply in_or_app. right. left. reflexivity.
Qed.

(** What the constructor makes when it does not throw. *)
Lemma newResponse_Some b st stt hs r :
  newResponse b st stt hs = Some r ->
  status r = st /\ statusText r = stt /\ headers r = hs
  /\ (200 <=? st) && (st <=? 599) = true
  /\ match b with
     | Some text => nullBodyStatus st = false /\ content r = text
     | None => content r = ""
     end.
Proof.
  unfold newResponse. destruct ((200 <=? st) && (st <=? 599)); [|discriminate].
  destruct b as [text|].
  - destruct (nullBodyStatus st); [discriminate|]. intros [= <-].
    repeat split; reflexivity.
  - intros [= <-]. repeat split; reflexivity.
Qed.

(** The copy of a response has its status, its headers and its text. *)
Lemma newResponse_copy cached r :
  newResponse (bodyOf cached) (status cached) (statusText cached) (headers cached)
  = Some r ->
  status r = status cached /\ statusText r = statusText cached
  /\ headers r = headers cached /\ body r = body cached.
Proof.
  intros H. apply newResponse_Some in H as (Hs & Ht & Hh & _ & Hb).
  repeat (split; [assumption|]).
  unfold body, bodyOf in *. rewrite Hs.
  destruct (nullBodyStatus (status cached)); [reflexivity|].
  destruct Hb as [_ Hb]. exact Hb.
Qed.

(** What one of the two pipelines made of a response of the origin. *)
Lemma handleTranslatedRequest_served env request lang originalPath cfg r :
  response (handleTranslatedRequest env request lang originalPath cfg) = Resolved r ->
  (exists u, origin env u = Resolved r
             /\ In u (fetched (handleTranslatedRequest env request lang originalPath cfg)))
  \/ ((exists cached, pageCache env request lang = Some (Found cached)
                      /\ status r = status cached
                      /\ statusText r = statusText cached
                      /\ headers r = headers cached /\ body r = body cached)
      /\ fetched (handleTranslatedRequest env request lang originalPath cfg) = [])
  \/ (exists u r0,
         origin env u = Resolved r0
         /\ In u (fetched (handleTranslatedRequest env request lang originalPath cfg))
         /\ ok r0 = true
         /\ Str.includes (contentTypeOf r0) "html" = true
         /\ nullBodyStatus (status r0) = false
         /\ status r = status r0 /\ statusText r = statusText r0
         /\ getHeader "content-language" (headers r) = Some lang
         /\ getHeader "cache-control" (headers r) = Some "public, max-age=3600"
         /\ (forall name, name <> "content-language" -> name <> "cache-control" ->
                          getHeader name (headers r) = getHeader name (headers r0))
         /\ stored (handleTranslatedRequest env request lang originalPath cfg)
            = Some (request, lang, r)).
Proof.
  unfold handleTranslatedRequest.
  destruct (pageCache env request lang) as [[|cached]|] eqn:Hc.
  { discriminate. }
  { destruct (newResponse (bodyOf cached) _ _ _) as [copy|] eqn:Hcopy; [|discriminate].
    cbn [response fetched]. intros [= <-]. right. left.
    split; [|reflexivity]. exists cached. split; [reflexivity|].
    apply newResponse_copy. exact Hcopy. }
  match goal with
  | |- context [origin env ?u] => set (originUrl := u)
  end.
  destruct (origin env originUrl) as [|r0] eqn:Ho.
  { intros H. left. apply passthrough_served. exact H. }
  destruct (ok r0) eqn:Hok; cbn [negb].
  2:{ cbn [response fetched]. intros [= <-]. left. exists originUrl.
      split; [exact Ho|left; reflexivity]. }
  destruct (Str.includes (contentTypeOf r0) "html") eqn:Hhtml; cbn [negb].
  2:{ cbn [response fetched]. intros [= <-]. left. exists originUrl.
      split; [exact Ho|left; reflexivity]. }
  destruct (newResponse (Some _) _ _ _) as [created|] eqn:Hnew.
  2:{ intros H. left. apply passthrough_served. exact H. }
  apply newResponse_Some in Hnew as (Hs & Ht & Hh & _ & Hnull & _).
  cbn [response fetched stored]. intros [= <-]. right. right.
  exists originUrl, r0. cbn [status statusText headers].
  split; [exact Ho|]. split; [left; reflexivity|].
  split; [exact Hok|]. split; [exact Hhtml|]. split; [exact Hnull|].
  split; [exact Hs|]. split; [exact Ht|].
  split; [rewrite getHeader_set_other by discriminate; apply getHeader_set_same|].
  split; [apply getHeader_set_same|].
  split; [|reflexivity].
  intros name H1 H2. rewrite !getHeader_set_other by congruence.
  rewrite Hh. reflexivity.
Qed.

Lemma handleDefaultLanguagePage_served env request cfg r :
  response (handleDefaultLanguagePage env request cfg) = Resolved r ->
  (exists u, origin env u = Resolved r
             /\ In u (fetched (handleDefaultLanguagePage env request cfg)))
  \/ (exists r0,
         origin env request = Resolved r0
         /\ Str.includes (contentTypeOf r0) "html" = true
         /\ nullBodyStatus (status r0) = false
         /\ status r = status r0 /\ statusText r = statusText r0
         /\ headers r = headers r0).
Proof.
  unfold handleDefaultLanguagePage.
  destruct (origin env request) as [|r0] eqn:Ho.
  { intros H. left. apply passthrough_served. exact H. }
  destruct (Str.includes (contentTypeOf r0) "html") eqn:Hhtml; cbn [negb].
  - destruct (newResponse (Some _) _ _ _) as [created|] eqn:Hnew.
    2:{ intros H. left. apply passthrough_served. exact H. }
    apply newResponse_Some in Hnew as (Hs & Ht & Hh & _ & Hnull & _).
    cbn [response]. intros [= <-]. right. exists r0. auto 10.
  - cbn [response fetched]. intros [= <-]. left. exists request.
    split; [exact Ho|left; reflexivity].
Qed.

(** X16.  The worker makes up no response.  Whatever it serves is an
    answer of the origin to a URL it fetched, handed on as it is; or a
    copy of an entry of the page cache, with its status, headers and
    text, served without any fetch; or is made from an HTML answer of the
    origin to a URL it fetched whose status is not a null body status,
    with the status and the status text of that answer and with its
    headers, of which only [Content-Language] and [Cache-Control] may
    differ.  An answer of the origin that is not HTML, or that has no
    body, is therefore never changed. *)
Theorem worker_serves_origin_or_augmented_html
        (env : Env) (request : Url) (r : Response) :
  response (fetch env request) = Resolved r ->
  (exists u, origin env u = Resolved r /\ In u (fetched (fetch env request)))
  \/ ((exists lang cached,
          pageCache env request lang = Some (Found cached)
          /\ status r = status cached /\ statusText r = statusText cached
          /\ headers r = headers cached /\ body r = body cached)
      /\ fetched (fetch env request) = [])
  \/ (exists u r0,
         origin env u = Resolved r0 /\ In u (fetched (fetch env request))
         /\ Str.includes (contentTypeOf r0) "html" = true
         /\ nullBodyStatus (status r0) = false
         /\ status r = status r0 /\ statusText r = statusText r0
         /\ (forall name, name <> "content-language" -> name <> "cache-control" ->
                          getHeader name (headers r) = getHeader name (headers r0))).
Proof.
  unfold fetch.
  destruct (ALTIFIED_API_KEY env) as [apiKey|];
    [|intros H; left; apply passthrough_served; exact H].
  destruct (Str.truthy apiKey); cbn [negb];
    [|intros H; left; apply passthrough_served; exact H].
  destruct (projectConfig env) as [cfg|];
    [|intros H; left; apply passthrough_served; exact H].
  destruct (target_languages cfg) as [targets|];
    [|intros H; left; apply passthrough_served; exact H].
  destruct (enabled targets (head (pathParts (u_pathname request)))).
  - intros H. apply handleTranslatedRequest_served in H
      as [H|[[(cached & H1) H2]|(u & r0 & H1 & H2 & _ & H3 & H4 & H5 & H6 & _ & _ & H7 & _)]].
    + left. exact H.
    + right. left. eauto.
    + right. right. exists u, r0. auto 10.
  - intros H.
    pose proof H as H'. apply handleDefaultLanguagePage_served in H'
      as [H'|(r0 & H1 & H2 & H3 & H4 & H5 & H6)].
    + left. exact H'.
    + right. right. exists request, r0. split; [exact H1|].
      split.
      { unfold handleDefaultLanguagePage in *. rewrite H1, H2 in *. cbn [negb] in *.
        destruct (newResponse (Some _) _ _ _); left; reflexivity. }
      split; [exact H2|]. split; [exact H3|]. split; [exact H4|].
      split; [exact H5|].
      intros name _ _. rewrite H6. reflexivity.
Qed.

Lemma worker_serves_origin_or_augmented_html_witness :
  response (fetch Samples.aboutSite Samples.frenchAboutUrl) = Resolved frenchAboutPage
  /\ ((exists u, origin Samples.aboutSite u = Resolved frenchAboutPage
                 /\ In u (fetched (fetch Samples.aboutSite Samples.frenchAboutUrl)))
      \/ ((exists lang cached,
              pageCache Samples.aboutSite Samples.frenchAboutUrl lang
              = Some (Found cached)
              /\ status frenchAboutPage = status cached
              /\ statusText frenchAboutPage = statusText cached
              /\ headers frenchAboutPage = headers cached
              /\ body frenchAboutPage = body cached)
          /\ fetched (fetch Samples.aboutSite Samples.frenchAboutUrl) = [])
      \/ (exists u r0,
             origin Samples.aboutSite u = Resolved r0
             /\ In u (fetched (fetch Samples.aboutSite Samples.frenchAboutUrl))
             /\ Str.includes (contentTypeOf r0) "html" = true
             /\ nullBodyStatus (status r0) = false
             /\ status frenchAboutPage = status r0
             /\ statusText frenchAboutPage = statusText r0
             /\ (forall name, name <> "content-language" -> name <> "cache-control" ->
                              getHeader name (headers frenchAboutPage)
                              = getHeader name (headers r0)))).
Proof.
  assert (H : response (fetch Samples.aboutSite Samples.frenchAboutUrl)
              = Resolved frenchAboutPage) by (vm_compute; reflexivity).
  split; [exact H|].
  exact (worker_serves_origin_or_augmented_html Samples.aboutSite
           Samples.frenchAboutUrl frenchAboutPage H).
Defined.

(** X17.  What the worker gives to the page cache.  An entry is stored
    only by the translated pipeline, under the URL of the request and the
    language of its first path segment, after a miss of the cache and an
    OK HTML answer of the origin whose status is not a null body status
    (with 204 or 205 the constructor throws and nothing is stored); the
    entry is the response that is served, and it carries
    [Content-Language] with that language and
    [Cache-Control: public, max-age=3600]. *)
Theorem stored_entry_is_the_served_page
        (env : Env) (request u : Url) (lang : string) (r : Response) :
  stored (fetch env request) = Some (u, lang, r) ->
  u = request
  /\ response (fetch env request) = Resolved r
  /\ head (pathParts (u_pathname request)) = Some lang
  /\ pageCache env request lang = None
  /\ getHeader "content-language" (headers r) = Some lang
  /\ getHeader "cache-control" (headers r) = Some "public, max-age=3600"
  /\ exists u0 r0,
       fetched (fetch env request) = [u0]
       /\ origin env u0 = Resolved r0 /\ ok r0 = true
       /\ Str.includes (contentTypeOf r0) "html" = true
       /\ nullBodyStatus (status r0) = false
       /\ status r = status r0.
Proof.
  unfold fetch.
  destruct (ALTIFIED_API_KEY env) as [apiKey|]; [|discriminate].
  destruct (Str.truthy apiKey); cbn [negb]; [|discriminate].
  destruct (projectConfig env) as [cfg|]; [|discriminate].
  destruct (target_languages cfg) as [targets|]; [|discriminate].
  assert (Hdefault : forall x, stored (handleDefaultLanguagePage env request cfg) <> Some x).
  { intros x. unfold handleDefaultLanguagePage.
    destruct (origin env request) as [|r0]; [discriminate|].
    destruct (negb _); [discriminate|].
    destruct (newResponse _ _ _ _); discriminate. }
  destruct (head (pathParts (u_pathname request))) as [seg|] eqn:Hseg;
    cbn [enabled].
  2:{ intros H. exfalso. exact (Hdefault _ H). }
  destruct (existsb (Str.eqb seg) targets).
  2:{ intros H. exfalso. exact (Hdefault _ H). }
  clear Hdefault. unfold handleTranslatedRequest.
  destruct (pageCache env request seg) as [[|cached]|] eqn:Hcache.
  { discriminate. }
  { destruct (newResponse _ _ _ _); discriminate. }
  match goal with
  | |- context [origin env ?u] => set (originUrl := u)
  end.
  destruct (origin env originUrl) as [|r0] eqn:Ho; [discriminate|].
  destruct (ok r0) eqn:Hok; cbn [negb]; [|discriminate].
  destruct (Str.includes (contentTypeOf r0) "html") eqn:Hhtml; cbn [negb];
    [|discriminate].
  destruct (newResponse (Some _) _ _ _) as [created|] eqn:Hnew; [|discriminate].
  apply newResponse_Some in Hnew as (Hs & _ & _ & _ & Hnull & _).
  cbn [stored response fetched]. intros [= <- <- <-].
  cbn [headers status].
  split; [reflexivity|]. split; [reflexivity|]. split; [reflexivity|].
  split; [exact Hcache|].
  split; [rewrite getHeader_set_other by discriminate; apply getHeader_set_same|].
  split; [apply getHeader_set_same|].
  exists originUrl, r0. auto 10.
Qed.

Lemma stored_entry_is_the_served_page_witness :
  stored (fetch Samples.aboutSite Samples.frenchAboutUrl)
  = Some (Samples.frenchAboutUrl, "fr", frenchAboutPage)
  /\ Samples.frenchAboutUrl = Samples.frenchAboutUrl
  /\ response (fetch Samples.aboutSite Samples.frenchAboutUrl) = Resolved frenchAboutPage
  /\ head (pathParts (u_pathname Samples.frenchAboutUrl)) = Some "fr"
  /\ pageCache Samples.aboutSite Samples.frenchAboutUrl "fr" = None
  /\ getHeader "content-language" (headers frenchAboutPage) = Some "fr"
  /\ getHeader "cache-control" (headers frenchAboutPage) = Some "public, max-age=3600"
  /\ exists u0 r0,
       fetched (fetch Samples.aboutSite Samples.frenchAboutUrl) = [u0]
       /\ origin Samples.aboutSite u0 = Resolved r0 /\ ok r0 = true
       /\ Str.includes (contentTypeOf r0) "html" = true
       /\ nullBodyStatus (status r0) = false
       /\ status frenchAboutPage = status r0.
Proof.
  assert (H : stored (fetch Samples.aboutSite Samples.frenchAboutUrl)
              = Some (Samples.frenchAboutUrl, "fr", frenchAboutPage))
    by (vm_compute; reflexivity).
  split; [exact H|].
  exact (stored_entry_is_the_served_page Samples.aboutSite Samples.frenchAboutUrl
           Samples.frenchAboutUrl "fr" frenchAboutPage H).
Defined.

(** An OK HTML answer without a body, status 204: the constructor throws,
    the request is fetched as it came and its answer served; nothing is
    stored. *)
Lemma empty_answer_is_fetched_again :
  fetch emptySite Samples.frenchAboutUrl
  = mkServed (Resolved noContentPage) [Samples.aboutUrl; Samples.frenchAboutUrl] None
  /\ fetch emptySite Samples.aboutUrl
     = mkServed (Resolved noContentPage) [Samples.aboutUrl; Samples.aboutUrl] None.
Proof. split; vm_compute; reflexivity. Qed.

Lemma enabled_In targets seg :
  enabled targets (Some seg) = true <-> In seg targets.
Proof.
  cbn [enabled]. rewrite existsb_exists. split.
  - intros (x & Hx & He). apply str_eqb_eq in He. subst x. exact Hx.
  - intros H. exists seg. split; [exact H|apply str_eqb_refl].
Qed.



(** ** Routing *)

Lemma split_nonempty sep s : Str.split sep s <> [].
Proof.
  destruct s as [|c s]; [discriminate|]. cbn [Str.split].
  destruct (Ascii.eqb c sep); [discriminate|].
  destruct (Str.split sep s); discriminate.
Qed.

(** Splitting at a separator splits the parts. *)
Lemma split_app sep a b :
  Str.split sep (a +:+ String sep b) = Str.split sep a ++ Str.split sep b.
Proof.
  induction a as [|c a IH].
  - cbn [String.append Str.split]. rewrite Ascii.eqb_refl. reflexivity.
  - change (String c a +:+ String sep b) with (String c (a +:+ String sep b)).
    cbn [Str.split]. rewrite IH.
    destruct (Ascii.eqb c sep); [reflexivity|].
    pose proof (split_nonempty sep a) as Hne.
    destruct (Str.split sep a) as [|w ws]; [contradiction|reflexivity].
Qed.

Lemma split_segment sep s : Str.mentions sep s = false -> Str.split sep s = [s].
Proof.
  induction s as [|c s IH]; [reflexivity|].
  cbn [Str.mentions Str.split]. intros H. apply orb_false_iff in H as [Hc Hs].
  rewrite Hc, (IH Hs). reflexivity.
Qed.

Lemma split_parts sep s p :
  In p (Str.split sep s) -> Str.mentions sep p = false.
Proof.
  revert p. induction s as [|c s IH]; intros p.
  - intros [<-|[]]. reflexivity.
  - cbn [Str.split]. destruct (Ascii.eqb c sep) eqn:Hc.
    + intros [<-|Hp]; [reflexivity|apply IH; exact Hp].
    + pose proof (split_nonempty sep s) as Hne.
      destruct (Str.split sep s) as [|w ws]; [contradiction|].
      intros [<-|Hp].
      * cbn [Str.mentions]. rewrite Hc. apply IH. left. reflexivity.
      * apply IH. right. exact Hp.
Qed.

Lemma pathParts_app a b :
  pathParts (a +:+ "/" +:+ b) = pathParts a ++ pathParts b.
Proof. unfold pathParts. cbn [String.append]. rewrite split_app. apply List.filter_app. Qed.

Lemma pathParts_segment s : isSegment s = true -> pathParts s = [s].
Proof.
  unfold isSegment, pathParts. intros H. apply andb_true_iff in H as [Ht Hm].
  apply negb_true_iff in Hm. rewrite (split_segment _ _ Hm).
  cbn [List.filter]. rewrite Ht. reflexivity.
Qed.

Lemma pathParts_segments pathname p :
  In p (pathParts pathname) -> isSegment p = true.
Proof.
  unfold pathParts, isSegment. intros H. apply filter_In in H as [Hin Ht].
  rewrite Ht, (split_parts _ _ _ Hin). reflexivity.
Qed.

Lemma pathParts_join parts :
  forallb isSegment parts = true -> pathParts ("/" +:+ Str.join "/" parts) = parts.
Proof.
  intros Hall.
  change ("/" +:+ Str.join "/" parts) with ("" +:+ "/" +:+ Str.join "/" parts).
  rewrite pathParts_app. cbn [pathParts Str.split List.filter Str.truthy app].
  induction parts as [|p ps IH]; [reflexivity|].
  cbn [forallb] in Hall. apply andb_true_iff in Hall as [Hp Hps].
  destruct ps as [|q ps].
  - cbn [Str.join]. apply pathParts_segment. exact Hp.
  - change (Str.join "/" (p :: q :: ps)) with (p +:+ "/" +:+ Str.join "/" (q :: ps)).
    rewrite pathParts_app, (pathParts_segment p Hp), (IH Hps). reflexivity.
Qed.

(** X19.  The path the worker asks the origin for is in normal form:
    [parts.join('/')] after a slash splits again into the same parts, so
    a path that the worker has put together ([originalPath]) has no empty
    segment, no doubled and no trailing slash, and putting it together
    again changes nothing. *)
Theorem pathParts_join_round_trip (pathname : string) :
  pathParts ("/" +:+ Str.join "/" (pathParts pathname)) = pathParts pathname
  /\ "/" +:+ Str.join "/" (pathParts ("/" +:+ Str.join "/" (pathParts pathname)))
     = "/" +:+ Str.join "/" (pathParts pathname).
Proof.
  assert (H : pathParts ("/" +:+ Str.join "/" (pathParts pathname))
              = pathParts pathname).
  { apply pathParts_join. apply forallb_forall. apply pathParts_segments. }
  split; [exact H|]. rewrite H. reflexivity.
Qed.

(** The segments of a path that starts with a language segment. *)
Lemma pathParts_language_prefix (lang rest : string) :
  isSegment lang = true ->
  rest = "" \/ Str.startsWith rest "/" = true ->
  pathParts ("/" +:+ lang +:+ rest) = lang :: pathParts rest.
Proof.
  intros Hseg Hrest.
  change ("/" +:+ lang +:+ rest) with ("" +:+ "/" +:+ (lang +:+ rest)).
  rewrite pathParts_app. cbn [pathParts Str.split List.filter Str.truthy app].
  destruct Hrest as [->|Hs].
  - rewrite append_nil_r. apply pathParts_segment. exact Hseg.
  - apply startsWith_iff in Hs as [r ->].
    change (pathParts (lang +:+ "/" +:+ r) = lang :: pathParts ("" +:+ "/" +:+ r)).
    rewrite !pathParts_app, (pathParts_segment lang Hseg). reflexivity.
Qed.

(** X20.  Routing of a language-prefixed path.  For a request whose path
    is a slash, an enabled language and then nothing or a slash and more,
    the worker runs the translated pipeline for that language, and the
    path it hands over is a slash followed by the non-empty segments of
    the rest, joined by slashes. *)
Theorem fetch_routes_language_prefix
        (env : Env) (request : Url) (apiKey : string) (cfg : ProjectConfig)
        (targets : list string) (lang rest : string) :
  ALTIFIED_API_KEY env = Some apiKey -> Str.truthy apiKey = true ->
  projectConfig env = Some cfg -> target_languages cfg = Some targets ->
  In lang targets -> isSegment lang = true ->
  u_pathname request = "/" +:+ lang +:+ rest ->
  rest = "" \/ Str.startsWith rest "/" = true ->
  fetch env request
  = handleTranslatedRequest env request lang
      ("/" +:+ Str.join "/" (pathParts rest)) cfg.
Proof.
  intros Hkey Ht Hcfg Htargets Hin Hseg Hpath Hrest. unfold fetch.
  rewrite Hkey, Ht, Hcfg, Htargets, Hpath. cbn [negb].
  rewrite (pathParts_language_prefix lang rest Hseg Hrest). cbn [head tail].
  apply enabled_In in Hin. rewrite Hin. reflexivity.
Qed.

Lemma fetch_routes_language_prefix_witness :
  ALTIFIED_API_KEY Samples.aboutSite = Some "key123" /\ Str.truthy "key123" = true
  /\ projectConfig Samples.aboutSite = Some Samples.siteConfig
  /\ target_languages Samples.siteConfig = Some ["fr"; "de"]
  /\ In "de" ["fr"; "de"] /\ isSegment "de" = true
  /\ u_pathname (mkUrl "https://example.com" "/de//docs/intro/" "?v=2")
     = "/" +:+ "de" +:+ "//docs/intro/"
  /\ ("//docs/intro/" = "" \/ Str.startsWith "//docs/intro/" "/" = true)
  /\ fetch Samples.aboutSite (mkUrl "https://example.com" "/de//docs/intro/" "?v=2")
     = handleTranslatedRequest Samples.aboutSite
         (mkUrl "https://example.com" "/de//docs/intro/" "?v=2") "de"
         ("/" +:+ Str.join "/" (pathParts "//docs/intro/")) Samples.siteConfig.
Proof.
  assert (Hin : In "de" ["fr"; "de"]) by (right; left; reflexivity).
  assert (Hrest : "//docs/intro/" = "" \/ Str.startsWith "//docs/intro/" "/" = true)
    by (right; reflexivity).
  repeat (split; [first [reflexivity | exact Hin | exact Hrest]|]).
  exact (fetch_routes_language_prefix Samples.aboutSite
           (mkUrl "https://example.com" "/de//docs/intro/" "?v=2") "key123"
           Samples.siteConfig ["fr"; "de"] "de" "//docs/intro/"
           eq_refl eq_refl eq_refl eq_refl Hin eq_refl eq_refl Hrest).
Defined.

(** ** The injectors and the page *)

Lemma replaceHeadOpen_absent (s : string) (f : string -> string) :
  Str.includes s "<head" = false -> Str.replaceHeadOpen s f = s.
Proof.
  induction s as [|c s IH]; [reflexivity|].
  intros H. cbn [Str.includes] in H. apply orb_false_iff in H as [Hstart Hrest].
  cbn [Str.replaceHeadOpen]. unfold Str.matchHeadOpen. rewrite Hstart.
  rewrite (IH Hrest). reflexivity.
Qed.

(** X21.  An injector without its anchor does nothing.  The engine script
    and the alternate links need the text [</head>] in the page, the
    context script and the detection script the text [<head], the
    switcher the text [</body>], each spelled exactly so; on a page that
    lacks it the injector returns the page as it is. *)
Theorem injectors_need_their_anchor
        (html lang apiKey pathname domain : string) (cfg : ProjectConfig)
        (names : gmap string string) :
  (Str.includes html "</head>" = false ->
   injectAutoTranslation html lang apiKey = html
   /\ addHreflangLinks html pathname cfg domain = html)
  /\ (Str.includes html "<head" = false ->
      injectLanguageContext html lang = html
      /\ injectAutoLanguageDetection html cfg = html)
  /\ (Str.includes html "</body>" = false ->
      injectLanguageSwitcher html cfg names = html).
Proof.
  split; [|split].
  - intros H. unfold injectAutoTranslation, addHreflangLinks.
    rewrite !(replace_absent html "</head>") by exact H.
    split; [destruct (Str.includes html "__ALTIFIED_AUTO_TRANSLATE__")
           |destruct (Str.includes html "hreflang=")]; reflexivity.
  - intros H. unfold injectLanguageContext, injectAutoLanguageDetection.
    rewrite !replaceHeadOpen_absent by exact H.
    split; [destruct (Str.includes html "__ALTIFIED_CONTEXT__")
           |destruct (Str.includes html "__ALTIFIED_AUTO_LANG_DETECT__")]; reflexivity.
  - intros H. unfold injectLanguageSwitcher.
    rewrite (replace_absent html "</body>") by exact H.
    destruct (Str.includes html "altified-lang-switcher"); reflexivity.
Qed.

Lemma getSubstitution_cons m a b (e : ascii) (r : string) :
  Str.getSubstitution m a b (String e r)
  = if Ascii.eqb e "$" then
      match r with
      | String d r' =>
          if Ascii.eqb d "$" then String "$" (Str.getSubstitution m a b r')
          else if Ascii.eqb d "&" then m +:+ Str.getSubstitution m a b r'
          else if Ascii.eqb d "`" then a +:+ Str.getSubstitution m a b r'
          else if Ascii.eqb d "'" then b +:+ Str.getSubstitution m a b r'
          else String e (Str.getSubstitution m a b r)
      | EmptyString => String e EmptyString
      end
    else String e (Str.getSubstitution m a b r).
Proof. reflexivity. Qed.

(** The end of a replacement text that starts with an ordinary character
    and holds no [$] is copied as it is, whatever precedes it. *)
Lemma getSubstitution_keeps_tail m a b (c : ascii) (t : string) :
  Ascii.eqb c "$" = false -> Ascii.eqb c "&" = false ->
  Ascii.eqb c "`" = false -> Ascii.eqb c "'" = false ->
  Str.mentions "$" t = false ->
  forall n x, String.length x <= n ->
    exists y, Str.getSubstitution m a b (x +:+ String c t) = y +:+ String c t.
Proof.
  intros H1 H2 H3 H4 Ht.
  assert (Htail : Str.getSubstitution m a b (String c t) = String c t).
  { apply getSubstitution_plain. cbn [Str.mentions]. rewrite H1, Ht. reflexivity. }
  induction n as [|n IH]; intros x Hlen.
  - destruct x; [|simpl in Hlen; lia]. exists "". exact Htail.
  - destruct x as [|e x]; [exists ""; exact Htail|].
    cbn [String.length] in Hlen.
    change (String e x +:+ String c t) with (String e (x +:+ String c t)).
    rewrite getSubstitution_cons.
    destruct (Ascii.eqb e "$") eqn:He.
    + destruct x as [|d x].
      * cbn [String.append]. rewrite H1, H2, H3, H4, Htail.
        exists (String e ""). reflexivity.
      * change (String d x +:+ String c t) with (String d (x +:+ String c t)).
        cbn [String.length] in Hlen.
        destruct (IH x ltac:(lia)) as [y Hy].
        destruct (Ascii.eqb d "$");
          [rewrite Hy; exists (String "$" y); reflexivity|].
        destruct (Ascii.eqb d "&");
          [rewrite Hy; exists (m +:+ y); rewrite append_assoc; reflexivity|].
        destruct (Ascii.eqb d "`");
          [rewrite Hy; exists (a +:+ y); rewrite append_assoc; reflexivity|].
        destruct (Ascii.eqb d "'");
          [rewrite Hy; exists (b +:+ y); rewrite append_assoc; reflexivity|].
        destruct (IH (String d x) ltac:(cbn [String.length]; lia)) as [y' Hy'].
        change (String d x +:+ String c t) with (String d (x +:+ String c t)) in Hy'.
        rewrite Hy'. exists (String e y'). reflexivity.
    + destruct (IH x ltac:(lia)) as [y Hy]. rewrite Hy.
      exists (String e y). reflexivity.
Qed.

Lemma indexOf_take (s p : string) : forall i,
  Str.indexOf s p = Some i -> Str.length (Str.take i s) = i.
Proof.
  induction s as [|c s IH]; intros i; cbn [Str.indexOf].
  - destruct (Str.startsWith "" p); [|discriminate]. intros [= <-]. reflexivity.
  - destruct (Str.startsWith (String c s) p); [intros [= <-]; reflexivity|].
    destruct (Str.indexOf s p) as [j|] eqn:Hj; [|discriminate].
    cbn [option_map]. intros [= <-]. cbn [Str.take Str.length String.length].
    f_equal. apply IH. reflexivity.
Qed.

(** A replacement of [pat] by a text that ends with a line feed and
    [pat] inserts in front of the first [pat]. *)
Lemma replace_inserts_before (s pat x : string) :
  Str.mentions "$" pat = false ->
  Str.replace s pat (x +:+ LF +:+ pat) = s
  \/ exists u v y, s = u +:+ pat +:+ v
                   /\ Str.indexOf s pat = Some (Str.length u)
                   /\ Str.replace s pat (x +:+ LF +:+ pat) = u +:+ y +:+ LF +:+ pat +:+ v.
Proof.
  intros Hpat. unfold Str.replace.
  destruct (Str.indexOf s pat) as [i|] eqn:Hi; [right|left; reflexivity].
  cbv zeta.
  set (u := Str.take i s). set (v := Str.drop (i + Str.length pat) s).
  destruct (getSubstitution_keeps_tail pat u v (ascii_of_nat 10) pat
              eq_refl eq_refl eq_refl eq_refl Hpat (String.length x) x (le_n _))
    as [y Hy].
  exists u, v, y. split; [apply indexOf_Some; exact Hi|].
  split; [unfold u; rewrite (indexOf_take s pat i Hi); reflexivity|].
  change (x +:+ LF +:+ pat) with (x +:+ String (ascii_of_nat 10) pat).
  rewrite Hy, append_assoc. reflexivity.
Qed.

Lemma replaceHeadOpen_inserts (s script : string) :
  Str.replaceHeadOpen s (fun m => m +:+ script) = s
  \/ exists u v, s = u +:+ ">" +:+ v
                 /\ Str.replaceHeadOpen s (fun m => m +:+ script)
                    = u +:+ ">" +:+ script +:+ v.
Proof.
  destruct (replaceHeadOpen_cases s (fun m => m +:+ script))
    as [H|(pre & m' & rest & Hs & Hr)]; [left; exact H|right].
  exists (pre +:+ m'), rest. rewrite Hs at 1. rewrite Hr.
  rewrite !append_assoc. split; reflexivity.
Qed.

(** X22.  The injectors only insert.  Whatever the page, the language,
    the API key, the configuration and the language names are, each
    injector returns the page itself or the page with a text inserted at
    one place: in front of the first [</head>] (engine script, alternate
    links) or [</body>] (switcher) of the page, followed by a line feed;
    or right after a [>] of the page, where the context script and the
    detection script are inserted exactly as the templates give them.  No
    character of the page is removed or changed. *)
Theorem injectors_only_insert
        (html lang apiKey pathname domain : string) (cfg : ProjectConfig)
        (names : gmap string string) :
  (injectAutoTranslation html lang apiKey = html
   \/ exists u v y, html = u +:+ "</head>" +:+ v
                    /\ Str.indexOf html "</head>" = Some (Str.length u)
                    /\ injectAutoTranslation html lang apiKey
                       = u +:+ y +:+ LF +:+ "</head>" +:+ v)
  /\ (addHreflangLinks html pathname cfg domain = html
      \/ exists u v y, html = u +:+ "</head>" +:+ v
                       /\ Str.indexOf html "</head>" = Some (Str.length u)
                       /\ addHreflangLinks html pathname cfg domain
                          = u +:+ y +:+ LF +:+ "</head>" +:+ v)
  /\ (injectLanguageSwitcher html cfg names = html
      \/ exists u v y, html = u +:+ "</body>" +:+ v
                       /\ Str.indexOf html "</body>" = Some (Str.length u)
                       /\ injectLanguageSwitcher html cfg names
                          = u +:+ y +:+ LF +:+ "</body>" +:+ v)
  /\ (injectLanguageContext html lang = html
      \/ exists u v, html = u +:+ ">" +:+ v
                     /\ injectLanguageContext html lang
                        = u +:+ ">" +:+ contextScript lang +:+ v)
  /\ (injectAutoLanguageDetection html cfg = html
      \/ exists u v, html = u +:+ ">" +:+ v
                     /\ injectAutoLanguageDetection html cfg
                        = u +:+ ">"
                          +:+ autoDetectScript (jsonArray (targetLangsOf cfg))
                                               (defaultLangOf cfg)
                          +:+ v).
Proof.
  split; [|split; [|split; [|split]]].
  - unfold injectAutoTranslation.
    destruct (Str.includes html "__ALTIFIED_AUTO_TRANSLATE__"); [left; reflexivity|].
    apply (replace_inserts_before html "</head>"). reflexivity.
  - unfold addHreflangLinks.
    destruct (Str.includes html "hreflang="); [left; reflexivity|].
    apply (replace_inserts_before html "</head>"). reflexivity.
  - unfold injectLanguageSwitcher.
    destruct (Str.includes html "altified-lang-switcher"); [left; reflexivity|].
    apply (replace_inserts_before html "</body>"). reflexivity.
  - unfold injectLanguageContext.
    destruct (Str.includes html "__ALTIFIED_CONTEXT__"); [left; reflexivity|].
    apply replaceHeadOpen_inserts.
  - unfold injectAutoLanguageDetection.
    destruct (Str.includes html "__ALTIFIED_AUTO_LANG_DETECT__"); [left; reflexivity|].
    apply replaceHeadOpen_inserts.
Qed.

Import Config.

(** ** The loaders *)

(** X23.  [getProjectConfig] caches what it returns, also [null].  A hit
    of the cache is returned without a request to the API, whatever it
    holds.  A value is handed to [cache.put] only after a request that
    the API answered with an OK status and a body that parses, and it is
    the value returned; a call that hits a cache holding it returns it
    again.  When the call returns [null], then the cache held [null]; or
    a request was made that failed, and nothing was handed to the cache;
    or the API answered OK with the body [null], and [null] was handed to
    the cache: a failure is not remembered, a body [null] is. *)
Theorem getProjectConfig_caches_what_it_returns
        {A : Type} (cached : Cached (option A)) (api api' : Answer (option A)) :
  (forall d, cached = Hit d ->
             getProjectConfig cached api = mkLoaded d false None)
  /\ (forall d, put (getProjectConfig cached api) = Some d ->
                value (getProjectConfig cached api) = d
                /\ requested (getProjectConfig cached api) = true
                /\ (exists status, api = Answered status (Some d)
                                   /\ Engine.ok status = true)
                /\ getProjectConfig (Hit d) api' = mkLoaded d false None)
  /\ (value (getProjectConfig cached api) = None ->
      (cached = Hit None /\ requested (getProjectConfig cached api) = false)
      \/ (outage cached api = true
          /\ requested (getProjectConfig cached api) = true
          /\ put (getProjectConfig cached api) = None)
      \/ ((exists status, api = Answered status (Some None)
                          /\ Engine.ok status = true)
          /\ requested (getProjectConfig cached api) = true
          /\ put (getProjectConfig cached api) = Some None)).
Proof.
  split; [|split].
  - intros d ->. reflexivity.
  - intros d. unfold getProjectConfig.
    destruct cached; try discriminate;
      (destruct api as [|status [data|]]; [discriminate| |];
       destruct (Engine.ok status) eqn:Hok; cbn [negb put value requested];
       try discriminate;
       intros [= ->]; repeat split; eauto).
  - unfold getProjectConfig, outage.
    destruct cached as [| | |data].
    4:{ cbn [value requested]. intros ->. left. split; reflexivity. }
    all: destruct api as [|status [data|]];
      [intros _; right; left; repeat split; reflexivity| |];
      destruct (Engine.ok status) eqn:Hok; cbn [negb orb put value requested];
      try (intros _; right; left; repeat split; reflexivity);
      intros ->; right; right; split; [eauto|split; reflexivity].
Qed.

(** A body [null] is remembered: after the API answered OK with [null],
    the configuration is [null] without a request as long as the cache
    holds it, also when the API would answer with a configuration. *)
Lemma null_configuration_is_cached :
  getProjectConfig (A := ProjectConfig) Miss (Answered 200 (Some None))
  = mkLoaded None true (Some None)
  /\ getProjectConfig (Hit None) (Answered 200 (Some (Some Samples.siteConfig)))
     = mkLoaded None false None.
Proof. split; reflexivity. Qed.

(** X24.  An outage of the configuration makes the worker a passthrough:
    when the cache does not hold the configuration and the plan-status
    endpoint cannot be reached, answers with a status that is not OK or
    with a body that does not parse, [getProjectConfig] returns [null],
    and the worker that runs with this result forwards the request to the
    origin and serves the answer as it is. *)
Theorem configuration_outage_makes_passthrough
        (cached : Cached (option ProjectConfig)) (api : Answer (option ProjectConfig))
        (env : Env) (request : Url) :
  outage cached api = true ->
  projectConfig env = value (getProjectConfig cached api) ->
  value (getProjectConfig cached api) = None
  /\ fetch env request = mkServed (origin env request) [request] None.
Proof.
  intros Hout Henv.
  assert (Hnull : value (getProjectConfig cached api) = None).
  { unfold outage in Hout. unfold getProjectConfig.
    destruct cached; try discriminate;
      (destruct api as [|status [data|]]; [reflexivity| |];
       destruct (Engine.ok status); cbn [negb orb] in *;
       try discriminate; reflexivity). }
  split; [exact Hnull|].
  rewrite Hnull in Henv. unfold fetch, passthrough.
  destruct (ALTIFIED_API_KEY env) as [apiKey|]; [|reflexivity].
  destruct (Str.truthy apiKey); cbn [negb]; [|reflexivity].
  rewrite Henv. reflexivity.
Qed.

Lemma configuration_outage_makes_passthrough_witness :
  outage Miss (Answered 503 (Some (Some Samples.siteConfig))) = true
  /\ projectConfig (mkEnv (Some "key123") "https://example.com" None ∅
                          (fun _ _ => None) (fun _ => Resolved Samples.aboutPage))
     = value (getProjectConfig Miss (Answered 503 (Some (Some Samples.siteConfig))))
  /\ value (getProjectConfig Miss (Answered 503 (Some (Some Samples.siteConfig)))) = None
  /\ fetch (mkEnv (Some "key123") "https://example.com" None ∅
                  (fun _ _ => None) (fun _ => Resolved Samples.aboutPage))
           Samples.frenchAboutUrl
     = mkServed (origin (mkEnv (Some "key123") "https://example.com" None ∅
                               (fun _ _ => None)
                               (fun _ => Resolved Samples.aboutPage))
                        Samples.frenchAboutUrl)
                [Samples.frenchAboutUrl] None.
Proof.
  split; [reflexivity|]. split; [reflexivity|].
  exact (configuration_outage_makes_passthrough
           Miss (Answered 503 (Some (Some Samples.siteConfig)))
           (mkEnv (Some "key123") "https://example.com" None ∅
                  (fun _ _ => None) (fun _ => Resolved Samples.aboutPage))
           Samples.frenchAboutUrl eq_refl eq_refl).
Defined.

Lemma languageMapFrom_lookup entries : forall m m' k,
  languageMapFrom entries m = Some m' ->
  forallb (fun e => negb (lists k e)) entries = true ->
  m' !! k = m !! k.
Proof.
  induction entries as [|[lang|] entries IH]; intros m m' k Hm Hall.
  - injection Hm as <-. reflexivity.
  - cbn [forallb] in Hall. apply andb_true_iff in Hall as [Hk Hall].
    cbn [languageMapFrom] in Hm. cbn [lists] in Hk.
    destruct (code lang) as [c|]; [|exact (IH _ _ _ Hm Hall)].
    destruct (name lang) as [n|]; [|exact (IH _ _ _ Hm Hall)].
    destruct (Str.truthy c && Str.truthy n); [|exact (IH _ _ _ Hm Hall)].
    rewrite (IH _ _ _ Hm Hall). unfold assign.
    destruct (Str.eqb c "__proto__"); [reflexivity|]. apply lookup_insert_ne.
    apply negb_true_iff, str_eqb_neq in Hk. exact Hk.
  - discriminate.
Qed.

Lemma languageMapFrom_total entries : forall m,
  noNull entries = true -> exists m', languageMapFrom entries m = Some m'.
Proof.
  induction entries as [|[lang|] entries IH]; intros m Hall.
  - eauto.
  - cbn [noNull forallb] in Hall. cbn [languageMapFrom].
    destruct (code lang) as [c|]; [|apply IH; exact Hall].
    destruct (name lang) as [n|]; [|apply IH; exact Hall].
    destruct (Str.truthy c && Str.truthy n); apply IH; exact Hall.
  - discriminate.
Qed.

Lemma languageMapFrom_app before after : forall m m',
  languageMapFrom (before ++ after) m = Some m' ->
  exists m1, languageMapFrom before m = Some m1 /\ languageMapFrom after m1 = Some m'.
Proof.
  induction before as [|[lang|] before IH]; intros m m' H.
  - exists m. auto.
  - cbn [app languageMapFrom] in *.
    destruct (code lang) as [c|]; [|apply IH; exact H].
    destruct (name lang) as [n|]; [|apply IH; exact H].
    destruct (Str.truthy c && Str.truthy n); apply IH; exact H.
  - discriminate.
Qed.

Lemma languageMapFrom_sound entries : forall m m',
  languageMapFrom entries m = Some m' ->
  (forall k v, m !! k = Some v -> Str.truthy k = true /\ Str.truthy v = true) ->
  forall k v, m' !! k = Some v -> Str.truthy k = true /\ Str.truthy v = true.
Proof.
  induction entries as [|[lang|] entries IH]; intros m m' Hm Hs.
  - injection Hm as <-. exact Hs.
  - cbn [languageMapFrom] in Hm.
    destruct (code lang) as [c|]; [|exact (IH _ _ Hm Hs)].
    destruct (name lang) as [n|]; [|exact (IH _ _ Hm Hs)].
    destruct (Str.truthy c) eqn:Hc; cbn [andb] in Hm; [|exact (IH _ _ Hm Hs)].
    destruct (Str.truthy n) eqn:Hn; [|exact (IH _ _ Hm Hs)].
    apply (IH _ _ Hm). intros k v. unfold assign.
    destruct (Str.eqb c "__proto__"); [apply Hs|]. rewrite lookup_insert.
    destruct (decide (c = k)) as [<-|Hne]; [|apply Hs].
    intros [= <-]. auto.
  - discriminate.
Qed.

(** X25.  [getLanguageNames] never fails and returns no empty name.
    When the cache does not answer, the map it returns holds only
    non-empty codes with non-empty names; it is the empty map when the
    endpoint cannot be reached, answers with a status that is not OK or
    with a body that does not parse, and whenever an entry of the list
    is [null]; and what it hands to the cache is the map it returns. *)
Theorem getLanguageNames_returns_clean_map
        (cached : Cached (gmap string string)) (api : Answer LanguagesBody) :
  (forall data, cached <> Hit data) ->
  (forall c n, value (getLanguageNames cached api) !! c = Some n ->
               Str.truthy c = true /\ Str.truthy n = true)
  /\ (forall m, put (getLanguageNames cached api) = Some m ->
                value (getLanguageNames cached api) = m)
  /\ (match api with
      | FetchRejected => True
      | Answered status body =>
          Engine.ok status = false \/ body = None \/ body = Some NullBody
          \/ exists entries, body = Some (Body (Some entries))
                             /\ noNull entries = false
      end ->
      getLanguageNames cached api = mkLoaded ∅ true None).
Proof.
  intros Hmiss.
  assert (Hempty : forall c n, (∅ : gmap string string) !! c = Some n ->
                               Str.truthy c = true /\ Str.truthy n = true)
    by (intros c n H; rewrite lookup_empty in H; discriminate).
  assert (Hshape : getLanguageNames cached api
                   = match api with
                     | FetchRejected => mkLoaded ∅ true None
                     | Answered status body =>
                         if negb (Engine.ok status) then mkLoaded ∅ true None
                         else match body with
                              | None => mkLoaded ∅ true None
                              | Some NullBody => mkLoaded ∅ true None
                              | Some (Body None) => mkLoaded ∅ true (Some ∅)
                              | Some (Body (Some entries)) =>
                                  match languageMapFrom entries ∅ with
                                  | Some languageMap =>
                                      mkLoaded languageMap true (Some languageMap)
                                  | None => mkLoaded ∅ true None
                                  end
                              end
                     end).
  { unfold getLanguageNames. destruct cached as [| | |data]; try reflexivity.
    exfalso. exact (Hmiss data eq_refl). }
  rewrite Hshape. clear Hshape.
  destruct api as [|status body]; cbn [value put];
    [split; [exact Hempty|split; [discriminate|reflexivity]]|].
  destruct (Engine.ok status) eqn:Hok; cbn [negb value put];
    [|split; [exact Hempty|split; [discriminate|reflexivity]]].
  destruct body as [[|[entries|]]|]; cbn [value put].
  - split; [exact Hempty|split; [discriminate|reflexivity]].
  - destruct (languageMapFrom entries ∅) as [languageMap|] eqn:Hm; cbn [value put];
      [|split; [exact Hempty|split; [discriminate|reflexivity]]].
    split; [exact (languageMapFrom_sound _ _ _ Hm Hempty)|].
    split; [intros m [= <-]; reflexivity|].
    intros [H|[H|[H|(entries' & [= <-] & Hnull)]]]; try discriminate.
    exfalso. clear -Hm Hnull. revert Hm. generalize (∅ : gmap string string).
    induction entries as [|[lang|] entries IH]; intros m Hm;
      [discriminate| |discriminate].
    cbn [noNull forallb andb] in Hnull. cbn [languageMapFrom] in Hm.
    destruct (code lang) as [c|]; [|exact (IH Hnull _ Hm)].
    destruct (name lang) as [n|]; [|exact (IH Hnull _ Hm)].
    destruct (Str.truthy c && Str.truthy n); exact (IH Hnull _ Hm).
  - split; [exact Hempty|]. split; [intros m [= <-]; reflexivity|].
    intros [H|[H|[H|(entries & H & _)]]]; discriminate.
  - split; [exact Hempty|split; [discriminate|reflexivity]].
Qed.

Lemma getLanguageNames_returns_clean_map_witness :
  (forall data, (Miss : Cached (gmap string string)) <> Hit data)
  /\ (forall c n,
         value (getLanguageNames Miss
                  (Answered 200
                     (Some (Body (Some [Some (mkLanguage (Some "fr") (Some "French"));
                                        Some (mkLanguage (Some "de") (Some ""))])))))
         !! c = Some n ->
         Str.truthy c = true /\ Str.truthy n = true)
  /\ (forall m,
         put (getLanguageNames Miss
                (Answered 200
                   (Some (Body (Some [Some (mkLanguage (Some "fr") (Some "French"));
                                      Some (mkLanguage (Some "de") (Some ""))])))))
         = Some m ->
         value (getLanguageNames Miss
                  (Answered 200
                     (Some (Body (Some [Some (mkLanguage (Some "fr") (Some "French"));
                                        Some (mkLanguage (Some "de") (Some ""))])))))
         = m)
  /\ (match Answered 200
              (Some (Body (Some [Some (mkLanguage (Some "fr") (Some "French"));
                                 Some (mkLanguage (Some "de") (Some ""))]))) with
      | FetchRejected => True
      | Answered status body =>
          Engine.ok status = false \/ body = None \/ body = Some NullBody
          \/ exists entries, body = Some (Body (Some entries))
                             /\ noNull entries = false
      end ->
      getLanguageNames Miss
        (Answered 200
           (Some (Body (Some [Some (mkLanguage (Some "fr") (Some "French"));
                              Some (mkLanguage (Some "de") (Some ""))]))))
      = mkLoaded ∅ true None).
Proof.
  assert (H : forall data, (Miss : Cached (gmap string string)) <> Hit data)
    by (intros data; discriminate).
  split; [exact H|].
  exact (getLanguageNames_returns_clean_map Miss
           (Answered 200
              (Some (Body (Some [Some (mkLanguage (Some "fr") (Some "French"));
                                 Some (mkLanguage (Some "de") (Some ""))]))))
           H).
Defined.

Lemma toUpperCase_truthy s : Str.truthy (Str.toUpperCase s) = Str.truthy s.
Proof. destruct s; reflexivity. Qed.

(** The loop never makes [__proto__] an own property. *)
Lemma languageMapFrom_no_proto entries : forall m m',
  languageMapFrom entries m = Some m' ->
  m !! "__proto__" = None -> m' !! "__proto__" = None.
Proof.
  induction entries as [|[lang|] entries IH]; intros m m' Hm Hp.
  - injection Hm as <-. exact Hp.
  - cbn [languageMapFrom] in Hm.
    destruct (code lang) as [c|]; [|exact (IH _ _ Hm Hp)].
    destruct (name lang) as [n|]; [|exact (IH _ _ Hm Hp)].
    destruct (Str.truthy c && Str.truthy n); [|exact (IH _ _ Hm Hp)].
    apply (IH _ _ Hm). unfold assign.
    destruct (Str.eqb c "__proto__") eqn:Hc; [exact Hp|].
    rewrite lookup_insert_ne; [exact Hp|]. apply str_eqb_neq. exact Hc.
  - discriminate.
Qed.

(** What is inherited prints as a text that is not empty. *)
Lemma inherited_truthy code text : inherited code = Some text -> Str.truthy text = true.
Proof.
  unfold inherited, objectPrototype. cbn [getAttribute].
  repeat match goal with
         | |- context [Str.eqb ?a ?b] => destruct (Str.eqb a b)
         end;
    intros [= <-]; reflexivity.
Qed.

(** X26.  The name the switcher shows.  When the languages endpoint
    answers OK with a list without [null] entries, the label that the
    switcher prints for a code is the name of the last entry of the list
    that carries this code with a non-empty name, except for the code
    [__proto__], which the object never stores and whose label is the
    text of the prototype.  For a code of ASCII characters that no entry
    carries the label is what the object inherits under this name from
    [Object.prototype], if it is the name of such a property
    ([constructor], [toString], ...), and the code in upper case
    otherwise.  In no case, whatever the map
    of names, is the label of a non-empty code empty. *)
Theorem switcher_label_is_last_listed_name
        (cached : Cached (gmap string string)) (status : nat)
        (before after : list (option Language)) (c n : string)
        (names : gmap string string) (other : string) :
  (forall data, cached <> Hit data) ->
  Engine.ok status = true ->
  noNull before = true -> noNull after = true ->
  Str.truthy c = true -> Str.truthy n = true ->
  forallb (fun e => negb (lists c e)) after = true ->
  let loaded :=
    value (getLanguageNames cached
             (Answered status
                (Some (Body (Some (before ++ Some (mkLanguage (Some c) (Some n))
                                          :: after)))))) in
  getLanguageName loaded c
  = (if Str.eqb c "__proto__" then "[object Object]" else n)
  /\ (forallb (fun e => negb (lists other e)) (before ++ after) = true ->
      other <> c -> isAscii other = true ->
      getLanguageName loaded other
      = match inherited other with
        | Some text => text
        | None => Str.toUpperCase other
        end)
  /\ (Str.truthy other = true -> Str.truthy (getLanguageName names other) = true).
Proof.
  intros Hmiss Hok Hb Ha Hc Hn Hlast. cbv zeta.
  set (entries := before ++ Some (mkLanguage (Some c) (Some n)) :: after).
  assert (Hall : noNull entries = true).
  { unfold noNull, entries in *. rewrite forallb_app. cbn [forallb].
    rewrite Hb, Ha. reflexivity. }
  destruct (languageMapFrom_total entries ∅ Hall) as [m Hm].
  assert (Hval : value (getLanguageNames cached
                          (Answered status (Some (Body (Some entries))))) = m).
  { unfold getLanguageNames. rewrite Hok, Hm. cbn [negb].
    destruct cached as [| | |data]; try reflexivity.
    exfalso. exact (Hmiss data eq_refl). }
  rewrite Hval.
  pose proof Hm as Hsplit. unfold entries in Hsplit.
  apply languageMapFrom_app in Hsplit as (m1 & Hm1 & Hrest).
  cbn [languageMapFrom code name] in Hrest. rewrite Hc, Hn in Hrest. cbn [andb] in Hrest.
  split; [|split].
  - unfold getLanguageName.
    destruct (Str.eqb c "__proto__") eqn:Hproto.
    + apply str_eqb_eq in Hproto. subst c.
      rewrite (languageMapFrom_no_proto _ _ _ Hm (lookup_empty _)). reflexivity.
    + rewrite (languageMapFrom_lookup _ _ _ c Hrest Hlast). unfold assign.
      rewrite Hproto, lookup_insert_eq, Hn. reflexivity.
  - intros Hother Hne _. rewrite forallb_app in Hother.
    apply andb_true_iff in Hother as [Ho1 Ho2].
    unfold getLanguageName.
    rewrite (languageMapFrom_lookup _ _ _ other Hrest Ho2).
    assert (Hstep : assign m1 c n !! other = m1 !! other).
    { unfold assign. destruct (Str.eqb c "__proto__"); [reflexivity|].
      apply lookup_insert_ne. congruence. }
    rewrite Hstep, (languageMapFrom_lookup _ _ _ other Hm1 Ho1), lookup_empty.
    reflexivity.
  - intros Ho. unfold getLanguageName.
    destruct (names !! other) as [v|].
    + destruct (Str.truthy v) eqn:Hv; [exact Hv|rewrite toUpperCase_truthy; exact Ho].
    + destruct (inherited other) as [text|] eqn:Hi;
        [exact (inherited_truthy _ _ Hi)|rewrite toUpperCase_truthy; exact Ho].
Qed.

Lemma switcher_label_is_last_listed_name_witness :
  (forall data, (Miss : Cached (gmap string string)) <> Hit data)
  /\ Engine.ok 200 = true
  /\ noNull [Some (mkLanguage (Some "fr") (Some "French"))] = true
  /\ noNull [Some (mkLanguage (Some "de") None)] = true
  /\ Str.truthy "fr" = true /\ Str.truthy "Francais" = true
  /\ forallb (fun e => negb (lists "fr" e)) [Some (mkLanguage (Some "de") None)] = true
  /\ let loaded :=
       value (getLanguageNames Miss
                (Answered 200
                   (Some (Body (Some ([Some (mkLanguage (Some "fr") (Some "French"))]
                                      ++ Some (mkLanguage (Some "fr") (Some "Francais"))
                                      :: [Some (mkLanguage (Some "de") None)])))))) in
     getLanguageName loaded "fr" = "Francais"
     /\ (forallb (fun e => negb (lists "constructor" e))
                 ([Some (mkLanguage (Some "fr") (Some "French"))]
                  ++ [Some (mkLanguage (Some "de") None)]) = true ->
         "constructor" <> "fr" -> isAscii "constructor" = true ->
         getLanguageName loaded "constructor" = "function Object() { [native code] }")
     /\ (Str.truthy "constructor" = true
         -> Str.truthy (getLanguageName Samples.englishNames "constructor") = true).
Proof.
  assert (H : forall data, (Miss : Cached (gmap string string)) <> Hit data)
    by (intros data; discriminate).
  split; [exact H|]. do 6 (split; [reflexivity|]).
  exact (switcher_label_is_last_listed_name Miss 200
           [Some (mkLanguage (Some "fr") (Some "French"))]
           [Some (mkLanguage (Some "de") None)] "fr" "Francais"
           Samples.englishNames "constructor"
           H eq_refl eq_refl eq_refl eq_refl eq_refl eq_refl).
Defined.

(** Codes that the object does not hold as they were listed: [__proto__]
    is not stored, and [es], which no entry carries, has no name. *)
Lemma switcher_labels_of_unlisted_codes :
  let loaded :=
    value (getLanguageNames Miss
             (Answered 200
                (Some (Body (Some [Some (mkLanguage (Some "__proto__") (Some "Proto"));
                                   Some (mkLanguage (Some "fr") (Some "French"))]))))) in
  getLanguageName loaded "__proto__" = "[object Object]"
  /\ getLanguageName loaded "es" = "ES"
  /\ getLanguageName loaded "toString" = "function toString() { [native code] }".
Proof. repeat split; vm_compute; reflexivity. Qed.

Import Client.

(** ** The detection script *)

(** X27.  Detection runs once in a session.  A run of the detection
    script that comes to its end leaves the session item set to a
    non-empty text, and every later run of the script in the session, on
    whatever page and with whatever browser language, navigates nowhere
    and leaves the item as it is; the item is set before the script
    navigates. *)
Theorem detection_runs_once
        (targets targets' : list string) (default default' : string)
        (flag flag' : option string) (href : option string)
        (nav nav' : Navigator) (loc loc' : Location) :
  detectLanguage targets default flag nav loc = Ran flag' href ->
  (exists v, flag' = Some v /\ Str.truthy v = true)
  /\ detectLanguage targets' default' flag' nav' loc' = Ran flag' None.
Proof.
  unfold detectLanguage at 1.
  destruct flag as [v|].
  - destruct (Str.truthy v) eqn:Hv.
    + intros [= <- <-]. split; [eauto|].
      unfold detectLanguage. rewrite Hv. reflexivity.
    + destruct (browserLangOf nav) as [browserLang|]; [|discriminate].
      destruct (_ && _); intros [= <- <-]; (split; [eauto|reflexivity]).
  - destruct (browserLangOf nav) as [browserLang|]; [|discriminate].
    destruct (_ && _); intros [= <- <-]; (split; [eauto|reflexivity]).
Qed.

Lemma detection_runs_once_witness :
  detectLanguage ["fr"; "de"] "en" None (mkNavigator (Some "fr-CA") None)
                 (mkLocation "/about" "?v=2" "#team")
  = Ran (Some "true") (Some "/fr/about?v=2#team")
  /\ (exists v, Some "true" = Some v /\ Str.truthy v = true)
  /\ detectLanguage ["fr"; "de"] "en" (Some "true") (mkNavigator (Some "de-DE") None)
                    (mkLocation "/fr/about" "?v=2" "#team")
     = Ran (Some "true") None.
Proof.
  split; [reflexivity|].
  exact (detection_runs_once ["fr"; "de"] ["fr"; "de"] "en" "en" None (Some "true")
           (Some "/fr/about?v=2#team")
           (mkNavigator (Some "fr-CA") None) (mkNavigator (Some "de-DE") None)
           (mkLocation "/about" "?v=2" "#team")
           (mkLocation "/fr/about" "?v=2" "#team") eq_refl).
Defined.

(** X28.  Where detection sends the visitor.  When the detection script
    navigates, the session item was not set, or held the empty text, and
    is set to [true]; the target is a slash, the
    lower-cased part of the browser language before its first hyphen,
    then the path, the query and the fragment of the page; that language
    is a target language and not the default one.  The worker, configured
    with these target languages, each a path segment, runs the translated
    pipeline of that language on the target and asks the origin for the
    path of the page the visitor came from, in normal form. *)
Theorem detection_redirect_reaches_translated_pipeline
        (targets : list string) (default : string)
        (flag flag' : option string) (url : string)
        (nav : Navigator) (loc : Location)
        (env : Env) (apiKey origin : string) (cfg : ProjectConfig) :
  detectLanguage targets default flag nav loc = Ran flag' (Some url) ->
  ALTIFIED_API_KEY env = Some apiKey -> Str.truthy apiKey = true ->
  projectConfig env = Some cfg -> target_languages cfg = Some targets ->
  forallb isSegment targets = true ->
  Str.startsWith (l_pathname loc) "/" = true ->
  exists browserLang langCode,
    browserLangOf nav = Some browserLang
    /\ langCode = toLowerCase (hd "" (Str.split "-" browserLang))
    /\ In langCode targets /\ langCode <> default
    /\ (flag = None \/ flag = Some "") /\ flag' = Some "true"
    /\ url = ("/" +:+ langCode +:+ l_pathname loc) +:+ l_search loc +:+ l_hash loc
    /\ fetch env (mkUrl origin ("/" +:+ langCode +:+ l_pathname loc) (l_search loc))
       = handleTranslatedRequest env
           (mkUrl origin ("/" +:+ langCode +:+ l_pathname loc) (l_search loc))
           langCode ("/" +:+ Str.join "/" (pathParts (l_pathname loc))) cfg.
Proof.
  intros Hrun Hkey Ht Hcfg Htargets Hsegs Hpath. unfold detectLanguage in Hrun.
  assert (Hflag : (match flag with Some v => Str.truthy v | None => false end) = false ->
                  flag = None \/ flag = Some "").
  { destruct flag as [[|c v]|]; [right; reflexivity|discriminate|left; reflexivity]. }
  destruct (match flag with Some v => Str.truthy v | None => false end);
    [discriminate|].
  specialize (Hflag eq_refl).
  destruct (browserLangOf nav) as [browserLang|]; [|discriminate].
  cbv zeta in Hrun.
  set (langCode := toLowerCase (hd "" (Str.split "-" browserLang))) in *.
  destruct (existsb (Str.eqb langCode) targets) eqn:Hin; [|discriminate].
  destruct (Str.eqb langCode default) eqn:Hdef; [discriminate|].
  cbn [andb negb] in Hrun. injection Hrun as <- <-.
  assert (Hmem : In langCode targets) by (apply enabled_In; exact Hin).
  exists browserLang, langCode.
  split; [reflexivity|]. split; [reflexivity|]. split; [exact Hmem|].
  split; [apply str_eqb_neq; exact Hdef|]. split; [exact Hflag|].
  split; [reflexivity|]. split; [reflexivity|].
  unfold fetch. cbn [u_pathname]. rewrite Hkey, Ht, Hcfg, Htargets. cbn [negb].
  rewrite forallb_forall in Hsegs.
  rewrite (pathParts_language_prefix langCode (l_pathname loc)
             (Hsegs _ Hmem) (or_intror Hpath)).
  cbn [head tail]. cbn [enabled]. rewrite Hin. reflexivity.
Qed.

Lemma detection_redirect_reaches_translated_pipeline_witness :
  detectLanguage ["fr"; "de"] "en" None (mkNavigator (Some "FR-ca") None)
                 (mkLocation "/about/" "?v=2" "#team")
  = Ran (Some "true") (Some "/fr/about/?v=2#team")
  /\ ALTIFIED_API_KEY Samples.aboutSite = Some "key123"
  /\ Str.truthy "key123" = true
  /\ projectConfig Samples.aboutSite = Some Samples.siteConfig
  /\ target_languages Samples.siteConfig = Some ["fr"; "de"]
  /\ forallb isSegment ["fr"; "de"] = true
  /\ Str.startsWith (l_pathname (mkLocation "/about/" "?v=2" "#team")) "/" = true
  /\ exists browserLang langCode,
       browserLangOf (mkNavigator (Some "FR-ca") None) = Some browserLang
       /\ langCode = toLowerCase (hd "" (Str.split "-" browserLang))
       /\ In langCode ["fr"; "de"] /\ langCode <> "en"
       /\ ((None : option string) = None \/ (None : option string) = Some "")
       /\ Some "true" = Some "true"
       /\ "/fr/about/?v=2#team"
          = ("/" +:+ langCode +:+ l_pathname (mkLocation "/about/" "?v=2" "#team"))
            +:+ l_search (mkLocation "/about/" "?v=2" "#team")
            +:+ l_hash (mkLocation "/about/" "?v=2" "#team")
       /\ fetch Samples.aboutSite
            (mkUrl "https://example.com"
                   ("/" +:+ langCode +:+ l_pathname (mkLocation "/about/" "?v=2" "#team"))
                   (l_search (mkLocation "/about/" "?v=2" "#team")))
          = handleTranslatedRequest Samples.aboutSite
              (mkUrl "https://example.com"
                     ("/" +:+ langCode
                      +:+ l_pathname (mkLocation "/about/" "?v=2" "#team"))
                     (l_search (mkLocation "/about/" "?v=2" "#team")))
              langCode
              ("/" +:+ Str.join "/"
                         (pathParts (l_pathname (mkLocation "/about/" "?v=2" "#team"))))
              Samples.siteConfig.
Proof.
  do 7 (split; [reflexivity|]).
  exact (detection_redirect_reaches_translated_pipeline ["fr"; "de"] "en" None
           (Some "true") "/fr/about/?v=2#team"
           (mkNavigator (Some "FR-ca") None) (mkLocation "/about/" "?v=2" "#team")
           Samples.aboutSite "key123" "https://example.com" Samples.siteConfig
           eq_refl eq_refl eq_refl eq_refl eq_refl eq_refl eq_refl).
Defined.

(** ** The switcher *)

Lemma matchLangPrefix_two_letters (lang rest : string) :
  twoLetters lang = true ->
  rest = "" \/ Str.startsWith rest "/" = true ->
  matchLangPrefix ("/" +:+ lang +:+ rest) = Some (lang, Str.drop 1 rest).
Proof.
  unfold twoLetters. destruct lang as [|a [|b [|c lang]]]; try discriminate.
  intros Hab Hrest. cbn [String.append matchLangPrefix].
  apply andb_true_iff in Hab as [Ha Hb]. rewrite Ha, Hb. cbn [Ascii.eqb andb].
  change (Ascii.eqb "/" "/") with true. cbn [andb].
  destruct Hrest as [->|Hs]; [reflexivity|].
  apply startsWith_iff in Hs as [r ->]. reflexivity.
Qed.

Lemma cleanPathOf_two_letters (lang rest : string) :
  twoLetters lang = true -> Str.startsWith rest "/" = true ->
  cleanPathOf ("/" +:+ lang +:+ rest) = rest.
Proof.
  intros Hl Hs. unfold cleanPathOf.
  rewrite (matchLangPrefix_two_letters lang rest Hl (or_intror Hs)).
  apply startsWith_iff in Hs as [r ->]. cbn. rewrite startsWith_nil. reflexivity.
Qed.

Lemma twoLetters_neq (a b : string) : Str.eqb a b = false -> a <> b.
Proof. apply str_eqb_neq. Qed.

(** X29.  Switching between two-letter languages keeps the page.  On a
    page whose path is a slash, a code of two lower-case letters and a
    rest that starts with a slash, choosing another non-default language
    leads to that language in front of the same rest, with the query and
    the fragment; choosing the first language there leads back to the
    page; choosing the default language leads to the rest alone; and
    choosing the language of the page or the placeholder does nothing. *)
Theorem switcher_round_trip
        (defaultLang a b rest search hash : string) :
  twoLetters a = true -> twoLetters b = true ->
  a <> b -> a <> defaultLang -> b <> defaultLang ->
  Str.truthy defaultLang = true ->
  Str.startsWith rest "/" = true ->
  choose defaultLang (mkLocation ("/" +:+ a +:+ rest) search hash) b
  = Some (("/" +:+ b +:+ rest) +:+ search +:+ hash)
  /\ choose defaultLang (mkLocation ("/" +:+ b +:+ rest) search hash) a
     = Some (("/" +:+ a +:+ rest) +:+ search +:+ hash)
  /\ choose defaultLang (mkLocation ("/" +:+ a +:+ rest) search hash) defaultLang
     = Some (rest +:+ search +:+ hash)
  /\ choose defaultLang (mkLocation ("/" +:+ a +:+ rest) search hash) a = None
  /\ choose defaultLang (mkLocation ("/" +:+ a +:+ rest) search hash) "" = None.
Proof.
  intros Ha Hb Hab Had Hbd Hd Hrest.
  assert (Hta : Str.truthy a = true) by (destruct a; [discriminate|reflexivity]).
  assert (Htb : Str.truthy b = true) by (destruct b; [discriminate|reflexivity]).
  unfold choose, currentLangOf, onChange. cbn [l_pathname l_search l_hash].
  rewrite !(matchLangPrefix_two_letters a rest Ha (or_intror Hrest)).
  rewrite !(matchLangPrefix_two_letters b rest Hb (or_intror Hrest)).
  rewrite !(cleanPathOf_two_letters a rest Ha Hrest).
  rewrite !(cleanPathOf_two_letters b rest Hb Hrest).
  rewrite Hta, Htb, Hd, ?(str_eqb_refl a), ?(str_eqb_refl defaultLang).
  cbn [negb orb Str.truthy].
  assert (E1 : Str.eqb b a = false) by (apply str_eqb_neq; congruence).
  assert (E2 : Str.eqb a b = false) by (apply str_eqb_neq; congruence).
  assert (E3 : Str.eqb b defaultLang = false) by (apply str_eqb_neq; congruence).
  assert (E4 : Str.eqb a defaultLang = false) by (apply str_eqb_neq; congruence).
  assert (E5 : Str.eqb defaultLang a = false) by (apply str_eqb_neq; congruence).
  rewrite E1, E2, E3, E4, E5. repeat split; reflexivity.
Qed.

Lemma switcher_round_trip_witness :
  twoLetters "fr" = true /\ twoLetters "de" = true
  /\ "fr" <> "de" /\ "fr" <> "en" /\ "de" <> "en"
  /\ Str.truthy "en" = true
  /\ Str.startsWith "/about" "/" = true
  /\ choose "en" (mkLocation ("/" +:+ "fr" +:+ "/about") "?v=2" "#team") "de"
     = Some (("/" +:+ "de" +:+ "/about") +:+ "?v=2" +:+ "#team")
  /\ choose "en" (mkLocation ("/" +:+ "de" +:+ "/about") "?v=2" "#team") "fr"
     = Some (("/" +:+ "fr" +:+ "/about") +:+ "?v=2" +:+ "#team")
  /\ choose "en" (mkLocation ("/" +:+ "fr" +:+ "/about") "?v=2" "#team") "en"
     = Some ("/about" +:+ "?v=2" +:+ "#team")
  /\ choose "en" (mkLocation ("/" +:+ "fr" +:+ "/about") "?v=2" "#team") "fr" = None
  /\ choose "en" (mkLocation ("/" +:+ "fr" +:+ "/about") "?v=2" "#team") "" = None.
Proof.
  assert (H1 : "fr" <> "de") by discriminate.
  assert (H2 : "fr" <> "en") by discriminate.
  assert (H3 : "de" <> "en") by discriminate.
  split; [reflexivity|]. split; [reflexivity|].
  split; [exact H1|]. split; [exact H2|]. split; [exact H3|].
  split; [reflexivity|]. split; [reflexivity|].
  exact (switcher_round_trip "en" "fr" "de" "/about" "?v=2" "#team"
           eq_refl eq_refl H1 H2 H3 eq_refl eq_refl).
Defined.

(** X30.  The switcher knows a language by the shape of the path only.
    On a page whose path does not start with a slash, two lower-case
    letters and then a slash or the end, such as the pages of a target
    language whose code is longer or holds an upper-case letter or a
    hyphen, the script takes the default language for the language of the
    page: choosing the default language does nothing, and choosing
    another language puts it in front of the whole path, old prefix
    included. *)
Theorem switcher_misses_other_prefixes
        (defaultLang newLang pathname search hash : string) :
  matchLangPrefix pathname = None ->
  Str.startsWith pathname "/" = true ->
  Str.truthy newLang = true -> newLang <> defaultLang ->
  choose defaultLang (mkLocation pathname search hash) defaultLang = None
  /\ choose defaultLang (mkLocation pathname search hash) newLang
     = Some (("/" +:+ newLang +:+ pathname) +:+ search +:+ hash).
Proof.
  intros Hm Hs Ht Hne. unfold choose, currentLangOf, onChange, cleanPathOf.
  cbn [l_pathname l_search l_hash]. rewrite Hm, Hs, Ht, str_eqb_refl.
  apply str_eqb_neq in Hne. rewrite Hne. rewrite orb_true_r.
  split; reflexivity.
Qed.

Lemma switcher_misses_other_prefixes_witness :
  matchLangPrefix "/pt-br/about" = None
  /\ Str.startsWith "/pt-br/about" "/" = true
  /\ Str.truthy "fr" = true /\ "fr" <> "en"
  /\ choose "en" (mkLocation "/pt-br/about" "" "") "en" = None
  /\ choose "en" (mkLocation "/pt-br/about" "" "") "fr"
     = Some (("/" +:+ "fr" +:+ "/pt-br/about") +:+ "" +:+ "").
Proof.
  assert (H : "fr" <> "en") by discriminate.
  split; [reflexivity|]. split; [reflexivity|]. split; [reflexivity|].
  split; [exact H|].
  exact (switcher_misses_other_prefixes "en" "fr" "/pt-br/about" "" ""
           eq_refl eq_refl eq_refl H).
Defined.
